(** * Live speaking practice: audio codec, playback scheduling, transcript
      assembly and session teardown

    A shallow embedding of [src/components/SpeakingPractice.tsx] (with
    [createLiveSession] of [src/services/geminiService.ts]) and the
    properties of its audio pipeline.

    Conventions of the embedding:
    - a JavaScript string is the list of its UTF-16 code units ([jsstring]);
    - a byte is an integer in [0, 256), a 16-bit sample an integer in
      [-32768, 32768);
    - a JavaScript number holding a sample is a [float]: not-a-number, an
      infinity, or a finite value given as an exact rational.  Every
      arithmetic step of the codec is exact on the values of a
      [Float32Array] (a product of a 24-bit significand with 32767 or 32768
      fits the 53 bits of a double, and a 16-bit integer divided by 32768
      fits a 32-bit float), so no rounding is lost by the rationals;
      negative zero behaves as zero in every operation used here;
    - a JavaScript number holding a time is a double: a rational, with
      every sum and quotient of the code rounded to the nearest double by
      [binary64] (ties to even, subnormal numbers included).  The exponent
      is not bounded above: an overflow takes a clock beyond [2^1023]
      seconds;
    - a handler is a computation in the monad [M] over the [World]: it
      returns normally or throws, and the mutations made before a throw
      stay, as in JavaScript. *)

From Stdlib Require Import ZArith QArith Qround Qminmax Qabs Qpower.
From Stdlib Require Import List Bool String Ascii Lia Lqa.
Import ListNotations.

Local Open Scope Z_scope.

(* ================================================================== *)
(** * JavaScript values *)
(* ================================================================== *)

(** ** Strings *)

Definition jsstring := list Z.

(** The code units of an ASCII literal. *)
Definition js (s : string) : jsstring :=
  map (fun c => Z.of_N (N_of_ascii c)) (list_ascii_of_string s).

(** A string is truthy when it is not empty. *)
Definition truthy (s : jsstring) : bool :=
  match s with [] => false | _ :: _ => true end.

(** Optional chaining yields [undefined] (here [None]), which is falsy. *)
Definition truthy_opt (o : option jsstring) : bool :=
  match o with Some s => truthy s | None => false end.

(** The code units [String.prototype.trim] strips: WhiteSpace and
    LineTerminator of ECMAScript. *)
Definition isWhiteSpace (c : Z) : bool :=
  ((9 <=? c) && (c <=? 13)) || (c =? 32) || (c =? 160) || (c =? 5760)
  || ((8192 <=? c) && (c <=? 8202)) || (c =? 8232) || (c =? 8233)
  || (c =? 8239) || (c =? 8287) || (c =? 12288) || (c =? 65279).

Fixpoint trimStart (s : jsstring) : jsstring :=
  match s with
  | [] => []
  | c :: r => if isWhiteSpace c then trimStart r else s
  end.

Definition trimEnd (s : jsstring) : jsstring := rev (trimStart (rev s)).

Definition trim (s : jsstring) : jsstring := trimEnd (trimStart s).

(** ** Numbers holding samples *)

Inductive float : Type :=
| NaN
| PInf
| NInf
| Fin (q : Q).

(** [Math.min] and [Math.max]: not-a-number wins over everything. *)
Definition Math_min (a b : float) : float :=
  match a, b with
  | NaN, _ | _, NaN => NaN
  | NInf, _ | _, NInf => NInf
  | PInf, y => y
  | x, PInf => x
  | Fin x, Fin y => Fin (Qmin x y)
  end.

Definition Math_max (a b : float) : float :=
  match a, b with
  | NaN, _ | _, NaN => NaN
  | PInf, _ | _, PInf => PInf
  | NInf, y => y
  | x, NInf => x
  | Fin x, Fin y => Fin (Qmax x y)
  end.

(** [s < 0]: false on not-a-number. *)
Definition lt0 (s : float) : bool :=
  match s with
  | NaN | PInf => false
  | NInf => true
  | Fin q => negb (Qle_bool 0 q)
  end.

(** [s * k] for a positive integer constant [k]. *)
Definition mulc (s : float) (k : Z) : float :=
  match s with
  | Fin q => Fin (q * inject_Z k)
  | other => other
  end.

(** Truncation toward zero (ToIntegerOrInfinity on a finite value). *)
Definition truncate (q : Q) : Z :=
  if Qle_bool 0 q then Qfloor q else Qceiling q.

(** The wrap-around of a store into an [Int16Array]: the integer modulo
    2^16, read as a signed 16-bit value. *)
Definition wrap16 (n : Z) : Z :=
  let u := n mod 65536 in
  if u <? 32768 then u else u - 65536.

(** ToInt16: not-a-number and the infinities store 0. *)
Definition ToInt16 (v : float) : Z :=
  match v with
  | Fin q => wrap16 (truncate q)
  | _ => 0
  end.

(** Completions of a computation that may throw. *)
Inductive exn : Type :=
| RangeError
| InvalidCharacterError
| NotSupportedError
| InvalidStateError
| NotAllowedError.

Inductive Completion (A : Type) : Type :=
| Normal (a : A)
| Throw (e : exn).

Arguments Normal {A} a.
Arguments Throw {A} e.

(** ** Numbers holding times *)

(** [floor (log2 x)], for a positive [x]. *)
Definition Qlog2 (x : Q) : Z :=
  let k := Z.log2 (Qnum x) - Z.log2 (Zpos (Qden x)) in
  if Qle_bool (2 ^ k)%Q x then k else k - 1.

(** The nearest integer, the even one of two that are equally near. *)
Definition roundTiesToEven (t : Q) : Z :=
  let f := Qfloor t in
  match (t - inject_Z f ?= 1 # 2)%Q with
  | Lt => f
  | Gt => f + 1
  | Eq => if Z.even f then f else f + 1
  end.

(** The double nearest to a positive number: a significand of 53 bits,
    or fewer below [2^-1022], where the step stays [2^-1074]. *)
Definition binary64_pos (x : Q) : Q :=
  let q := Z.max (Qlog2 x - 52) (-1074) in
  (inject_Z (roundTiesToEven (x / 2 ^ q)) * 2 ^ q)%Q.

(** The rounding of every arithmetic operation on doubles: to the
    nearest double, ties to the even significand, the sign apart.  There
    is no overflow to an infinity here: the exponent is not bounded
    above. *)
Definition binary64 (x : Q) : Q :=
  match (x ?= 0)%Q with
  | Eq => 0%Q
  | Gt => binary64_pos x
  | Lt => (- binary64_pos (- x))%Q
  end.

(** The rationals that are doubles. *)
Definition is_binary64 (x : Q) : Prop := (binary64 x == x)%Q.

(* ================================================================== *)
(** * Audio utilities *)
(* ================================================================== *)

(** [floatTo16BitPCM]: the loop fills [output[i]] from [input[i]]. *)
Definition floatTo16BitPCM_sample (x : float) : Z :=
  let s := Math_max (Fin (-1)) (Math_min (Fin 1) x) in
  ToInt16 (if lt0 s then mulc s 32768 (* 0x8000 *)
           else mulc s 32767 (* 0x7FFF *)).

Definition floatTo16BitPCM (input : list float) : list Z :=
  map floatTo16BitPCM_sample input.

(** [pcm16.buffer]: the bytes behind an [Int16Array], two per element,
    low byte first. *)
Definition Int16Array_buffer (a : list Z) : list Z :=
  flat_map (fun v => [v mod 256; (v / 256) mod 256]) a.

(** [new Int16Array(buffer)]: a view of a byte buffer as 16-bit samples.
    The constructor throws a RangeError when the byte length is not a
    multiple of the element size. *)
Fixpoint int16_elements (bytes : list Z) : list Z :=
  match bytes with
  | b0 :: b1 :: rest => wrap16 (b0 + 256 * b1) :: int16_elements rest
  | _ => []
  end.

Definition Int16Array_of_buffer (bytes : list Z) : Completion (list Z) :=
  if Nat.even (List.length bytes) then Normal (int16_elements bytes)
  else Throw RangeError.

(** The decode loop of [onmessage]: [float32[i] = pcm16[i] / 32768.0]. *)
Definition pcm16_to_float32 (pcm16 : list Z) : list float :=
  map (fun v => Fin (v # 32768)) pcm16.

(** Lines 161-165 of [onmessage]: from the received bytes to the float
    samples. *)
Definition decodePCM16 (audioBytes : list Z) : Completion (list float) :=
  match Int16Array_of_buffer audioBytes with
  | Normal pcm16 => Normal (pcm16_to_float32 pcm16)
  | Throw e => Throw e
  end.

(** ** The text-safe transport encoding *)

(** The index of a code unit in the base64 alphabet. *)
Definition base64_index (c : Z) : option Z :=
  if (65 <=? c) && (c <=? 90) then Some (c - 65)            (* A-Z *)
  else if (97 <=? c) && (c <=? 122) then Some (c - 97 + 26) (* a-z *)
  else if (48 <=? c) && (c <=? 57) then Some (c - 48 + 52)  (* 0-9 *)
  else if c =? 43 then Some 62                              (* + *)
  else if c =? 47 then Some 63                              (* / *)
  else None.

Definition base64_char (i : Z) : Z :=
  if i <? 26 then i + 65
  else if i <? 52 then i - 26 + 97
  else if i <? 62 then i - 52 + 48
  else if i =? 62 then 43
  else 47.

(** ASCII whitespace, which [atob] strips: TAB, LF, FF, CR, SPACE. *)
Definition isAsciiWhitespace (c : Z) : bool :=
  (c =? 9) || (c =? 10) || (c =? 12) || (c =? 13) || (c =? 32).

(** One or two trailing [=] are dropped when the length is a multiple
    of four. *)
Definition strip_padding (s : jsstring) : jsstring :=
  if (Z.of_nat (List.length s) mod 4 =? 0) then
    match rev s with
    | 61 :: 61 :: r => rev r
    | 61 :: r => rev r
    | _ => s
    end
  else s.

Fixpoint base64_indices (s : jsstring) : option (list Z) :=
  match s with
  | [] => Some []
  | c :: r =>
      match base64_index c, base64_indices r with
      | Some i, Some l => Some (i :: l)
      | _, _ => None
      end
  end.

(** Four sextets give three bytes; a tail of two gives one byte, a tail
    of three gives two, the spare bits being discarded. *)
Fixpoint sextets_to_bytes (l : list Z) : list Z :=
  match l with
  | a :: b :: c :: d :: rest =>
      let n := ((a * 64 + b) * 64 + c) * 64 + d in
      (n / 65536) :: ((n / 256) mod 256) :: (n mod 256)
        :: sextets_to_bytes rest
  | [a; b; c] =>
      let n := (a * 64 + b) * 64 + c in
      [n / 1024; (n / 4) mod 256]
  | [a; b] => [(a * 64 + b) / 16]
  | _ => []
  end.

(** [atob]: the forgiving base64 decoding; the result is a binary
    string, one code unit below 256 per byte.  It throws an
    InvalidCharacterError on malformed input. *)
Definition atob (base64 : jsstring) : Completion jsstring :=
  let data := strip_padding
                (filter (fun c => negb (isAsciiWhitespace c)) base64) in
  if (Z.of_nat (List.length data) mod 4 =? 1) then
    Throw InvalidCharacterError
  else
    match base64_indices data with
    | Some l => Normal (sextets_to_bytes l)
    | None => Throw InvalidCharacterError
    end.

(** [btoa] of a binary string. *)
Fixpoint btoa (binary : jsstring) : jsstring :=
  match binary with
  | a :: b :: c :: rest =>
      let n := (a * 256 + b) * 256 + c in
      base64_char (n / 262144) :: base64_char ((n / 4096) mod 64)
        :: base64_char ((n / 64) mod 64) :: base64_char (n mod 64)
        :: btoa rest
  | [a; b] =>
      let n := (a * 256 + b) * 4 in
      [base64_char (n / 4096); base64_char ((n / 64) mod 64);
       base64_char (n mod 64); 61]
  | [a] =>
      let n := a * 16 in
      [base64_char (n / 64); base64_char (n mod 64); 61; 61]
  | [] => []
  end.

(** [base64ToUint8Array]: [bytes[i] = binaryString.charCodeAt(i)], a store
    into a [Uint8Array]. *)
Definition base64ToUint8Array (base64 : jsstring) : Completion (list Z) :=
  match atob base64 with
  | Normal binaryString => Normal (map (fun c => c mod 256) binaryString)
  | Throw e => Throw e
  end.

(** [arrayBufferToBase64]: [binary += String.fromCharCode(bytes[i])], then
    [btoa]. *)
Definition arrayBufferToBase64 (buffer : list Z) : jsstring :=
  btoa (map (fun b => b mod 65536) buffer).

(* ================================================================== *)
(** * The component and its environment *)
(* ================================================================== *)

Inductive Role : Type := user | model.

Record ChatMessage : Type := mkChatMessage {
  role : Role;
  text : jsstring
}.

(** The fields of a [LiveServerMessage] that [onmessage] reads, each
    through optional chaining:
    [serverContent?.modelTurn?.parts?.[0]?.inlineData?.data],
    [serverContent?.inputTranscription?.text],
    [serverContent?.outputTranscription?.text] and
    [serverContent?.turnComplete]. *)
Record LiveServerMessage : Type := mkMessage {
  audioData : option jsstring;
  inputTranscription : option jsstring;
  outputTranscription : option jsstring;
  turnComplete : option bool
}.

(** An [AudioBufferSourceNode]: its identity, the duration of its buffer
    and the time given to [start], once it was called. *)
Record AudioBufferSourceNode : Type := mkSource {
  source_id : nat;
  source_duration : Q;
  source_start : option Q
}.

(** The callbacks the component chains on the session promise. *)
Inductive Reaction : Type :=
| SendRealtimeInput (mimeType data : jsstring)
    (* session => session.sendRealtimeInput({ media: { mimeType, data } }) *)
| CloseSession.
    (* s => s.close() *)

(** The promise returned by [createLiveSession].  The session it
    resolves to is named by the promise. *)
Inductive PromiseState : Type :=
| Pending (reactions : list Reaction)
| Fulfilled
| Rejected.

(** What the component does to the objects around it. *)
Inductive Effect : Type :=
| SessionSend (session : nat) (mimeType data : jsstring)
| SessionClosed (session : nat)
| UnhandledRejection (promise : nat)
| TrackStop (stream : nat)
| NodeDisconnect (node : nat)
| ContextClose (ctx : nat)
| SourceStart (source : nat) (when : Q)
| SourceStop (source : nat)
| ConsoleError
| Alert.

Record World : Type := mkWorld {
  (* useState *)
  messages : list ChatMessage;
  isConnected : bool;
  isProcessing : bool;
  (* useRef *)
  sessionRef : option nat;
  audioContextRef : option nat;
  nextStartTimeRef : Q;
  sourcesRef : list AudioBufferSourceNode;
  processorRef : option nat;
  inputSourceRef : option nat;
  streamRef : option nat;
  currentInputTransRef : jsstring;
  currentOutputTransRef : jsstring;
  (* the environment: promises by identity, the microtask queue, the next
     fresh identity, and the effects so far, oldest first *)
  promises : list PromiseState;
  microtasks : list (nat * Reaction);
  fresh : nat;
  trace : list Effect
}.

(** The component at mount. *)
Definition initial : World :=
  {| messages := []; isConnected := false; isProcessing := false;
     sessionRef := None; audioContextRef := None; nextStartTimeRef := 0%Q;
     sourcesRef := []; processorRef := None; inputSourceRef := None;
     streamRef := None; currentInputTransRef := [];
     currentOutputTransRef := []; promises := []; microtasks := [];
     fresh := 0%nat; trace := [] |}.

(** Field updates. *)
Definition set_messages v w :=
  mkWorld v (isConnected w) (isProcessing w) (sessionRef w)
    (audioContextRef w) (nextStartTimeRef w) (sourcesRef w) (processorRef w)
    (inputSourceRef w) (streamRef w) (currentInputTransRef w)
    (currentOutputTransRef w) (promises w) (microtasks w) (fresh w) (trace w).
Definition set_isConnected v w :=
  mkWorld (messages w) v (isProcessing w) (sessionRef w)
    (audioContextRef w) (nextStartTimeRef w) (sourcesRef w) (processorRef w)
    (inputSourceRef w) (streamRef w) (currentInputTransRef w)
    (currentOutputTransRef w) (promises w) (microtasks w) (fresh w) (trace w).
Definition set_isProcessing v w :=
  mkWorld (messages w) (isConnected w) v (sessionRef w)
    (audioContextRef w) (nextStartTimeRef w) (sourcesRef w) (processorRef w)
    (inputSourceRef w) (streamRef w) (currentInputTransRef w)
    (currentOutputTransRef w) (promises w) (microtasks w) (fresh w) (trace w).
Definition set_sessionRef v w :=
  mkWorld (messages w) (isConnected w) (isProcessing w) v
    (audioContextRef w) (nextStartTimeRef w) (sourcesRef w) (processorRef w)
    (inputSourceRef w) (streamRef w) (currentInputTransRef w)
    (currentOutputTransRef w) (promises w) (microtasks w) (fresh w) (trace w).
Definition set_audioContextRef v w :=
  mkWorld (messages w) (isConnected w) (isProcessing w) (sessionRef w)
    v (nextStartTimeRef w) (sourcesRef w) (processorRef w)
    (inputSourceRef w) (streamRef w) (currentInputTransRef w)
    (currentOutputTransRef w) (promises w) (microtasks w) (fresh w) (trace w).
Definition set_nextStartTimeRef v w :=
  mkWorld (messages w) (isConnected w) (isProcessing w) (sessionRef w)
    (audioContextRef w) v (sourcesRef w) (processorRef w)
    (inputSourceRef w) (streamRef w) (currentInputTransRef w)
    (currentOutputTransRef w) (promises w) (microtasks w) (fresh w) (trace w).
Definition set_sourcesRef v w :=
  mkWorld (messages w) (isConnected w) (isProcessing w) (sessionRef w)
    (audioContextRef w) (nextStartTimeRef w) v (processorRef w)
    (inputSourceRef w) (streamRef w) (currentInputTransRef w)
    (currentOutputTransRef w) (promises w) (microtasks w) (fresh w) (trace w).
Definition set_processorRef v w :=
  mkWorld (messages w) (isConnected w) (isProcessing w) (sessionRef w)
    (audioContextRef w) (nextStartTimeRef w) (sourcesRef w) v
    (inputSourceRef w) (streamRef w) (currentInputTransRef w)
    (currentOutputTransRef w) (promises w) (microtasks w) (fresh w) (trace w).
Definition set_inputSourceRef v w :=
  mkWorld (messages w) (isConnected w) (isProcessing w) (sessionRef w)
    (audioContextRef w) (nextStartTimeRef w) (sourcesRef w) (processorRef w)
    v (streamRef w) (currentInputTransRef w)
    (currentOutputTransRef w) (promises w) (microtasks w) (fresh w) (trace w).
Definition set_streamRef v w :=
  mkWorld (messages w) (isConnected w) (isProcessing w) (sessionRef w)
    (audioContextRef w) (nextStartTimeRef w) (sourcesRef w) (processorRef w)
    (inputSourceRef w) v (currentInputTransRef w)
    (currentOutputTransRef w) (promises w) (microtasks w) (fresh w) (trace w).
Definition set_currentInputTransRef v w :=
  mkWorld (messages w) (isConnected w) (isProcessing w) (sessionRef w)
    (audioContextRef w) (nextStartTimeRef w) (sourcesRef w) (processorRef w)
    (inputSourceRef w) (streamRef w) v
    (currentOutputTransRef w) (promises w) (microtasks w) (fresh w) (trace w).
Definition set_currentOutputTransRef v w :=
  mkWorld (messages w) (isConnected w) (isProcessing w) (sessionRef w)
    (audioContextRef w) (nextStartTimeRef w) (sourcesRef w) (processorRef w)
    (inputSourceRef w) (streamRef w) (currentInputTransRef w)
    v (promises w) (microtasks w) (fresh w) (trace w).
Definition set_promises v w :=
  mkWorld (messages w) (isConnected w) (isProcessing w) (sessionRef w)
    (audioContextRef w) (nextStartTimeRef w) (sourcesRef w) (processorRef w)
    (inputSourceRef w) (streamRef w) (currentInputTransRef w)
    (currentOutputTransRef w) v (microtasks w) (fresh w) (trace w).
Definition set_microtasks v w :=
  mkWorld (messages w) (isConnected w) (isProcessing w) (sessionRef w)
    (audioContextRef w) (nextStartTimeRef w) (sourcesRef w) (processorRef w)
    (inputSourceRef w) (streamRef w) (currentInputTransRef w)
    (currentOutputTransRef w) (promises w) v (fresh w) (trace w).
Definition set_fresh v w :=
  mkWorld (messages w) (isConnected w) (isProcessing w) (sessionRef w)
    (audioContextRef w) (nextStartTimeRef w) (sourcesRef w) (processorRef w)
    (inputSourceRef w) (streamRef w) (currentInputTransRef w)
    (currentOutputTransRef w) (promises w) (microtasks w) v (trace w).
Definition set_trace v w :=
  mkWorld (messages w) (isConnected w) (isProcessing w) (sessionRef w)
    (audioContextRef w) (nextStartTimeRef w) (sourcesRef w) (processorRef w)
    (inputSourceRef w) (streamRef w) (currentInputTransRef w)
    (currentOutputTransRef w) (promises w) (microtasks w) (fresh w) v.

(** ** The monad of handlers *)

Definition M (A : Type) : Type := World -> Completion A * World.

Definition ret {A} (a : A) : M A := fun w => (Normal a, w).

Definition bind {A B} (m : M A) (k : A -> M B) : M B :=
  fun w =>
    match m w with
    | (Normal a, w') => k a w'
    | (Throw e, w') => (Throw e, w')
    end.

Definition throw {A} (e : exn) : M A := fun w => (Throw e, w).

Definition gets {A} (f : World -> A) : M A := fun w => (Normal (f w), w).

Definition modify (f : World -> World) : M unit := fun w => (Normal tt, f w).

(** A computation that touches no state. *)
Definition lift {A} (c : Completion A) : M A := fun w => (c, w).

(** [try { m } catch { h }]. *)
Definition try_catch (m : M unit) (h : M unit) : M unit :=
  fun w =>
    match m w with
    | (Normal a, w') => (Normal a, w')
    | (Throw _, w') => h w'
    end.

Declare Scope m_scope.
Delimit Scope m_scope with m.
Notation "x <- m ;; k" := (bind m (fun x => k))
  (at level 61, m at next level, right associativity) : m_scope.
Notation "m ;; k" := (bind m (fun _ => k))
  (at level 61, right associativity) : m_scope.
Local Open Scope m_scope.

(** [l.forEach(f)]. *)
Fixpoint forEach {A} (f : A -> M unit) (l : list A) : M unit :=
  match l with
  | [] => ret tt
  | a :: r => f a ;; forEach f r
  end.

Definition effect (e : Effect) : M unit :=
  modify (fun w => set_trace (trace w ++ [e]) w).

(** A new object identity. *)
Definition new_object : M nat :=
  n <- gets fresh;;
  modify (set_fresh (S n));;
  ret n.

(** ** Promises and the live set *)

Fixpoint update_nth {A} (n : nat) (v : A) (l : list A) : list A :=
  match l, n with
  | [], _ => []
  | _ :: r, O => v :: r
  | a :: r, S n' => a :: update_nth n' v r
  end.

(** [ai.live.connect(...)]: a new pending promise. *)
Definition new_promise : M nat :=
  ps <- gets promises;;
  modify (set_promises (ps ++ [Pending []]));;
  ret (List.length ps).

(** [promise.then(r)]: queued while the promise is pending, a microtask
    once it is fulfilled, never run when it is rejected (the rejection of
    the derived promise is then reported by the host as unhandled). *)
Definition promise_then (p : nat) (r : Reaction) : M unit :=
  ps <- gets promises;;
  match nth_error ps p with
  | Some (Pending rs) =>
      modify (set_promises (update_nth p (Pending (rs ++ [r])) ps))
  | Some Fulfilled =>
      modify (fun w => set_microtasks (microtasks w ++ [(p, r)]) w)
  | Some Rejected => effect (UnhandledRejection p)
  | None => ret tt
  end.

Definition run_reaction (t : nat * Reaction) : M unit :=
  match snd t with
  | SendRealtimeInput mimeType data =>
      effect (SessionSend (fst t) mimeType data)
  | CloseSession => effect (SessionClosed (fst t))
  end.

(** The microtask checkpoint after a handler. *)
Definition drain (w : World) : World :=
  fold_left (fun w t => snd (run_reaction t w)) (microtasks w)
            (set_microtasks [] w).

(** A JavaScript [Set] of source nodes keeps insertion order and holds a
    node once. *)
Definition same_source (id : nat) (s : AudioBufferSourceNode) : bool :=
  Nat.eqb (source_id s) id.

Definition Set_add (s : AudioBufferSourceNode)
    (l : list AudioBufferSourceNode) : list AudioBufferSourceNode :=
  if existsb (same_source (source_id s)) l then l else l ++ [s].

Definition Set_delete (id : nat)
    (l : list AudioBufferSourceNode) : list AudioBufferSourceNode :=
  filter (fun s => negb (same_source id s)) l.

(** [source.start(when)] asks the context to play the node from [when]
    on, and the node is started from then on. *)
Definition start (s : AudioBufferSourceNode) (when : Q)
    : M AudioBufferSourceNode :=
  effect (SourceStart (source_id s) when);;
  ret (mkSource (source_id s) (source_duration s) (Some when)).

(** [source.stop()] throws an InvalidStateError on a node that was never
    started. *)
Definition stop (s : AudioBufferSourceNode) : M unit :=
  match source_start s with
  | Some _ => effect (SourceStop (source_id s))
  | None => throw InvalidStateError
  end.

(** An [AudioBuffer].  [ctx.createBuffer(1, length, sampleRate)] throws a
    NotSupportedError when [length] is zero: the Web Audio API asks for a
    buffer of at least one frame. *)
Record AudioBuffer : Type := mkBuffer {
  buffer_length : nat;
  buffer_sampleRate : positive
}.

(** [buffer.duration]: the double [length / sampleRate]. *)
Definition duration (b : AudioBuffer) : Q :=
  binary64 (Z.of_nat (buffer_length b) # buffer_sampleRate b).

Definition createBuffer (length : nat) (sampleRate : positive)
    : Completion AudioBuffer :=
  if Nat.eqb length 0 then Throw NotSupportedError
  else Normal (mkBuffer length sampleRate).

(* ================================================================== *)
(** * The handlers of [SpeakingPractice] *)
(* ================================================================== *)

Definition initAudio : M unit :=
  ctx <- new_object;;
  (* if (ctx.state === 'suspended') await ctx.resume() *)
  modify (set_audioContextRef (Some ctx));;
  modify (set_nextStartTimeRef 0%Q).

(** [processor.onaudioprocess].  The level metric of the visualizer is
    outside the model. *)
Definition onaudioprocess (inputData : list float) : M unit :=
  session <- gets sessionRef;;
  match session with
  | None => ret tt
  | Some p =>
      let pcm16 := floatTo16BitPCM inputData in
      let base64Data := arrayBufferToBase64 (Int16Array_buffer pcm16) in
      promise_then p
        (SendRealtimeInput (js "audio/pcm;rate=16000") base64Data)
  end.

(** Playback scheduling: lines 170-182 of [onmessage], for a buffer of
    the given duration, at [ctx.currentTime = currentTime].  The source is
    created, started at [startTime] and added to the live set; the sum
    that moves the cursor is a sum of doubles. *)
Definition schedulePlayback (currentTime bufferDuration : Q)
    : M AudioBufferSourceNode :=
  id <- new_object;;                      (* ctx.createBufferSource() *)
  let source := mkSource id bufferDuration None in
  next <- gets nextStartTimeRef;;
  let startTime := Qmax next currentTime in
  source <- start source startTime;;
  modify (set_nextStartTimeRef (binary64 (startTime + bufferDuration)));;
  modify (fun w => set_sourcesRef (Set_add source (sourcesRef w)) w);;
  ret source.

(** Part A of [onmessage]: the audio output.  [isMuted] is the value the
    closure captured. *)
Definition handleAudio (isMuted : bool) (currentTime : Q)
    (message : LiveServerMessage) : M unit :=
  ctx <- gets audioContextRef;;
  match audioData message, ctx with
  | Some data, Some _ =>
      if truthy data && negb isMuted then
        audioBytes <- lift (base64ToUint8Array data);;
        float32 <- lift (decodePCM16 audioBytes);;
        buffer <- lift (createBuffer (List.length float32) 24000);;
        _ <- schedulePlayback currentTime (duration buffer);;
        ret tt
      else ret tt
  | _, _ => ret tt
  end.

(** Part B of [onmessage]: the transcriptions. *)
Definition handleTranscripts (message : LiveServerMessage) : M unit :=
  (match inputTranscription message with
   | Some inputTrans =>
       if truthy inputTrans then
         modify (fun w => set_currentInputTransRef
                            (currentInputTransRef w ++ inputTrans) w)
       else ret tt
   | None => ret tt
   end);;
  (match outputTranscription message with
   | Some outputTrans =>
       if truthy outputTrans then
         modify (fun w => set_currentOutputTransRef
                            (currentOutputTransRef w ++ outputTrans) w)
       else ret tt
   | None => ret tt
   end);;
  match turnComplete message with
  | Some true =>
      input <- gets currentInputTransRef;;
      newMessages <-
        (if truthy (trim input) then
           modify (set_currentInputTransRef []);;
           ret [mkChatMessage user (trim input)]
         else ret []);;
      output <- gets currentOutputTransRef;;
      newMessages <-
        (if truthy (trim output) then
           modify (set_currentOutputTransRef []);;
           ret (newMessages ++ [mkChatMessage model (trim output)])
         else ret newMessages);;
      if (0 <? List.length newMessages)%nat then
        modify (fun w => set_messages (messages w ++ newMessages) w)
      else ret tt
  | _ => ret tt
  end.

Definition onmessage (isMuted : bool) (currentTime : Q)
    (message : LiveServerMessage) : M unit :=
  handleAudio isMuted currentTime message;;
  handleTranscripts message.

Definition onopen : M unit :=
  modify (set_isConnected true);;
  modify (set_isProcessing false).

Definition onclose : M unit :=
  modify (set_isConnected false).

Definition onerror : M unit :=
  effect ConsoleError;;
  modify (set_isConnected false);;
  modify (set_isProcessing false);;
  effect Alert.

(** [createLiveSession] hands the callbacks to [ai.live.connect] and
    returns its promise. *)
Definition createLiveSession : M nat := new_promise.

(** [connect]; [mic] tells whether [getUserMedia] resolves or rejects.
    The function is taken in one piece, its two awaits included. *)
Definition connect (mic : bool) : M unit :=
  modify (set_isProcessing true);;
  modify (set_messages []);;
  try_catch
    (initAudio;;
     stream <- (if mic then new_object else throw NotAllowedError);;
     modify (set_streamRef (Some stream));;
     inputCtx <- new_object;;
     source <- new_object;;
     processor <- new_object;;
     modify (set_inputSourceRef (Some source));;
     modify (set_processorRef (Some processor));;
     p <- createLiveSession;;
     modify (set_sessionRef (Some p)))
    (effect ConsoleError;;
     modify (set_isProcessing false);;
     effect Alert).

Definition disconnect : M unit :=
  session <- gets sessionRef;;
  (match session with
   | Some p =>
       promise_then p CloseSession;;
       modify (set_sessionRef None)
   | None => ret tt
   end);;
  stream <- gets streamRef;;
  (match stream with
   | Some s =>
       effect (TrackStop s);;
       modify (set_streamRef None)
   | None => ret tt
   end);;
  processor <- gets processorRef;;
  (match processor with
   | Some n =>
       effect (NodeDisconnect n);;
       modify (set_processorRef None)
   | None => ret tt
   end);;
  inputSource <- gets inputSourceRef;;
  (match inputSource with
   | Some n =>
       effect (NodeDisconnect n);;
       modify (set_inputSourceRef None)
   | None => ret tt
   end);;
  ctx <- gets audioContextRef;;
  (match ctx with
   | Some c =>
       effect (ContextClose c);;
       modify (set_audioContextRef None)
   | None => ret tt
   end);;
  sources <- gets sourcesRef;;
  forEach stop sources;;
  modify (set_sourcesRef []);;
  modify (set_isConnected false).

(** ** The event loop *)

(** What can happen to the component: the buttons of the user, the
    callbacks of the capture node, of the session and of the playback
    sources, and the cleanup at unmount.  A message comes with the value of
    [isMuted] that the closure of [onmessage] captured and with the time
    [ctx.currentTime] shows when the handler reads it. *)
Inductive Event : Type :=
| Connect (mic : bool)                  (* the Start button *)
| AudioProcess (inputData : list float) (* processor.onaudioprocess *)
| Open (p : nat)                        (* the handshake of p succeeds *)
| Reject (p : nat)                      (* the promise p is rejected *)
| Message (isMuted : bool) (currentTime : Q) (message : LiveServerMessage)
| Close                                 (* callbacks.onclose *)
| Error                                 (* callbacks.onerror *)
| Ended (source : nat)                  (* source.onended *)
| Disconnect                            (* the cleanup of useEffect *)
| Finish                                (* the Finish button *)
| Analysed (ok : bool)                  (* the analysis request settles *)
| NewSession.                           (* the Start New Session button *)

(** The handshake of session [p] completes: the promise is fulfilled, its
    queued reactions become microtasks, and [onopen] runs. *)
Definition session_opens (p : nat) : M unit :=
  ps <- gets promises;;
  match nth_error ps p with
  | Some (Pending rs) =>
      onopen;;
      modify (set_promises (update_nth p Fulfilled ps));;
      modify (fun w => set_microtasks
                         (microtasks w ++ map (pair p) rs) w)
  | _ => ret tt
  end.

(** The promise of session [p] is rejected: each queued reaction leaves
    an unhandled rejection. *)
Definition session_rejects (p : nat) : M unit :=
  ps <- gets promises;;
  match nth_error ps p with
  | Some (Pending rs) =>
      modify (set_promises (update_nth p Rejected ps));;
      forEach (fun _ => effect (UnhandledRejection p)) rs
  | _ => ret tt
  end.

(** [handleFinish] up to its [await], and from there on: [ok] tells
    whether [analyzeSpeakingSession] resolved or rejected.  The analysis
    shown ([setAnalysis]) is outside the model. *)
Definition handleFinish : M unit :=
  disconnect;;
  modify (set_isProcessing true).

Definition handleFinish_settled (ok : bool) : M unit :=
  (if ok then ret tt (* setAnalysis(result) *) else effect Alert);;
  modify (set_isProcessing false).

Definition handler (e : Event) : M unit :=
  match e with
  | Connect mic => connect mic
  | AudioProcess inputData => onaudioprocess inputData
  | Open p => session_opens p
  | Reject p => session_rejects p
  | Message isMuted currentTime message =>
      onmessage isMuted currentTime message
  | Close => onclose
  | Error => onerror
  | Ended id =>
      modify (fun w => set_sourcesRef (Set_delete id (sourcesRef w)) w)
  | Disconnect => disconnect
  | Finish => handleFinish
  | Analysed ok => handleFinish_settled ok
  | NewSession => modify (set_messages [])
  end.

(** One turn of the event loop: the handler, whose exception (if any) is
    not propagated, then the microtasks. *)
Definition dispatch (w : World) (e : Event) : World :=
  drain (snd (handler e w)).

Definition run (events : list Event) (w : World) : World :=
  fold_left dispatch events w.

(* ================================================================== *)
(** * Auxiliary definitions of the proofs *)
(* ================================================================== *)

(** The clamp [Math.max(-1, Math.min(1, x))] of a finite value. *)
Definition clamp (q : Q) : Q := Qmax (-1) (Qmin 1 q).

(** The 16-bit value stored for a clamped sample. *)
Definition quantize (s : Q) : Z :=
  if Qle_bool 0 s then Qfloor (s * 32767)%Q else Qceiling (s * 32768)%Q.

(** A sequence of playback enqueue operations, each given by the clock
    time at the call and the duration of its chunk; the result lists the
    scheduled sources in order. *)
Fixpoint enqueueAll (ops : list (Q * Q)) : M (list AudioBufferSourceNode) :=
  match ops with
  | [] => ret []
  | (currentTime, bufferDuration) :: rest =>
      (source <- schedulePlayback currentTime bufferDuration;;
       sources <- enqueueAll rest;;
       ret (source :: sources))%m
  end.

(** The interval a started source plays in. *)
Definition startTime (s : AudioBufferSourceNode) : Q :=
  match source_start s with Some t => t | None => 0%Q end.

(** The end of the interval, as the component computes it: the double
    [startTime + buffer.duration]. *)
Definition endTime (s : AudioBufferSourceNode) : Q :=
  binary64 (startTime s + source_duration s).

(** The call of [start] that started a source. *)
Definition start_call (s : AudioBufferSourceNode) : Effect :=
  SourceStart (source_id s) (startTime s).

(** The schedule: the cursor, the live set, and the calls of [start] and
    [stop] among the effects. *)
Definition is_playback (e : Effect) : bool :=
  match e with
  | SourceStart _ _ | SourceStop _ => true
  | _ => false
  end.

Definition schedule (w : World)
    : Q * list AudioBufferSourceNode * list Effect :=
  (nextStartTimeRef w, sourcesRef w, filter is_playback (trace w)).

(** The text a message adds to a transcript buffer, and whether it marks
    the end of a turn. *)
Definition delta_text (o : option jsstring) : jsstring :=
  match o with Some d => d | None => [] end.

Definition is_true (o : option bool) : bool :=
  match o with Some true => true | _ => false end.

(** What a commit makes of a buffer: the message it pushes, if any, and
    the content it leaves. *)
Definition committed (r : Role) (content : jsstring) : list ChatMessage :=
  if truthy (trim content) then [mkChatMessage r (trim content)] else [].

Definition after_commit (content : jsstring) : jsstring :=
  if truthy (trim content) then [] else content.

(** The fields of the world that the transcript assembler leaves alone. *)
Definition outside_transcripts (w : World) :=
  (isConnected w, isProcessing w, sessionRef w, audioContextRef w,
   nextStartTimeRef w, sourcesRef w, processorRef w, inputSourceRef w,
   streamRef w, promises w, microtasks w, fresh w, trace w).

(** The inbound events of the transcript assembler, as messages. *)
Definition TurnComplete : LiveServerMessage :=
  mkMessage None None None (Some true).

Definition InputTranscriptDelta (t : jsstring) : LiveServerMessage :=
  mkMessage None (Some t) None None.

Definition OutputTranscriptDelta (t : jsstring) : LiveServerMessage :=
  mkMessage None None (Some t) None.

(** A text that is not empty and neither begins nor ends with a
    whitespace code unit. *)
Definition well_trimmed (s : jsstring) : Prop :=
  s <> [] /\
  (forall c r, s = c :: r -> isWhiteSpace c = false) /\
  (forall c r, s = (r ++ [c])%list -> isWhiteSpace c = false).

(** A source on which [start] was called. *)
Definition started (s : AudioBufferSourceNode) : Prop :=
  source_start s <> None.

(** The effect of a reaction run on session [p]. *)
Definition reaction_effect (t : nat * Reaction) : Effect :=
  match snd t with
  | SendRealtimeInput mimeType data => SessionSend (fst t) mimeType data
  | CloseSession => SessionClosed (fst t)
  end.

(** A computation preserves a property of the world. *)
Definition preserves {A} (P : World -> Prop) (m : M A) : Prop :=
  forall w, P w -> P (snd (m w)).

(** Whether an event brings text to the input or to the output buffer. *)
Definition input_delta (e : Event) : bool :=
  match e with
  | Message _ _ message => truthy_opt (inputTranscription message)
  | _ => false
  end.

Definition output_delta (e : Event) : bool :=
  match e with
  | Message _ _ message => truthy_opt (outputTranscription message)
  | _ => false
  end.

(** The call of [stop] on a source, as an effect. *)
Definition stop_effect (s : AudioBufferSourceNode) : Effect :=
  SourceStop (source_id s).

(** Every reference of the component to a resource is null and the live
    set is empty. *)
Definition released (w : World) : Prop :=
  sessionRef w = None /\ streamRef w = None /\ processorRef w = None /\
  inputSourceRef w = None /\ audioContextRef w = None /\ sourcesRef w = [].

(** Total correctness of a computation: from a world that satisfies [P]
    it returns normally, with a value and a world that satisfy [Q]. *)
Definition hoare {A} (P : World -> Prop) (m : M A)
    (Q : A -> World -> Prop) : Prop :=
  forall w, P w -> exists a w', m w = (Normal a, w') /\ Q a w'.

(** The stages of [disconnect]: the live set, the cursor and the calls of
    [start] and [stop] are still as they were, and the first [k]
    references are null. *)
Definition teardown_stage (S0 : list AudioBufferSourceNode) (N0 : Q)
    (T0 : list Effect) (k : nat) (w : World) : Prop :=
  sourcesRef w = S0 /\ nextStartTimeRef w = N0 /\
  filter is_playback (trace w) = T0 /\
  ((1 <= k)%nat -> sessionRef w = None) /\
  ((2 <= k)%nat -> streamRef w = None) /\
  ((3 <= k)%nat -> processorRef w = None) /\
  ((4 <= k)%nat -> inputSourceRef w = None) /\
  ((5 <= k)%nat -> audioContextRef w = None).

(** The reaction [onaudioprocess] chains on the session promise for a
    frame. *)
Definition frame_reaction (inputData : list float) : Reaction :=
  SendRealtimeInput (js "audio/pcm;rate=16000")
    (arrayBufferToBase64 (Int16Array_buffer (floatTo16BitPCM inputData))).

(** A message that carries only an audio payload. *)
Definition AudioChunk (data : jsstring) : LiveServerMessage :=
  mkMessage (Some data) None None None.

(* ================================================================== *)
(** * Auxiliary definitions: the rest of the component *)
(* ================================================================== *)

(** A byte of a [Uint8Array]. *)
Definition is_byte (b : Z) : Prop := 0 <= b < 256.

(** The sextets [btoa] writes for a binary string, and the padding it
    appends. *)
Fixpoint btoa_sextets (binary : jsstring) : list Z :=
  match binary with
  | a :: b :: c :: rest =>
      let n := (a * 256 + b) * 256 + c in
      (n / 262144) :: ((n / 4096) mod 64) :: ((n / 64) mod 64) :: (n mod 64)
        :: btoa_sextets rest
  | [a; b] =>
      let n := (a * 256 + b) * 4 in
      [n / 4096; (n / 64) mod 64; n mod 64]
  | [a] =>
      let n := a * 16 in
      [n / 64; n mod 64]
  | [] => []
  end.

Fixpoint btoa_padding (binary : jsstring) : jsstring :=
  match binary with
  | _ :: _ :: _ :: rest => btoa_padding rest
  | [_; _] => [61]
  | [_] => [61; 61]
  | [] => []
  end.

(** The choice [strip_padding] makes on the reversed string. *)
Definition unpad (reversed s : jsstring) : jsstring :=
  match reversed with
  | 61 :: 61 :: r => rev r
  | 61 :: r => rev r
  | _ => s
  end.

(** A steady stream of chunks: each one is enqueued no later than the
    end the component computed for the chunk before it. *)
Fixpoint steady (cursor : Q) (ops : list (Q * Q)) : Prop :=
  match ops with
  | [] => True
  | (currentTime, d) :: rest =>
      (currentTime <= cursor)%Q /\ steady (binary64 (cursor + d)) rest
  end.

(** Sources that play back to back from a given time on: each one starts
    at the end computed for the one before it. *)
Fixpoint back_to_back (from : Q) (sources : list AudioBufferSourceNode)
    : Prop :=
  match sources with
  | [] => True
  | s :: rest => startTime s = from /\ back_to_back (endTime s) rest
  end.

(** The durations added to the cursor one by one, in doubles. *)
Fixpoint advance (cursor : Q) (ops : list (Q * Q)) : Q :=
  match ops with
  | [] => cursor
  | (_, d) :: rest => advance (binary64 (cursor + d)) rest
  end.

(** The silence between the exact end of a source and a start time: zero
    when the next source takes over on the spot, negative when it starts
    early. *)
Definition gap_after (s : AudioBufferSourceNode) (next : Q) : Q :=
  (next - (startTime s + source_duration s))%Q.

(** A message of transcript deltas only: no audio, no end of turn. *)
Definition is_delta_message (m : LiveServerMessage) : Prop :=
  audioData m = None /\ is_true (turnComplete m) = false.

(** The input and the output text a list of messages brings, in arrival
    order. *)
Definition input_text (ms : list LiveServerMessage) : jsstring :=
  List.concat (map (fun m => delta_text (inputTranscription m)) ms).

Definition output_text (ms : list LiveServerMessage) : jsstring :=
  List.concat (map (fun m => delta_text (outputTranscription m)) ms).








(** The call of [session.sendRealtimeInput] for a frame. *)
Definition frame_sent (p : nat) (inputData : list float) : Effect :=
  reaction_effect (p, frame_reaction inputData).

(** The calls of [start] among the effects, and the events that call
    [connect]. *)
Definition is_start (e : Effect) : bool :=
  match e with SourceStart _ _ => true | _ => false end.



(** What is asked of a session, [sendRealtimeInput] or [close], among
    the effects. *)
Definition is_session_effect (e : Effect) : bool :=
  match e with
  | SessionSend _ _ _ | SessionClosed _ => true
  | _ => false
  end.

(** The calls of [close] on an output context among the effects. *)
Definition is_context_close (e : Effect) : bool :=
  match e with ContextClose _ => true | _ => false end.

(** The component holds no session and no capture resource, and nothing
    is live. *)
Definition idle (w : World) : Prop :=
  sessionRef w = None /\ streamRef w = None /\ processorRef w = None /\
  inputSourceRef w = None /\ sourcesRef w = [].

(* ================================================================== *)
(** * The analysis service: the text of the response *)
(* ================================================================== *)

(** [s.startsWith(p)] and [s.includes(p)]. *)
Fixpoint startsWith (p s : jsstring) : bool :=
  match p, s with
  | [], _ => true
  | a :: p', c :: s' => (a =? c) && startsWith p' s'
  | _ :: _, [] => false
  end.

Fixpoint includes (p s : jsstring) : bool :=
  startsWith p s
  || match s with [] => false | _ :: r => includes p r end.

Definition backtick : Z := 96.
Definition line_feed : Z := 10.

(** The two alternatives of the pattern [/```json\n?|```/g]. *)
Definition fence : jsstring := [backtick; backtick; backtick].
Definition fence_json : jsstring := fence ++ js "json".

(** [jsonText.replace(/```json\n?|```/g, '')].  The matches are found
    from left to right and do not overlap; at each position the first
    alternative is tried first, and takes the line feed if there is one.
    [skip] counts the code units of the current match still to drop. *)
Fixpoint replace_fences_from (skip : nat) (s : jsstring) : jsstring :=
  match s with
  | [] => []
  | c :: r =>
      match skip with
      | S k => replace_fences_from k r
      | O =>
          if startsWith (fence_json ++ [line_feed]) s
          then replace_fences_from 7 r
          else if startsWith fence_json s then replace_fences_from 6 r
          else if startsWith fence s then replace_fences_from 2 r
          else c :: replace_fences_from 0 r
      end
  end.

Definition replace_fences (s : jsstring) : jsstring :=
  replace_fences_from 0 s.

(** The text handed to [JSON.parse] by [analyzeSpeakingSession] (and, by
    the same line, by [analyzeEssay] and [translateWithNuance]). *)
Definition cleanJsonText (jsonText : jsstring) : jsstring :=
  trim (replace_fences jsonText).


(* ================================================================== *)
(** * The PCM codec *)
(* ================================================================== *)

(** The text-safe encoding on a few inputs. *)

Example atob_AQID : atob (js "AQID") = Normal [1; 2; 3].
Proof. reflexivity. Qed.

Example atob_padded : atob (js "AQ==") = Normal [1].
Proof. reflexivity. Qed.

Example atob_blank : atob (js " ") = Normal [].
Proof. reflexivity. Qed.

Example atob_malformed : atob (js "A") = Throw InvalidCharacterError.
Proof. reflexivity. Qed.

Example btoa_bytes : btoa [1; 2; 3; 255] = js "AQID/w==".
Proof. reflexivity. Qed.

Example base64_there_and_back :
  base64ToUint8Array (arrayBufferToBase64 [0; 128; 255; 7; 42])
  = Normal [0; 128; 255; 7; 42].
Proof. reflexivity. Qed.

Section Codec.

Local Open Scope Q_scope.

Lemma wrap16_small (n : Z) :
  (-32768 <= n < 32768)%Z -> wrap16 n = n.
Proof.
  intros H. unfold wrap16.
  destruct (Z_lt_le_dec n 0) as [Hneg | Hpos].
  - replace (n mod 65536)%Z with (n + 65536)%Z.
    + destruct (Z.ltb_spec (n + 65536) 32768); lia.
    + apply Z.mod_unique with (q := (-1)%Z); lia.
  - rewrite Z.mod_small by lia.
    destruct (Z.ltb_spec n 32768); lia.
Qed.

Lemma wrap16_range (n : Z) : (-32768 <= wrap16 n < 32768)%Z.
Proof.
  unfold wrap16.
  pose proof (Z.mod_pos_bound n 65536 eq_refl).
  destruct (Z.ltb_spec (n mod 65536) 32768); lia.
Qed.

Lemma clamp_bounds (q : Q) : -1 <= clamp q <= 1.
Proof.
  unfold clamp. split.
  - apply Q.le_max_l.
  - apply Q.max_lub; [lra | apply Q.le_min_l].
Qed.

Lemma clamp_inside (q : Q) : -1 <= q <= 1 -> clamp q == q.
Proof.
  intros [Hlo Hhi]. unfold clamp.
  rewrite (Q.min_r 1 q) by assumption.
  apply Q.max_r. assumption.
Qed.

Lemma clamp_above (q : Q) : 1 < q -> clamp q == 1.
Proof.
  intros H. unfold clamp.
  rewrite (Q.min_l 1 q) by lra.
  apply Q.max_r. lra.
Qed.

Lemma clamp_below (q : Q) : q < -1 -> clamp q == -1.
Proof.
  intros H. unfold clamp.
  rewrite (Q.min_r 1 q) by lra.
  apply Q.max_l. lra.
Qed.

Lemma Qle_bool_false (x y : Q) : Qle_bool x y = false -> y < x.
Proof.
  intros H. apply Qnot_le_lt. intros Hle.
  apply Qle_bool_iff in Hle. congruence.
Qed.

Lemma quantize_comp (s t : Q) : s == t -> quantize s = quantize t.
Proof.
  intros E. unfold quantize.
  assert (Hb : Qle_bool 0 s = Qle_bool 0 t).
  { destruct (Qle_bool 0 s) eqn:Hs, (Qle_bool 0 t) eqn:Ht; try reflexivity.
    - apply Qle_bool_iff in Hs. apply Qle_bool_false in Ht. lra.
    - apply Qle_bool_iff in Ht. apply Qle_bool_false in Hs. lra. }
  rewrite Hb. destruct (Qle_bool 0 t).
  - apply Qfloor_comp. rewrite E. reflexivity.
  - apply Qceiling_comp. rewrite E. reflexivity.
Qed.

Lemma quantize_range (s : Q) :
  -1 <= s <= 1 -> (-32768 <= quantize s <= 32767)%Z.
Proof.
  intros [Hlo Hhi]. unfold quantize.
  destruct (Qle_bool 0 s) eqn:Hs.
  - apply Qle_bool_iff in Hs.
    assert (H0 : (Qfloor 0 <= Qfloor (s * 32767))%Z)
      by (apply Qfloor_resp_le; lra).
    assert (H1 : (Qfloor (s * 32767) <= Qfloor (inject_Z 32767))%Z)
      by (apply Qfloor_resp_le; unfold inject_Z; lra).
    rewrite Qfloor_Z in H1. change (Qfloor 0) with 0%Z in H0. lia.
  - apply Qle_bool_false in Hs.
    assert (H0 : (Qceiling (inject_Z (-32768)) <= Qceiling (s * 32768))%Z)
      by (apply Qceiling_resp_le; unfold inject_Z; lra).
    assert (H1 : (Qceiling (s * 32768) <= Qceiling 0)%Z)
      by (apply Qceiling_resp_le; lra).
    rewrite Qceiling_Z in H0. change (Qceiling 0) with 0%Z in H1. lia.
Qed.

(** [floatTo16BitPCM] on a finite sample: clamp, then quantize. *)
Lemma floatTo16BitPCM_sample_Fin (q : Q) :
  floatTo16BitPCM_sample (Fin q) = quantize (clamp q).
Proof.
  unfold floatTo16BitPCM_sample. cbn [Math_min Math_max].
  fold (clamp q).
  pose proof (clamp_bounds q) as Hb.
  pose proof (quantize_range (clamp q) Hb) as Hr.
  unfold quantize in *. cbn [lt0].
  destruct (Qle_bool 0 (clamp q)) eqn:Hs; cbn [negb mulc ToInt16].
  - apply Qle_bool_iff in Hs.
    assert (Ht : truncate (clamp q * inject_Z 32767) = Qfloor (clamp q * 32767)).
    { unfold truncate.
      destruct (Qle_bool 0 (clamp q * inject_Z 32767)) eqn:Hp; [reflexivity|].
      apply Qle_bool_false in Hp. unfold inject_Z in Hp. lra. }
    rewrite Ht. apply wrap16_small. lia.
  - apply Qle_bool_false in Hs.
    assert (Ht : truncate (clamp q * inject_Z 32768) = Qceiling (clamp q * 32768)).
    { unfold truncate.
      destruct (Qle_bool 0 (clamp q * inject_Z 32768)) eqn:Hp; [|reflexivity].
      apply Qle_bool_iff in Hp. unfold inject_Z in Hp. lra. }
    rewrite Ht. apply wrap16_small. lia.
Qed.

Lemma floatTo16BitPCM_sample_range (x : float) :
  (-32768 <= floatTo16BitPCM_sample x <= 32767)%Z.
Proof.
  destruct x as [ | | | q];
    [vm_compute; split; discriminate .. | ].
  rewrite floatTo16BitPCM_sample_Fin.
  apply quantize_range, clamp_bounds.
Qed.

(** The bytes of an [Int16Array] read back through a 16-bit view. *)
Lemma int16_elements_buffer (a : list Z) :
  Forall (fun v => (-32768 <= v <= 32767)%Z) a ->
  int16_elements (Int16Array_buffer a) = a.
Proof.
  induction 1 as [ | v a Hv _ IH]; [reflexivity|].
  cbn [Int16Array_buffer flat_map app int16_elements].
  fold (Int16Array_buffer a). rewrite IH. f_equal.
  assert (E : (v mod 256 + 256 * ((v / 256) mod 256) = v mod 65536)%Z).
  { rewrite (Z.mul_comm 256).
    change 65536%Z with (256 * 256)%Z.
    rewrite Z.rem_mul_r by lia. lia. }
  rewrite E. unfold wrap16. rewrite Z.mod_mod by lia.
  apply wrap16_small. lia.
Qed.

Lemma Int16Array_buffer_length (a : list Z) :
  List.length (Int16Array_buffer a) = (2 * List.length a)%nat.
Proof.
  induction a as [ | v a IH]; [reflexivity|].
  cbn [Int16Array_buffer flat_map app List.length].
  fold (Int16Array_buffer a). rewrite IH. lia.
Qed.

Lemma Int16Array_roundtrip (a : list Z) :
  Forall (fun v => (-32768 <= v <= 32767)%Z) a ->
  Int16Array_of_buffer (Int16Array_buffer a) = Normal a.
Proof.
  intros H. unfold Int16Array_of_buffer.
  rewrite Int16Array_buffer_length.
  replace (Nat.even (2 * List.length a)) with true.
  - rewrite int16_elements_buffer by assumption. reflexivity.
  - symmetry. apply Nat.even_spec. exists (List.length a). reflexivity.
Qed.

Lemma int16_elements_length (bytes : list Z) :
  List.length (int16_elements bytes) = Nat.div2 (List.length bytes).
Proof.
  assert (H : forall n (l : list Z), (List.length l <= n)%nat ->
              List.length (int16_elements l) = Nat.div2 (List.length l)).
  { induction n as [ | n IH]; intros l Hl.
    - destruct l; [reflexivity | cbn in Hl; lia].
    - destruct l as [ | b0 [ | b1 rest]]; try reflexivity.
      cbn [int16_elements List.length Nat.div2]. f_equal.
      apply IH. cbn in Hl. lia. }
  apply (H (List.length bytes)). lia.
Qed.

(** ** Clamping *)

Lemma floatTo16BitPCM_sample_above (q : Q) :
  1 < q -> floatTo16BitPCM_sample (Fin q) = 32767%Z.
Proof.
  intros H. rewrite floatTo16BitPCM_sample_Fin.
  rewrite (quantize_comp _ 1 (clamp_above q H)). reflexivity.
Qed.

Lemma floatTo16BitPCM_sample_below (q : Q) :
  q < -1 -> floatTo16BitPCM_sample (Fin q) = (-32768)%Z.
Proof.
  intros H. rewrite floatTo16BitPCM_sample_Fin.
  rewrite (quantize_comp _ (-1) (clamp_below q H)). reflexivity.
Qed.

(** C8.  [floatTo16BitPCM] maps the input [2.0, -2.0] to [32767, -32768];
    every sample above 1, positive infinity included, is stored as 32767
    and every sample below -1, negative infinity included, as -32768; and
    whatever the input, the stored value lies in the signed 16-bit range,
    so that the store into the [Int16Array] never wraps. *)
Theorem floatTo16BitPCM_clamps :
  floatTo16BitPCM [Fin 2; Fin (-2)] = [32767; -32768]%Z /\
  (forall q : Q, 1 < q -> floatTo16BitPCM_sample (Fin q) = 32767%Z) /\
  floatTo16BitPCM_sample PInf = 32767%Z /\
  (forall q : Q, q < -1 -> floatTo16BitPCM_sample (Fin q) = (-32768)%Z) /\
  floatTo16BitPCM_sample NInf = (-32768)%Z /\
  (forall x : float, (-32768 <= floatTo16BitPCM_sample x <= 32767)%Z) /\
  (forall input : list float,
     List.length (floatTo16BitPCM input) = List.length input).
Proof.
  split; [reflexivity|].
  split; [exact floatTo16BitPCM_sample_above|].
  split; [reflexivity|].
  split; [exact floatTo16BitPCM_sample_below|].
  split; [reflexivity|].
  split; [exact floatTo16BitPCM_sample_range|].
  intros input. apply length_map.
Qed.

Lemma floatTo16BitPCM_clamps_witness :
  1 < 3 # 2 /\ floatTo16BitPCM_sample (Fin (3 # 2)) = 32767%Z /\
  -7 < -1 /\ floatTo16BitPCM_sample (Fin (-7)) = (-32768)%Z.
Proof.
  destruct floatTo16BitPCM_clamps as (_ & Habove & _ & Hbelow & _).
  assert (H1 : 1 < 3 # 2) by reflexivity.
  assert (H2 : -7 < -1) by reflexivity.
  exact (conj H1 (conj (Habove (3 # 2) H1) (conj H2 (Hbelow (-7) H2)))).
Defined.

(** ** Round trip *)

(** The error of one sample through the encoder and the decoder. *)
Lemma quantize_error (q : Q) :
  -1 <= q <= 1 ->
  Qabs ((quantize q # 32768) - q) < 2 # 32768 /\
  (q <= 0 -> Qabs ((quantize q # 32768) - q) < 1 # 32768).
Proof.
  intros [Hlo Hhi].
  assert (E : (quantize q # 32768) - q
              == (inject_Z (quantize q) - 32768 * q) * (1 # 32768)).
  { rewrite (Qmake_Qdiv (quantize q) 32768). field. }
  rewrite E. clear E.
  unfold quantize.
  destruct (Qle_bool 0 q) eqn:Hs.
  - apply Qle_bool_iff in Hs.
    pose proof (Qfloor_le (q * 32767)) as Hf1.
    pose proof (Qlt_floor (q * 32767)) as Hf2.
    rewrite inject_Z_plus in Hf2. change (inject_Z 1) with 1 in Hf2.
    set (n := inject_Z (Qfloor (q * 32767))) in *.
    split; [|intros Hq0]; apply Qabs_Qlt_condition; split; lra.
  - apply Qle_bool_false in Hs.
    pose proof (Qle_ceiling (q * 32768)) as Hc1.
    pose proof (Qceiling_lt (q * 32768)) as Hc2.
    unfold Z.sub in Hc2.
    rewrite inject_Z_plus in Hc2. change (inject_Z (Z.opp 1)) with (-1) in Hc2.
    set (n := inject_Z (Qceiling (q * 32768))) in *.
    split; [|intros _]; apply Qabs_Qlt_condition; split; lra.
Qed.

Lemma floatTo16BitPCM_in_range (input : list float) :
  Forall (fun v => (-32768 <= v <= 32767)%Z) (floatTo16BitPCM input).
Proof.
  unfold floatTo16BitPCM. apply Forall_map, Forall_forall.
  intros x _. apply floatTo16BitPCM_sample_range.
Qed.

(** The samples the decoder returns for the encoding of finite samples. *)
Lemma decode_encode_samples (x : list Q) :
  decodePCM16 (Int16Array_buffer (floatTo16BitPCM (map Fin x)))
  = Normal (map (fun q => Fin (quantize (clamp q) # 32768)) x).
Proof.
  unfold decodePCM16.
  rewrite Int16Array_roundtrip by apply floatTo16BitPCM_in_range.
  unfold pcm16_to_float32, floatTo16BitPCM. rewrite !map_map.
  f_equal. apply map_ext. intros q.
  rewrite floatTo16BitPCM_sample_Fin. reflexivity.
Qed.

(** C3, as the code has it.  For every array [x] of samples in [-1, 1],
    decoding the PCM16 encoding of [x] succeeds and yields an array of the
    same length whose i-th element differs from [x[i]] by less than two
    quantization steps, 2/32768, and by less than one step where [x[i]] is
    not positive. *)
Theorem pcm16_roundtrip_within_two_steps (x : list Q) :
  Forall (fun q => -1 <= q <= 1) x ->
  exists y : list Q,
    decodePCM16 (Int16Array_buffer (floatTo16BitPCM (map Fin x)))
    = Normal (map Fin y) /\
    List.length y = List.length x /\
    Forall2 (fun q r => Qabs (r - q) < 2 # 32768 /\
                        (q <= 0 -> Qabs (r - q) < 1 # 32768)) x y.
Proof.
  intros Hx.
  exists (map (fun q => quantize (clamp q) # 32768) x).
  split; [|split].
  - rewrite decode_encode_samples, map_map. reflexivity.
  - apply length_map.
  - induction Hx as [ | q x Hq _ IH]; cbn [map]; constructor; [|exact IH].
    rewrite (quantize_comp _ q (clamp_inside q Hq)).
    apply quantize_error. exact Hq.
Qed.

Lemma pcm16_roundtrip_within_two_steps_witness :
  exists y : list Q,
    decodePCM16 (Int16Array_buffer
                   (floatTo16BitPCM (map Fin [1 # 2; -1 # 3; 1; -1; 0])))
    = Normal (map Fin y) /\
    List.length y = 5%nat /\
    Forall2 (fun q r => Qabs (r - q) < 2 # 32768 /\
                        (q <= 0 -> Qabs (r - q) < 1 # 32768))
            [1 # 2; -1 # 3; 1; -1; 0] y.
Proof.
  apply (pcm16_roundtrip_within_two_steps [1 # 2; -1 # 3; 1; -1; 0]).
  repeat constructor; discriminate.
Defined.

(** The sample 65535/65536 is encoded as 32766 and decoded as 32766/32768:
    one and a half quantization steps below the sample. *)
Lemma pcm16_roundtrip_exceeds_one_step :
  decodePCM16 (Int16Array_buffer (floatTo16BitPCM [Fin (65535 # 65536)]))
  = Normal [Fin (32766 # 32768)] /\
  -1 <= 65535 # 65536 <= 1 /\
  ~ Qabs ((32766 # 32768) - (65535 # 65536)) <= 1 # 32768.
Proof.
  split; [reflexivity|].
  split; [split; discriminate|].
  intros H. vm_compute in H. apply H. reflexivity.
Qed.

(** ** Decoding an arbitrary byte sequence *)

(** C4, as the code has it.  Decoding succeeds exactly on the byte
    sequences of even length, and then returns length/2 samples; on every
    byte sequence of odd length the 16-bit view cannot be built: the
    decoder throws a RangeError and returns no sample. *)
Theorem decodePCM16_even_lengths_only (audioBytes : list Z) :
  (Nat.even (List.length audioBytes) = true ->
   exists samples : list float,
     decodePCM16 audioBytes = Normal samples /\
     List.length samples = Nat.div2 (List.length audioBytes)) /\
  (Nat.even (List.length audioBytes) = false ->
   decodePCM16 audioBytes = Throw RangeError).
Proof.
  unfold decodePCM16, Int16Array_of_buffer. split; intros H; rewrite H.
  - eexists. split; [reflexivity|].
    unfold pcm16_to_float32. rewrite length_map.
    apply int16_elements_length.
  - reflexivity.
Qed.

Lemma decodePCM16_even_lengths_only_witness :
  (exists samples : list float,
     decodePCM16 [0; 128; 255; 127]%Z = Normal samples /\
     List.length samples = 2%nat) /\
  decodePCM16 [0; 128; 255]%Z = Throw RangeError.
Proof.
  split.
  - apply (proj1 (decodePCM16_even_lengths_only [0; 128; 255; 127]%Z)).
    reflexivity.
  - apply (proj2 (decodePCM16_even_lengths_only [0; 128; 255]%Z)).
    reflexivity.
Defined.

(** The payload [AQID] carries three bytes; decoding them does not return
    the one sample of their first two bytes, it throws. *)
Lemma decodePCM16_odd_length_throws :
  base64ToUint8Array (js "AQID") = Normal [1; 2; 3]%Z /\
  Nat.even (List.length [1; 2; 3]%Z) = false /\
  decodePCM16 [1; 2; 3]%Z = Throw RangeError /\
  ~ (exists samples : list float,
       decodePCM16 [1; 2; 3]%Z = Normal samples /\
       List.length samples = Nat.div2 (List.length [1; 2; 3]%Z)).
Proof.
  split; [reflexivity|]. split; [reflexivity|]. split; [reflexivity|].
  intros (samples & H & _). discriminate H.
Qed.

End Codec.

(* ================================================================== *)
(** * The arithmetic of doubles *)
(* ================================================================== *)

Section Binary64.

Local Open Scope Q_scope.

Lemma pow2_pos (k : Z) : 0 < 2 ^ k.
Proof. apply Qpower_0_lt. reflexivity. Qed.

Lemma pow2_add (a b : Z) : 2 ^ (a + b) == 2 ^ a * 2 ^ b.
Proof. apply Qpower_plus. discriminate. Qed.

Lemma pow2_le (a b : Z) : (a <= b)%Z -> 2 ^ a <= 2 ^ b.
Proof. intros H. apply Qpower_le_compat_l; [exact H | discriminate]. Qed.

Lemma pow2_lt (a b : Z) : (a < b)%Z -> 2 ^ a < 2 ^ b.
Proof. intros H. apply Qpower_lt_compat_l; [exact H | reflexivity]. Qed.

Lemma pow2_Z (k : Z) : (0 <= k)%Z -> 2 ^ k == inject_Z (2 ^ k).
Proof. intros H. symmetry. apply (Zpower_Qpower 2 k H). Qed.

Lemma pow2_div (x : Q) (a b : Z) : x / 2 ^ a * 2 ^ (a - b) == x / 2 ^ b.
Proof.
  assert (E : 2 ^ a == 2 ^ (a - b) * 2 ^ b).
  { rewrite <- pow2_add. apply Qpower_comp; [reflexivity | lia]. }
  pose proof (pow2_pos a). pose proof (pow2_pos b).
  pose proof (pow2_pos (a - b)).
  rewrite E at 1. field. split; lra.
Qed.

(** ** The exponent *)

Lemma Qlog2_spec (x : Q) :
  0 < x -> 2 ^ Qlog2 x <= x /\ x < 2 ^ (Qlog2 x + 1).
Proof.
  intros Hx. destruct x as [n d]. unfold Qlog2. cbn [Qnum Qden].
  assert (Hn : (0 < n)%Z).
  { unfold Qlt in Hx. cbn in Hx. lia. }
  set (a := Z.log2 n). set (b := Z.log2 (Z.pos d)).
  assert (Ha : (2 ^ a <= n < 2 ^ (a + 1))%Z).
  { pose proof (Z.log2_spec n Hn). subst a.
    replace (Z.log2 n + 1)%Z with (Z.succ (Z.log2 n)) by lia. lia. }
  assert (Hb : (2 ^ b <= Z.pos d < 2 ^ (b + 1))%Z).
  { pose proof (Z.log2_spec (Z.pos d) eq_refl). subst b.
    replace (Z.log2 (Z.pos d) + 1)%Z with (Z.succ (Z.log2 (Z.pos d)))
      by lia. lia. }
  assert (Ha0 : (0 <= a)%Z) by apply Z.log2_nonneg.
  assert (Hb0 : (0 <= b)%Z) by apply Z.log2_nonneg.
  assert (Hx' : (n # d) * inject_Z (Z.pos d) == inject_Z n).
  { unfold Qeq, Qmult, inject_Z. cbn. lia. }
  assert (Hna : 2 ^ a <= inject_Z n /\ inject_Z n < 2 ^ (a + 1)).
  { rewrite !pow2_Z by lia. rewrite <- Zle_Qle, <- Zlt_Qlt. exact Ha. }
  assert (Hdb : 2 ^ b <= inject_Z (Z.pos d) /\
                inject_Z (Z.pos d) < 2 ^ (b + 1)).
  { rewrite !pow2_Z by lia. rewrite <- Zle_Qle, <- Zlt_Qlt. exact Hb. }
  pose proof (pow2_pos b) as Pb. pose proof (pow2_pos (a - b)) as Pk.
  (* x < 2^(a-b+1) *)
  assert (Hup : (n # d) < 2 ^ (a - b + 1)).
  { assert (E : 2 ^ (a + 1) == 2 ^ (a - b + 1) * 2 ^ b).
    { rewrite <- pow2_add. apply Qpower_comp; [reflexivity | lia]. }
    destruct (Qlt_le_dec (n # d) (2 ^ (a - b + 1))) as [ | Hc];
      [assumption | exfalso].
    assert (2 ^ (a - b + 1) * 2 ^ b <= (n # d) * inject_Z (Z.pos d)).
    { apply Qmult_le_compat_nonneg.
      - split; [apply Qlt_le_weak, pow2_pos | exact Hc].
      - split; [apply Qlt_le_weak, pow2_pos | apply Hdb]. }
    lra. }
  assert (Hlo : 2 ^ (a - b - 1) <= (n # d)).
  { assert (E : 2 ^ a == 2 ^ (a - b - 1) * 2 ^ (b + 1)).
    { rewrite <- pow2_add. apply Qpower_comp; [reflexivity | lia]. }
    destruct (Qlt_le_dec (n # d) (2 ^ (a - b - 1))) as [Hc | ];
      [exfalso | assumption].
    assert ((n # d) * inject_Z (Z.pos d) <= 2 ^ (a - b - 1) * 2 ^ (b + 1)).
    { apply Qmult_le_compat_nonneg.
      - split; [apply Qlt_le_weak, Hx | apply Qlt_le_weak, Hc].
      - split; [|apply Qlt_le_weak, Hdb].
        pose proof (pow2_pos b). lra. }
    assert ((n # d) * inject_Z (Z.pos d) < 2 ^ (a - b - 1) * 2 ^ (b + 1)).
    { apply Qle_lt_trans with ((n # d) * 2 ^ (b + 1)).
      - apply Qmult_le_l; [exact Hx | apply Qlt_le_weak, Hdb].
      - apply Qmult_lt_r; [apply pow2_pos | exact Hc]. }
    lra. }
  destruct (Qle_bool (2 ^ (a - b)) (n # d)) eqn:E.
  - apply Qle_bool_iff in E. split; assumption.
  - assert (Hlt : (n # d) < 2 ^ (a - b)).
    { apply Qnot_le_lt. intros H. apply Qle_bool_iff in H. congruence. }
    split; [exact Hlo|].
    replace (a - b - 1 + 1)%Z with (a - b)%Z by lia. exact Hlt.
Qed.

Lemma Qlog2_unique (x : Q) (e : Z) :
  2 ^ e <= x -> x < 2 ^ (e + 1) -> Qlog2 x = e.
Proof.
  intros H1 H2.
  assert (Hx : 0 < x) by (pose proof (pow2_pos e); lra).
  destruct (Qlog2_spec x Hx) as (L1 & L2).
  destruct (Z.lt_trichotomy (Qlog2 x) e) as [H | [H | H]]; [|exact H|].
  - pose proof (pow2_le (Qlog2 x + 1) e ltac:(lia)). lra.
  - pose proof (pow2_le (e + 1) (Qlog2 x) ltac:(lia)). lra.
Qed.

Lemma Qlog2_monotone (x y : Q) :
  0 < x -> x <= y -> (Qlog2 x <= Qlog2 y)%Z.
Proof.
  intros Hx Hxy.
  destruct (Qlog2_spec x Hx) as (L1 & _).
  destruct (Qlog2_spec y ltac:(lra)) as (_ & L2).
  destruct (Z_le_gt_dec (Qlog2 x) (Qlog2 y)) as [H | H]; [exact H|].
  pose proof (pow2_le (Qlog2 y + 1) (Qlog2 x) ltac:(lia)). lra.
Qed.

(** ** Rounding to the nearest integer *)

Lemma roundTiesToEven_floor (t : Q) :
  (Qfloor t <= roundTiesToEven t <= Qfloor t + 1)%Z.
Proof.
  unfold roundTiesToEven.
  destruct (t - inject_Z (Qfloor t) ?= 1 # 2);
    [destruct (Z.even (Qfloor t)) | | ]; lia.
Qed.

Lemma roundTiesToEven_Z (k : Z) (t : Q) :
  t == inject_Z k -> roundTiesToEven t = k.
Proof.
  intros E. unfold roundTiesToEven.
  assert (Hf : Qfloor t = k).
  { rewrite E. apply Qfloor_Z. }
  rewrite Hf.
  destruct (Qcompare_spec (t - inject_Z k) (1 # 2)) as [A | A | A];
    [exfalso; lra | reflexivity | exfalso; lra].
Qed.

Lemma roundTiesToEven_le (t : Q) (k : Z) :
  t <= inject_Z k -> (roundTiesToEven t <= k)%Z.
Proof.
  intros H.
  destruct (Qlt_le_dec t (inject_Z k)) as [Hlt | Hge].
  - pose proof (roundTiesToEven_floor t).
    assert (Qfloor t < k)%Z; [|lia].
    rewrite Zlt_Qlt. pose proof (Qfloor_le t). lra.
  - rewrite (roundTiesToEven_Z k t); [lia | lra].
Qed.

Lemma roundTiesToEven_ge (t : Q) (k : Z) :
  inject_Z k <= t -> (k <= roundTiesToEven t)%Z.
Proof.
  intros H. pose proof (roundTiesToEven_floor t).
  assert (k <= Qfloor t)%Z; [|lia].
  rewrite <- (Qfloor_Z k). apply Qfloor_resp_le, H.
Qed.

Lemma roundTiesToEven_monotone (t u : Q) :
  t <= u -> (roundTiesToEven t <= roundTiesToEven u)%Z.
Proof.
  intros H.
  pose proof (Qfloor_resp_le _ _ H) as Hf.
  destruct (Z.eq_dec (Qfloor t) (Qfloor u)) as [E | N].
  - unfold roundTiesToEven. rewrite <- E.
    destruct (Qcompare_spec (t - inject_Z (Qfloor t)) (1 # 2)) as [A | A | A];
      destruct (Qcompare_spec (u - inject_Z (Qfloor t)) (1 # 2))
        as [B | B | B];
      try destruct (Z.even (Qfloor t)); try lia; exfalso; lra.
  - pose proof (roundTiesToEven_floor t).
    pose proof (roundTiesToEven_floor u). lia.
Qed.

Lemma roundTiesToEven_error (t : Q) :
  Qabs (inject_Z (roundTiesToEven t) - t) <= 1 # 2.
Proof.
  unfold roundTiesToEven. cbv zeta.
  pose proof (Qfloor_le t) as H1. pose proof (Qlt_floor t) as H2.
  rewrite inject_Z_plus in H2. change (inject_Z 1) with 1 in H2.
  apply Qabs_Qle_condition.
  destruct (Qcompare_spec (t - inject_Z (Qfloor t)) (1 # 2)) as [A | A | A];
    try destruct (Z.even (Qfloor t)); rewrite ?inject_Z_plus;
    change (inject_Z 1) with 1; split; lra.
Qed.

(** ** Rounding to a grid of step [2^q] *)

Lemma pow2_quot (a b : Z) : 2 ^ a / 2 ^ b == 2 ^ (a - b).
Proof. symmetry. apply Qpower_minus. discriminate. Qed.

Lemma div_pow2_le (x y : Q) (q : Z) : x <= y -> x / 2 ^ q <= y / 2 ^ q.
Proof.
  intros H. unfold Qdiv. apply Qmult_le_compat_r; [exact H|].
  apply Qinv_le_0_compat, Qlt_le_weak, pow2_pos.
Qed.

Lemma grid_undo (x : Q) (q : Z) : x / 2 ^ q * 2 ^ q == x.
Proof. pose proof (pow2_pos q). field. lra. Qed.

Lemma grid_le (x : Q) (q e : Z) :
  (q <= e)%Z -> x <= 2 ^ e ->
  inject_Z (roundTiesToEven (x / 2 ^ q)) * 2 ^ q <= 2 ^ e.
Proof.
  intros Hq Hx.
  assert (E : 2 ^ e == inject_Z (2 ^ (e - q)) * 2 ^ q).
  { rewrite <- pow2_Z by lia. rewrite <- pow2_add.
    apply Qpower_comp; [reflexivity | lia]. }
  rewrite E. apply Qmult_le_compat_r; [|apply Qlt_le_weak, pow2_pos].
  rewrite <- Zle_Qle. apply roundTiesToEven_le.
  rewrite <- pow2_Z by lia. rewrite <- pow2_quot. apply div_pow2_le, Hx.
Qed.

Lemma grid_ge (y : Q) (q e : Z) :
  (q <= e)%Z -> 2 ^ e <= y ->
  2 ^ e <= inject_Z (roundTiesToEven (y / 2 ^ q)) * 2 ^ q.
Proof.
  intros Hq Hy.
  assert (E : 2 ^ e == inject_Z (2 ^ (e - q)) * 2 ^ q).
  { rewrite <- pow2_Z by lia. rewrite <- pow2_add.
    apply Qpower_comp; [reflexivity | lia]. }
  rewrite E. apply Qmult_le_compat_r; [|apply Qlt_le_weak, pow2_pos].
  rewrite <- Zle_Qle. apply roundTiesToEven_ge.
  rewrite <- pow2_Z by lia. rewrite <- pow2_quot. apply div_pow2_le, Hy.
Qed.

(** ** [binary64] on positive numbers *)

Lemma binary64_pos_nonneg (x : Q) : 0 < x -> 0 <= binary64_pos x.
Proof.
  intros Hx. unfold binary64_pos. cbv zeta.
  apply Qmult_le_0_compat; [|apply Qlt_le_weak, pow2_pos].
  change 0 with (inject_Z 0). rewrite <- Zle_Qle.
  apply roundTiesToEven_ge. change (inject_Z 0) with 0.
  pose proof (pow2_pos (Z.max (Qlog2 x - 52) (-1074))).
  apply Qle_shift_div_l; lra.
Qed.

Lemma binary64_pos_monotone (x y : Q) :
  0 < x -> x <= y -> binary64_pos x <= binary64_pos y.
Proof.
  intros Hx Hxy.
  assert (Hy : 0 < y) by lra.
  pose proof (Qlog2_monotone x y Hx Hxy) as He.
  destruct (Qlog2_spec x Hx) as (_ & Lx).
  destruct (Qlog2_spec y Hy) as (Ly & _).
  unfold binary64_pos. cbv zeta.
  set (qx := Z.max (Qlog2 x - 52) (-1074)).
  set (qy := Z.max (Qlog2 y - 52) (-1074)).
  destruct (Z.eq_dec qx qy) as [E | N].
  - rewrite E. apply Qmult_le_compat_r; [|apply Qlt_le_weak, pow2_pos].
    rewrite <- Zle_Qle. apply roundTiesToEven_monotone, div_pow2_le, Hxy.
  - assert (Hlt : (Qlog2 x < Qlog2 y)%Z) by lia.
    apply Qle_trans with (2 ^ Qlog2 y).
    + apply grid_le; [lia|].
      pose proof (pow2_le (Qlog2 x + 1) (Qlog2 y) ltac:(lia)). lra.
    + apply grid_ge; [lia | exact Ly].
Qed.

Lemma binary64_pos_comp (x y : Q) :
  0 < x -> x == y -> binary64_pos x == binary64_pos y.
Proof.
  intros Hx E. apply Qle_antisym; apply binary64_pos_monotone; lra.
Qed.

(** A number with a significand of at most 53 bits, on a grid whose step
    is at least that of the subnormal numbers, is its own rounding. *)
Lemma binary64_pos_fixed (m q : Z) :
  (0 < m < 2 ^ 53)%Z -> (-1074 <= q)%Z ->
  binary64_pos (inject_Z m * 2 ^ q) == inject_Z m * 2 ^ q.
Proof.
  intros Hm Hq. set (y := inject_Z m * 2 ^ q).
  assert (Hy : 0 < y).
  { subst y. apply Qmult_lt_0_compat; [|apply pow2_pos].
    change 0 with (inject_Z 0). rewrite <- Zlt_Qlt. lia. }
  destruct (Qlog2_spec y Hy) as (L1 & _).
  assert (Hup : y < 2 ^ (53 + q)).
  { subst y. rewrite pow2_add. apply Qmult_lt_r; [apply pow2_pos|].
    rewrite pow2_Z by lia. rewrite <- Zlt_Qlt. lia. }
  assert (He : (Qlog2 y < 53 + q)%Z).
  { destruct (Z_lt_ge_dec (Qlog2 y) (53 + q)) as [H | H]; [exact H|].
    pose proof (pow2_le (53 + q) (Qlog2 y) ltac:(lia)). lra. }
  unfold binary64_pos. cbv zeta.
  set (qy := Z.max (Qlog2 y - 52) (-1074)).
  assert (Hqy : (qy <= q)%Z) by lia.
  assert (E : y / 2 ^ qy == inject_Z (m * 2 ^ (q - qy))).
  { rewrite inject_Z_mult, <- pow2_Z by lia. subst y.
    unfold Qdiv. rewrite <- Qmult_assoc. apply Qmult_comp; [reflexivity|].
    change (2 ^ q * / 2 ^ qy) with (2 ^ q / 2 ^ qy). apply pow2_quot. }
  rewrite (roundTiesToEven_Z _ _ E).
  rewrite inject_Z_mult, <- pow2_Z by lia. subst y.
  rewrite <- Qmult_assoc. apply Qmult_comp; [reflexivity|].
  rewrite <- pow2_add. apply Qpower_comp; [reflexivity | lia].
Qed.

Lemma binary64_pos_fixed_le (m q : Z) :
  (0 < m <= 2 ^ 53)%Z -> (-1074 <= q)%Z ->
  binary64_pos (inject_Z m * 2 ^ q) == inject_Z m * 2 ^ q.
Proof.
  intros Hm Hq.
  destruct (Z.eq_dec m (2 ^ 53)) as [E | N].
  - assert (E' : inject_Z m * 2 ^ q == inject_Z (2 ^ 52) * 2 ^ (q + 1)).
    { subst m. rewrite <- !pow2_Z by lia. rewrite <- !pow2_add.
      apply Qpower_comp; [reflexivity | lia]. }
    assert (H0 : 0 < inject_Z m * 2 ^ q).
    { apply Qmult_lt_0_compat; [|apply pow2_pos].
      change 0 with (inject_Z 0). rewrite <- Zlt_Qlt. lia. }
    rewrite (binary64_pos_comp _ _ H0 E'), E'.
    apply binary64_pos_fixed; lia.
  - apply binary64_pos_fixed; lia.
Qed.

(** The rounding of a positive number: a significand of at most 53 bits
    on the grid of the number. *)
Lemma binary64_pos_form (x : Q) :
  0 < x ->
  exists m q : Z,
    binary64_pos x = inject_Z m * 2 ^ q /\
    (0 <= m <= 2 ^ 53)%Z /\ (-1074 <= q)%Z.
Proof.
  intros Hx. unfold binary64_pos. cbv zeta.
  set (q := Z.max (Qlog2 x - 52) (-1074)).
  exists (roundTiesToEven (x / 2 ^ q)), q.
  split; [reflexivity|]. split; [|lia].
  destruct (Qlog2_spec x Hx) as (_ & L2).
  pose proof (pow2_pos q) as Pq.
  split.
  - apply roundTiesToEven_ge. change (inject_Z 0) with 0.
    apply Qle_shift_div_l; lra.
  - apply roundTiesToEven_le. rewrite <- pow2_Z by lia.
    apply Qle_shift_div_r; [exact Pq|]. rewrite <- pow2_add.
    pose proof (pow2_le (Qlog2 x + 1) (53 + q) ltac:(lia)). lra.
Qed.

(** ** [binary64] *)

Lemma binary64_0 (x : Q) : x == 0 -> binary64 x = 0.
Proof.
  intros E. unfold binary64.
  destruct (Qcompare_spec x 0) as [A | A | A];
    [reflexivity | exfalso; lra | exfalso; lra].
Qed.

Lemma binary64_gt (x : Q) : 0 < x -> binary64 x = binary64_pos x.
Proof.
  intros E. unfold binary64.
  destruct (Qcompare_spec x 0) as [A | A | A];
    [exfalso; lra | exfalso; lra | reflexivity].
Qed.

Lemma binary64_lt (x : Q) : x < 0 -> binary64 x = - binary64_pos (- x).
Proof.
  intros E. unfold binary64.
  destruct (Qcompare_spec x 0) as [A | A | A];
    [exfalso; lra | reflexivity | exfalso; lra].
Qed.

Theorem binary64_monotone (x y : Q) :
  x <= y -> binary64 x <= binary64 y.
Proof.
  intros H.
  destruct (Q_dec x 0) as [[Hx | Hx] | Hx], (Q_dec y 0) as [[Hy | Hy] | Hy];
    rewrite ?(binary64_0 x), ?(binary64_0 y), ?(binary64_gt x),
      ?(binary64_gt y), ?(binary64_lt x), ?(binary64_lt y) by assumption;
    try (exfalso; lra).
  - apply Qopp_le_compat, binary64_pos_monotone; lra.
  - pose proof (binary64_pos_nonneg (- x) ltac:(lra)).
    pose proof (binary64_pos_nonneg y Hy). lra.
  - pose proof (binary64_pos_nonneg (- x) ltac:(lra)). lra.
  - apply binary64_pos_monotone; lra.
  - apply binary64_pos_nonneg, Hy.
  - apply Qle_refl.
Qed.

Lemma binary64_comp (x y : Q) : x == y -> binary64 x == binary64 y.
Proof. intros E. apply Qle_antisym; apply binary64_monotone; lra. Qed.

Lemma binary64_pos_idempotent (x : Q) :
  0 < x -> binary64 (binary64_pos x) == binary64_pos x.
Proof.
  intros Hx. destruct (binary64_pos_form x Hx) as (m & q & -> & Hm & Hq).
  destruct (Z.eq_dec m 0) as [-> | N].
  - rewrite binary64_0; ring.
  - rewrite binary64_gt.
    + apply binary64_pos_fixed_le; lia.
    + apply Qmult_lt_0_compat; [|apply pow2_pos].
      change 0 with (inject_Z 0). rewrite <- Zlt_Qlt. lia.
Qed.

Theorem binary64_idempotent (x : Q) :
  binary64 (binary64 x) == binary64 x.
Proof.
  destruct (Q_dec x 0) as [[Hx | Hx] | Hx].
  - rewrite (binary64_lt x Hx).
    pose proof (binary64_pos_nonneg (- x) ltac:(lra)) as H0.
    pose proof (binary64_pos_idempotent (- x) ltac:(lra)) as Hi.
    set (y := binary64_pos (- x)) in *.
    destruct (Qle_lt_or_eq _ _ H0) as [Hy | Hy].
    + rewrite (binary64_lt (- y)) by lra.
      rewrite (binary64_gt y Hy) in Hi.
      assert (E : binary64_pos (- - y) == binary64_pos y)
        by (apply binary64_pos_comp; [lra | ring]).
      rewrite E, Hi. reflexivity.
    + rewrite binary64_0; lra.
  - rewrite (binary64_gt x Hx). apply binary64_pos_idempotent, Hx.
  - rewrite (binary64_0 x Hx). reflexivity.
Qed.

(** In the range of the normal numbers the relative error of the
    rounding is at most [2^-53]. *)
Theorem binary64_error (x : Q) :
  2 ^ (-1022) <= x ->
  Qabs (binary64 x - x) <= x * 2 ^ (-53).
Proof.
  intros Hn.
  assert (Hx : 0 < x) by (pose proof (pow2_pos (-1022)); lra).
  rewrite (binary64_gt x Hx). unfold binary64_pos. cbv zeta.
  destruct (Qlog2_spec x Hx) as (L1 & L2).
  assert (He : (-1022 <= Qlog2 x)%Z).
  { destruct (Z_le_gt_dec (-1022) (Qlog2 x)) as [H | H]; [exact H|].
    pose proof (pow2_le (Qlog2 x + 1) (-1022) ltac:(lia)). lra. }
  replace (Z.max (Qlog2 x - 52) (-1074)) with (Qlog2 x - 52)%Z by lia.
  set (q := (Qlog2 x - 52)%Z).
  pose proof (roundTiesToEven_error (x / 2 ^ q)) as Hr.
  pose proof (pow2_pos q) as Pq.
  assert (E : inject_Z (roundTiesToEven (x / 2 ^ q)) * 2 ^ q - x
              == (inject_Z (roundTiesToEven (x / 2 ^ q)) - x / 2 ^ q)
                 * 2 ^ q).
  { field. lra. }
  rewrite E, Qabs_Qmult, (Qabs_pos (2 ^ q)) by lra.
  apply Qle_trans with ((1 # 2) * 2 ^ q).
  - apply Qmult_le_compat_r; [exact Hr | lra].
  - assert (E2 : (1 # 2) * 2 ^ q == 2 ^ Qlog2 x * 2 ^ (-53)).
    { change (1 # 2) with (2 ^ (-1)). rewrite <- !pow2_add.
      apply Qpower_comp; [reflexivity | subst q; lia]. }
    rewrite E2. apply Qmult_le_compat_r; [exact L1|].
    apply Qlt_le_weak, pow2_pos.
Qed.

(** Everywhere, the error is at most half the step of the grid. *)
Theorem binary64_error_any (x : Q) :
  Qabs (binary64 x - x) <= Qmax (Qabs x * 2 ^ (-53)) (2 ^ (-1075)).
Proof.
  assert (H : forall y, 0 < y ->
            Qabs (binary64_pos y - y) <= Qmax (y * 2 ^ (-53)) (2 ^ (-1075))).
  { intros y Hy. unfold binary64_pos. cbv zeta.
    destruct (Qlog2_spec y Hy) as (L1 & _).
    set (q := Z.max (Qlog2 y - 52) (-1074)).
    pose proof (roundTiesToEven_error (y / 2 ^ q)) as Hr.
    pose proof (pow2_pos q) as Pq.
    assert (E : inject_Z (roundTiesToEven (y / 2 ^ q)) * 2 ^ q - y
                == (inject_Z (roundTiesToEven (y / 2 ^ q)) - y / 2 ^ q)
                   * 2 ^ q).
    { field. lra. }
    rewrite E, Qabs_Qmult, (Qabs_pos (2 ^ q)) by lra.
    apply Qle_trans with ((1 # 2) * 2 ^ q).
    { apply Qmult_le_compat_r; [exact Hr | lra]. }
    assert (E2 : (1 # 2) * 2 ^ q == 2 ^ (q - 1)).
    { change (1 # 2) with (2 ^ (-1)). rewrite <- pow2_add.
      apply Qpower_comp; [reflexivity | lia]. }
    rewrite E2.
    destruct (Z_le_gt_dec (-1074) (Qlog2 y - 52)) as [Hq | Hq].
    - apply Qle_trans with (y * 2 ^ (-53)); [|apply Q.le_max_l].
      apply Qle_trans with (2 ^ Qlog2 y * 2 ^ (-53)).
      + rewrite <- pow2_add. apply pow2_le. subst q. lia.
      + apply Qmult_le_compat_r; [exact L1|].
        apply Qlt_le_weak, pow2_pos.
    - apply Qle_trans with (2 ^ (-1075)); [|apply Q.le_max_r].
      apply pow2_le. subst q. lia. }
  destruct (Q_dec x 0) as [[Hx | Hx] | Hx].
  - rewrite (binary64_lt x Hx).
    assert (Hy : 0 < - x) by lra. specialize (H (- x) Hy).
    assert (E : - binary64_pos (- x) - x == - (binary64_pos (- x) - - x))
      by ring.
    rewrite E, Qabs_opp, (Qabs_neg x) by lra. exact H.
  - rewrite (binary64_gt x Hx), (Qabs_pos x) by lra. apply H, Hx.
  - rewrite (binary64_0 x Hx).
    apply Qle_trans with (2 ^ (-1075)); [|apply Q.le_max_r].
    assert (E : 0 - x == 0) by lra.
    rewrite E. apply Qlt_le_weak, (pow2_pos (-1075)).
Qed.

(** ** Doubles *)

Lemma is_binary64_comp (x y : Q) : x == y -> is_binary64 x -> is_binary64 y.
Proof.
  unfold is_binary64. intros E H.
  rewrite <- (binary64_comp x y E), H. exact E.
Qed.

Lemma is_binary64_rounded (x : Q) : is_binary64 (binary64 x).
Proof. apply binary64_idempotent. Qed.

Lemma is_binary64_max (x y : Q) :
  is_binary64 x -> is_binary64 y -> is_binary64 (Qmax x y).
Proof.
  intros Hx Hy.
  destruct (Q.max_spec x y) as [[_ E] | [_ E]];
    [apply (is_binary64_comp y) | apply (is_binary64_comp x)];
    (symmetry; exact E) || assumption.
Qed.

(** Adding a non-negative number to a double, in doubles, does not give
    less. *)
Lemma binary64_add_ge (x d : Q) :
  is_binary64 x -> 0 <= d -> x <= binary64 (x + d).
Proof.
  intros Hx Hd. unfold is_binary64 in Hx.
  rewrite <- Hx at 1. apply binary64_monotone. lra.
Qed.

End Binary64.

(* ================================================================== *)
(** * The playback scheduler *)
(* ================================================================== *)

Section Scheduler.

Local Open Scope Q_scope.

(** One enqueue operation, step by step. *)
Lemma schedulePlayback_result (currentTime d : Q) (w : World) :
  fst (schedulePlayback currentTime d w)
  = Normal (mkSource (fresh w) d
                     (Some (Qmax (nextStartTimeRef w) currentTime))).
Proof. reflexivity. Qed.

Lemma schedulePlayback_cursor (currentTime d : Q) (w : World) :
  nextStartTimeRef (snd (schedulePlayback currentTime d w))
  = binary64 (Qmax (nextStartTimeRef w) currentTime + d).
Proof. reflexivity. Qed.

Lemma schedulePlayback_double (currentTime d : Q) (w : World) :
  is_binary64 (nextStartTimeRef (snd (schedulePlayback currentTime d w))).
Proof. rewrite schedulePlayback_cursor. apply is_binary64_rounded. Qed.

Lemma schedulePlayback_trace (currentTime d : Q) (w : World) :
  trace (snd (schedulePlayback currentTime d w))
  = (trace w
     ++ [SourceStart (fresh w) (Qmax (nextStartTimeRef w) currentTime)])%list.
Proof. reflexivity. Qed.

Lemma enqueueAll_cons (currentTime d : Q) (rest : list (Q * Q)) (w : World) :
  enqueueAll ((currentTime, d) :: rest) w
  = let w1 := snd (schedulePlayback currentTime d w) in
    match enqueueAll rest w1 with
    | (Normal sources, w2) =>
        (Normal (mkSource (fresh w) d
                   (Some (Qmax (nextStartTimeRef w) currentTime)) :: sources),
         w2)
    | (Throw e, w2) => (Throw e, w2)
    end.
Proof.
  cbn [enqueueAll]. unfold bind at 1.
  destruct (schedulePlayback currentTime d w) as [c w1] eqn:E.
  pose proof (schedulePlayback_result currentTime d w) as Hc.
  rewrite E in Hc. cbn [fst] in Hc. subst c. cbn [snd].
  unfold bind at 1. destruct (enqueueAll rest w1) as [[sources | e] w2];
    reflexivity.
Qed.

(** The operations always return: one source per operation. *)
Lemma enqueueAll_returns (ops : list (Q * Q)) :
  forall w, exists sources w',
    enqueueAll ops w = (Normal sources, w') /\
    List.length sources = List.length ops.
Proof.
  induction ops as [ | [currentTime d] rest IH]; intros w.
  - exists [], w. split; reflexivity.
  - rewrite enqueueAll_cons. cbv zeta.
    destruct (IH (snd (schedulePlayback currentTime d w)))
      as (sources & w' & E & Hlen).
    rewrite E. eexists _, w'. split; [reflexivity|].
    cbn [List.length]. rewrite Hlen. reflexivity.
Qed.

Lemma enqueueAll_app (pre post : list (Q * Q)) :
  forall w sources1 w1 sources2 w2,
    enqueueAll pre w = (Normal sources1, w1) ->
    enqueueAll post w1 = (Normal sources2, w2) ->
    enqueueAll (pre ++ post) w = (Normal (sources1 ++ sources2)%list, w2).
Proof.
  induction pre as [ | [currentTime d] rest IH];
    intros w sources1 w1 sources2 w2 E1 E2.
  - cbn in E1. injection E1 as <- <-. exact E2.
  - rewrite enqueueAll_cons in E1. cbv zeta in E1.
    destruct (enqueueAll rest (snd (schedulePlayback currentTime d w)))
      as [[sources | e] w'] eqn:E; [|discriminate E1].
    injection E1 as <- <-.
    cbn [app]. rewrite enqueueAll_cons. cbv zeta.
    rewrite (IH _ _ _ _ _ E E2). reflexivity.
Qed.

(** The calls of [start] of a run, in order: one for each source, with
    the start time of the source. *)
Lemma enqueueAll_trace (ops : list (Q * Q)) :
  forall w sources w',
    enqueueAll ops w = (Normal sources, w') ->
    trace w' = (trace w ++ map start_call sources)%list.
Proof.
  induction ops as [ | [currentTime d] rest IH]; intros w sources w' E.
  - cbn in E. injection E as <- <-. symmetry. apply app_nil_r.
  - rewrite enqueueAll_cons in E. cbv zeta in E.
    destruct (enqueueAll rest (snd (schedulePlayback currentTime d w)))
      as [[srcs | e] w2] eqn:E2; [|discriminate E].
    injection E as <- <-.
    rewrite (IH _ _ _ E2), schedulePlayback_trace, <- app_assoc.
    reflexivity.
Qed.

(** The invariant of a run on doubles: every source starts at or after
    the cursor the run began with, no source starts before the end
    computed for an earlier one, and the cursor does not move back. *)
Lemma enqueueAll_ordered (ops : list (Q * Q)) :
  Forall (fun op => is_binary64 (fst op) /\ 0 <= snd op) ops ->
  forall w sources w',
    is_binary64 (nextStartTimeRef w) ->
    enqueueAll ops w = (Normal sources, w') ->
    Forall (fun s => nextStartTimeRef w <= startTime s) sources /\
    ForallOrdPairs (fun a b => endTime a <= startTime b) sources /\
    ForallOrdPairs (fun a b => startTime a <= startTime b) sources /\
    nextStartTimeRef w <= nextStartTimeRef w'.
Proof.
  induction 1 as [ | [currentTime d] rest [Hnow Hd] _ IH];
    intros w sources w' Hw E.
  - cbn in E. injection E as <- <-.
    repeat split; try constructor. apply Qle_refl.
  - cbn [fst snd] in Hnow, Hd. rewrite enqueueAll_cons in E. cbv zeta in E.
    destruct (enqueueAll rest (snd (schedulePlayback currentTime d w)))
      as [[srcs | e] w2] eqn:E2; [|discriminate E].
    injection E as <- <-.
    destruct (IH _ _ _ (schedulePlayback_double currentTime d w) E2)
      as (Hge & Hno & Hst & Hcur).
    rewrite schedulePlayback_cursor in Hge, Hcur.
    pose proof (Q.le_max_l (nextStartTimeRef w) currentTime) as Hmax.
    pose proof (binary64_add_ge _ d (is_binary64_max _ _ Hw Hnow) Hd)
      as Hadd.
    set (start := Qmax (nextStartTimeRef w) currentTime) in *.
    repeat split.
    + constructor.
      * unfold startTime. cbn [source_start]. exact Hmax.
      * eapply Forall_impl; [|exact Hge]. cbv beta. intros s Hs. lra.
    + constructor; [|exact Hno].
      eapply Forall_impl; [|exact Hge]. cbv beta. intros s Hs.
      unfold endTime at 1. unfold startTime at 1.
      cbn [source_start source_duration]. exact Hs.
    + constructor; [|exact Hst].
      eapply Forall_impl; [|exact Hge]. cbv beta. intros s Hs.
      unfold startTime at 1. cbn [source_start]. lra.
    + lra.
Qed.

(** ** The two parts of [onmessage] *)

Arguments trim : simpl never.

Lemma handleTranscripts_spec (message : LiveServerMessage) (w : World) :
  let input := (currentInputTransRef w
                ++ delta_text (inputTranscription message))%list in
  let output := (currentOutputTransRef w
                 ++ delta_text (outputTranscription message))%list in
  exists w',
    handleTranscripts message w = (Normal tt, w') /\
    currentInputTransRef w'
    = (if is_true (turnComplete message) then after_commit input
       else input) /\
    currentOutputTransRef w'
    = (if is_true (turnComplete message) then after_commit output
       else output) /\
    messages w'
    = (messages w
       ++ (if is_true (turnComplete message)
           then committed user input ++ committed model output
           else []))%list /\
    outside_transcripts w' = outside_transcripts w.
Proof.
  destruct w, message as [a i o tc]. cbv zeta.
  cbn [currentInputTransRef currentOutputTransRef inputTranscription
       outputTranscription turnComplete messages].
  unfold handleTranscripts, committed, after_commit.
  cbn [inputTranscription outputTranscription turnComplete].
  destruct i as [[ | c i] | ], o as [[ | c' o] | ];
    cbn [delta_text truthy]; rewrite ?app_nil_r;
    unfold bind, modify, gets, ret; cbn;
    (destruct tc as [[ | ] | ]; cbn;
     [ | eexists; rewrite ?app_nil_r; repeat split; reflexivity .. ]);
    match goal with
    | |- context [truthy (trim ?x)] => destruct (truthy (trim x)); cbn
    end;
    match goal with
    | |- context [truthy (trim ?x)] => destruct (truthy (trim x)); cbn
    end;
    eexists; rewrite ?app_nil_r; repeat split; reflexivity.
Qed.

Lemma bind_gets {A B} (f : World -> A) (k : A -> M B) (w : World) :
  bind (gets f) k w = k (f w) w.
Proof. reflexivity. Qed.

Lemma bind_assoc {A B C} (m : M A) (k1 : A -> M B) (k2 : B -> M C)
    (w : World) :
  bind (bind m k1) k2 w = bind m (fun a => bind (k1 a) k2) w.
Proof. unfold bind. destruct (m w) as [[a | e] w1]; reflexivity. Qed.

Lemma bind_lift {A B} (c : Completion A) (k : A -> M B) (w : World) :
  bind (lift c) k w
  = match c with Normal a => k a w | Throw e => (Throw e, w) end.
Proof. destruct c; reflexivity. Qed.

(** A buffer of at least one sample lasts. *)
Lemma duration_positive (n : nat) : 0 < duration (mkBuffer (S n) 24000).
Proof.
  unfold duration. cbn [buffer_length buffer_sampleRate].
  apply Qlt_le_trans with (binary64 (1 # 24000)).
  - vm_compute. reflexivity.
  - apply binary64_monotone. unfold Qle. cbn [Qnum Qden]. lia.
Qed.

(** The audio part either throws before touching anything, or does
    nothing, or performs one enqueue operation, of a chunk that has at
    least one sample. *)
Lemma handleAudio_cases (isMuted : bool) (currentTime : Q)
    (message : LiveServerMessage) (w : World) :
  (exists e, handleAudio isMuted currentTime message w = (Throw e, w)) \/
  handleAudio isMuted currentTime message w = (Normal tt, w) \/
  (exists n,
     handleAudio isMuted currentTime message w
     = (Normal tt,
        snd (schedulePlayback currentTime
               (duration (mkBuffer (S n) 24000)) w))).
Proof.
  unfold handleAudio. rewrite bind_gets.
  destruct (audioData message) as [data | ]; [|right; left; reflexivity].
  destruct (audioContextRef w) as [ctx | ]; [|right; left; reflexivity].
  destruct (truthy data && negb isMuted)%bool; [|right; left; reflexivity].
  rewrite bind_lift.
  destruct (base64ToUint8Array data) as [audioBytes | e];
    [|left; eexists; reflexivity].
  rewrite bind_lift.
  destruct (decodePCM16 audioBytes) as [float32 | e];
    [|left; eexists; reflexivity].
  rewrite bind_lift. unfold createBuffer.
  destruct (List.length float32) as [ | n] eqn:Hlen; cbn [Nat.eqb].
  - left. eexists. reflexivity.
  - right. right. exists n. reflexivity.
Qed.

(** A payload that carries no byte never reaches the scheduler. *)
Lemma handleAudio_empty_chunk (isMuted : bool) (currentTime : Q)
    (message : LiveServerMessage) (w : World) (data : jsstring) :
  audioData message = Some data ->
  base64ToUint8Array data = Normal [] ->
  snd (handleAudio isMuted currentTime message w) = w.
Proof.
  intros Hd Hb. unfold handleAudio. rewrite bind_gets, Hd.
  destruct (audioContextRef w) as [ctx | ]; [|reflexivity].
  destruct (truthy data && negb isMuted)%bool; [|reflexivity].
  rewrite bind_lift, Hb. reflexivity.
Qed.

Lemma handleTranscripts_schedule (message : LiveServerMessage) (w : World) :
  schedule (snd (handleTranscripts message w)) = schedule w.
Proof.
  destruct (handleTranscripts_spec message w) as (w' & E & _ & _ & _ & Ho).
  rewrite E. cbn [snd]. unfold schedule.
  unfold outside_transcripts in Ho. injection Ho as _ _ _ _ -> -> _ _ _ _ _ _ ->.
  reflexivity.
Qed.

Lemma onmessage_unfold (isMuted : bool) (currentTime : Q)
    (message : LiveServerMessage) (w : World) :
  onmessage isMuted currentTime message w
  = match handleAudio isMuted currentTime message w with
    | (Normal _, w1) => handleTranscripts message w1
    | (Throw e, w1) => (Throw e, w1)
    end.
Proof. reflexivity. Qed.

(** A payload that is not empty and carries no byte: the buffer cannot be
    created. *)
Lemma handleAudio_no_bytes (currentTime : Q) (message : LiveServerMessage)
    (w : World) (data : jsstring) :
  audioData message = Some data ->
  data <> []%list ->
  audioContextRef w <> None ->
  base64ToUint8Array data = Normal []%list ->
  handleAudio false currentTime message w = (Throw NotSupportedError, w).
Proof.
  intros Hd Hne Hctx Hb. unfold handleAudio. rewrite bind_gets, Hd.
  destruct (audioContextRef w) as [ctx | ]; [|congruence].
  destruct data as [ | c data]; [congruence|].
  cbn [truthy negb andb]. rewrite bind_lift, Hb. reflexivity.
Qed.

Lemma handleAudio_empty_payload (isMuted : bool) (currentTime : Q)
    (message : LiveServerMessage) (w : World) :
  audioData message = Some []%list ->
  handleAudio isMuted currentTime message w = (Normal tt, w).
Proof.
  intros Hd. unfold handleAudio. rewrite bind_gets, Hd.
  destruct (audioContextRef w); reflexivity.
Qed.

End Scheduler.

(* ================================================================== *)
(** * Frame rules of the handler monad *)
(* ================================================================== *)

Section Frame.

Variable P : World -> Prop.

Lemma preserves_ret {A} (a : A) : preserves P (ret a).
Proof. intros w H. exact H. Qed.

Lemma preserves_throw {A} (e : exn) : preserves P (throw (A := A) e).
Proof. intros w H. exact H. Qed.

Lemma preserves_gets {A} (f : World -> A) : preserves P (gets f).
Proof. intros w H. exact H. Qed.

Lemma preserves_lift {A} (c : Completion A) : preserves P (lift c).
Proof. intros w H. exact H. Qed.

Lemma preserves_modify (f : World -> World) :
  (forall w, P w -> P (f w)) -> preserves P (modify f).
Proof. intros Hf w H. apply Hf, H. Qed.

Lemma preserves_bind {A B} (m : M A) (k : A -> M B) :
  preserves P m -> (forall a, preserves P (k a)) -> preserves P (bind m k).
Proof.
  intros Hm Hk w H. unfold bind. specialize (Hm w H).
  destruct (m w) as [[a | e] w1]; cbn [snd] in *.
  - apply Hk, Hm.
  - exact Hm.
Qed.

Lemma preserves_try_catch (m h : M unit) :
  preserves P m -> preserves P h -> preserves P (try_catch m h).
Proof.
  intros Hm Hh w H. unfold try_catch. specialize (Hm w H).
  destruct (m w) as [[a | e] w1]; cbn [snd] in *.
  - exact Hm.
  - apply Hh, Hm.
Qed.

Lemma preserves_forEach {A} (f : A -> M unit) (l : list A) :
  (forall a, preserves P (f a)) -> preserves P (forEach f l).
Proof.
  intros Hf. induction l as [ | a l IH]; cbn [forEach].
  - apply preserves_ret.
  - apply preserves_bind; [apply Hf | intros _; exact IH].
Qed.

End Frame.

(** Splits a handler into its primitive steps; what remains are the
    updates that do touch the property. *)
Ltac frame :=
  repeat first
    [ apply preserves_ret
    | apply preserves_throw
    | apply preserves_gets
    | apply preserves_lift
    | apply preserves_bind; [ | intros ? ]
    | apply preserves_try_catch
    | apply preserves_forEach; intros ?
    | match goal with
      | |- preserves _ (match ?x with _ => _ end) => destruct x
      end
    | apply preserves_modify; intros ? ?; assumption ].

(** The handlers, as compositions of primitive steps. *)
Ltac unfold_handlers :=
  unfold connect, initAudio, onaudioprocess, session_opens, session_rejects,
    onopen, onclose, onerror, handleFinish, handleFinish_settled, disconnect,
    createLiveSession, promise_then, new_promise, new_object, start, stop,
    effect.

(* ================================================================== *)
(** * The transcript assembler *)
(* ================================================================== *)

Section Transcripts.

(** ** [trim] *)

Lemma trimStart_head (s : jsstring) (c : Z) (r : jsstring) :
  trimStart s = c :: r -> isWhiteSpace c = false.
Proof.
  induction s as [ | a s IH]; cbn [trimStart]; [discriminate|].
  destruct (isWhiteSpace a) eqn:Ha; [exact IH|].
  intros E. injection E as <- _. exact Ha.
Qed.

Lemma trimStart_suffix (s : jsstring) :
  exists p, s = p ++ trimStart s.
Proof.
  induction s as [ | a s [p IH]]; cbn [trimStart].
  - exists []. reflexivity.
  - destruct (isWhiteSpace a).
    + exists (a :: p). cbn [app]. f_equal. exact IH.
    + exists []. reflexivity.
Qed.

Lemma trimEnd_prefix (s : jsstring) :
  exists p, s = trimEnd s ++ p.
Proof.
  unfold trimEnd. destruct (trimStart_suffix (rev s)) as [p E].
  exists (rev p). rewrite <- rev_app_distr, <- E, rev_involutive.
  reflexivity.
Qed.

Lemma trimEnd_last (s : jsstring) (c : Z) (r : jsstring) :
  trimEnd s = r ++ [c] -> isWhiteSpace c = false.
Proof.
  unfold trimEnd. intros E.
  apply (f_equal (@rev Z)) in E.
  rewrite rev_involutive, rev_app_distr in E. cbn [rev app] in E.
  exact (trimStart_head _ _ _ E).
Qed.

Lemma trim_head (s : jsstring) (c : Z) (r : jsstring) :
  trim s = c :: r -> isWhiteSpace c = false.
Proof.
  unfold trim. intros E.
  destruct (trimEnd_prefix (trimStart s)) as [p Hp].
  rewrite E in Hp. cbn [app] in Hp.
  exact (trimStart_head _ _ _ Hp).
Qed.

Lemma trim_last (s : jsstring) (c : Z) (r : jsstring) :
  trim s = r ++ [c] -> isWhiteSpace c = false.
Proof. unfold trim. apply trimEnd_last. Qed.

Lemma truthy_true (s : jsstring) : truthy s = true <-> s <> [].
Proof. destruct s; cbn; split; congruence. Qed.

Lemma truthy_false (s : jsstring) : truthy s = false <-> s = [].
Proof. destruct s; cbn; split; congruence. Qed.

Lemma trim_well_trimmed (s : jsstring) :
  truthy (trim s) = true -> well_trimmed (trim s).
Proof.
  intros H. split; [apply truthy_true, H|].
  split; [apply trim_head | apply trim_last].
Qed.

(** ** What a commit does *)

Lemma committed_well_trimmed (r : Role) (content : jsstring) :
  Forall (fun m => well_trimmed (text m)) (committed r content).
Proof.
  unfold committed. destruct (truthy (trim content)) eqn:H; constructor.
  - apply trim_well_trimmed, H.
  - constructor.
Qed.

Lemma after_commit_blank (content : jsstring) :
  trim (after_commit content) = [].
Proof.
  unfold after_commit. destruct (truthy (trim content)) eqn:H.
  - reflexivity.
  - apply truthy_false, H.
Qed.

Lemma after_commit_of_blank (content : jsstring) :
  trim content = [] -> after_commit content = content.
Proof. unfold after_commit. intros ->. reflexivity. Qed.

(** The audio part leaves the transcripts and the history alone. *)
Lemma handleAudio_transcripts (isMuted : bool) (currentTime : Q)
    (message : LiveServerMessage) (w : World) :
  let w1 := snd (handleAudio isMuted currentTime message w) in
  currentInputTransRef w1 = currentInputTransRef w /\
  currentOutputTransRef w1 = currentOutputTransRef w /\
  messages w1 = messages w.
Proof.
  cbv zeta.
  destruct (handleAudio_cases isMuted currentTime message w)
    as [[e E] | [E | (n & E)]]; rewrite E; repeat split; reflexivity.
Qed.

(** The whole handler, when it returns normally. *)
Lemma onmessage_transcripts (isMuted : bool) (currentTime : Q)
    (message : LiveServerMessage) (w w' : World) :
  onmessage isMuted currentTime message w = (Normal tt, w') ->
  let input := currentInputTransRef w
               ++ delta_text (inputTranscription message) in
  let output := currentOutputTransRef w
                ++ delta_text (outputTranscription message) in
  currentInputTransRef w'
  = (if is_true (turnComplete message) then after_commit input else input) /\
  currentOutputTransRef w'
  = (if is_true (turnComplete message) then after_commit output
     else output) /\
  messages w'
  = messages w
    ++ (if is_true (turnComplete message)
        then committed user input ++ committed model output
        else []).
Proof.
  rewrite onmessage_unfold. intros E.
  pose proof (handleAudio_transcripts isMuted currentTime message w) as Ha.
  cbv zeta in Ha.
  destruct (handleAudio isMuted currentTime message w) as [[[] | e] w1];
    [|discriminate E].
  cbn [snd] in Ha. destruct Ha as (Hi & Ho & Hm).
  destruct (handleTranscripts_spec message w1) as (w2 & E2 & Hi2 & Ho2 & Hm2 & _).
  rewrite E2 in E. injection E as <-.
  cbv zeta in *. rewrite Hi in Hi2. rewrite Ho in Ho2. rewrite Hi, Ho, Hm in Hm2.
  repeat split; assumption.
Qed.

(** When the handler throws, it does so in the audio part, before any
    transcript is touched. *)
Lemma onmessage_throws (isMuted : bool) (currentTime : Q)
    (message : LiveServerMessage) (w w' : World) (e : exn) :
  onmessage isMuted currentTime message w = (Throw e, w') -> w' = w.
Proof.
  rewrite onmessage_unfold. intros E.
  destruct (handleAudio_cases isMuted currentTime message w)
    as [[e' Ea] | [Ea | (n & Ea)]]; rewrite Ea in E.
  - injection E as _ <-. reflexivity.
  - destruct (handleTranscripts_spec message w) as (w2 & E2 & _).
    rewrite E2 in E. discriminate E.
  - destruct (handleTranscripts_spec message
                (snd (schedulePlayback currentTime
                        (duration (mkBuffer (S n) 24000)) w)))
      as (w2 & E2 & _).
    rewrite E2 in E. discriminate E.
Qed.

(** A message without audio payload is always handled normally. *)
Lemma onmessage_no_audio (isMuted : bool) (currentTime : Q)
    (message : LiveServerMessage) (w : World) :
  audioData message = None ->
  exists w', onmessage isMuted currentTime message w = (Normal tt, w').
Proof.
  intros Ha. rewrite onmessage_unfold.
  assert (E : handleAudio isMuted currentTime message w = (Normal tt, w)).
  { unfold handleAudio. rewrite bind_gets, Ha. reflexivity. }
  rewrite E.
  destruct (handleTranscripts_spec message w) as (w2 & E2 & _).
  exists w2. exact E2.
Qed.

(** ** The microtask checkpoint *)

Lemma run_reaction_world (t : nat * Reaction) (w : World) :
  run_reaction t w
  = (Normal tt, set_trace (trace w ++ [reaction_effect t]) w).
Proof.
  unfold run_reaction, reaction_effect. destruct (snd t); reflexivity.
Qed.

Lemma drain_preserves (P : World -> Prop) :
  (forall w t, P w -> P (set_trace t w)) ->
  (forall w q, P w -> P (set_microtasks q w)) ->
  forall w, P w -> P (drain w).
Proof.
  intros Ht Hq w Hw. unfold drain.
  assert (H0 : P (set_microtasks [] w)) by apply Hq, Hw.
  revert H0. generalize (set_microtasks [] w).
  induction (microtasks w) as [ | t l IH]; intros w0 H0; cbn [fold_left].
  - exact H0.
  - apply IH. rewrite run_reaction_world. cbn [snd]. apply Ht, H0.
Qed.

Lemma drain_trace (w : World) :
  trace (drain w) = trace w ++ map reaction_effect (microtasks w).
Proof.
  unfold drain.
  change (trace w) with (trace (set_microtasks [] w)).
  generalize (set_microtasks [] w).
  induction (microtasks w) as [ | t l IH]; intros w0; cbn [fold_left map].
  - symmetry. apply app_nil_r.
  - rewrite IH, run_reaction_world. cbn [snd].
    change (trace (set_trace ?t w0)) with t.
    rewrite <- app_assoc. reflexivity.
Qed.

Lemma drain_microtasks (w : World) : microtasks (drain w) = [].
Proof.
  unfold drain.
  assert (H0 : microtasks (set_microtasks [] w) = []) by reflexivity.
  revert H0. generalize (set_microtasks [] w).
  induction (microtasks w) as [ | t l IH]; intros w0 H0; cbn [fold_left].
  - exact H0.
  - apply IH. rewrite run_reaction_world. exact H0.
Qed.

Lemma drain_nothing (w : World) : microtasks w = [] -> drain w = w.
Proof.
  unfold drain. intros H. rewrite H. cbn [fold_left].
  destruct w. cbn in H. subst. reflexivity.
Qed.

Lemma drain_transcripts (w : World) :
  currentInputTransRef (drain w) = currentInputTransRef w /\
  currentOutputTransRef (drain w) = currentOutputTransRef w /\
  messages (drain w) = messages w.
Proof.
  apply (drain_preserves
           (fun w' => currentInputTransRef w' = currentInputTransRef w /\
                      currentOutputTransRef w' = currentOutputTransRef w /\
                      messages w' = messages w));
    [intros w0 t H; exact H | intros w0 q H; exact H | ].
  repeat split.
Qed.

Lemma run_app (pre post : list Event) (w : World) :
  run (pre ++ post) w = run post (run pre w).
Proof. apply fold_left_app. Qed.

Lemma run_cons (e : Event) (events : list Event) (w : World) :
  run (e :: events) w = run events (dispatch w e).
Proof. reflexivity. Qed.

(** ** Turns *)

(** A message without audio, dispatched. *)
Lemma dispatch_message (isMuted : bool) (currentTime : Q)
    (message : LiveServerMessage) (w : World) :
  audioData message = None ->
  let w' := dispatch w (Message isMuted currentTime message) in
  let input := currentInputTransRef w
               ++ delta_text (inputTranscription message) in
  let output := currentOutputTransRef w
                ++ delta_text (outputTranscription message) in
  currentInputTransRef w'
  = (if is_true (turnComplete message) then after_commit input else input) /\
  currentOutputTransRef w'
  = (if is_true (turnComplete message) then after_commit output
     else output) /\
  messages w'
  = messages w
    ++ (if is_true (turnComplete message)
        then committed user input ++ committed model output
        else []).
Proof.
  intros Ha. cbv zeta. unfold dispatch. cbn [handler].
  destruct (onmessage_no_audio isMuted currentTime message w Ha) as [w1 E].
  rewrite E. cbn [snd].
  destruct (drain_transcripts w1) as (-> & -> & ->).
  exact (onmessage_transcripts _ _ _ _ _ E).
Qed.

(** Output deltas pile up in the output buffer, in arrival order. *)
Lemma run_output_deltas (isMuted : bool) (currentTime : Q)
    (deltas : list jsstring) :
  forall w,
    let w' := run (map (fun t => Message isMuted currentTime
                                   (OutputTranscriptDelta t)) deltas) w in
    currentInputTransRef w' = currentInputTransRef w /\
    currentOutputTransRef w' = currentOutputTransRef w ++ List.concat deltas /\
    messages w' = messages w.
Proof.
  induction deltas as [ | t deltas IH]; intros w; cbv zeta.
  - cbn. rewrite app_nil_r. repeat split.
  - cbn [map]. rewrite run_cons.
    destruct (dispatch_message isMuted currentTime (OutputTranscriptDelta t)
                w eq_refl) as (Hi & Ho & Hm).
    cbn [OutputTranscriptDelta inputTranscription outputTranscription
         turnComplete is_true delta_text] in Hi, Ho, Hm.
    rewrite app_nil_r in Hi, Hm.
    destruct (IH (dispatch w (Message isMuted currentTime
                                (OutputTranscriptDelta t))))
      as (Hi' & Ho' & Hm').
    rewrite Hi', Ho', Hm', Hi, Ho, Hm. cbn [List.concat].
    rewrite <- app_assoc. repeat split.
Qed.

(** C2, as the code has it.  Deltas [input:"Hello"] and
    [output:"Hi there"] followed by a TurnComplete marker add exactly two
    messages to the history, [{user,"Hello"}] then [{model,"Hi there"}].
    When only the output buffer received deltas and their text does not
    trim to the empty string, the marker adds exactly one message, of role
    model; when that text is whitespace only, it adds none.  When neither
    buffer received deltas, the history is unchanged.  For every
    TurnComplete where both buffers trim to non-empty, the user message is
    appended before the model message. *)
Theorem turnComplete_commit_order :
  (forall isMuted t1 t2 t3 w,
     currentInputTransRef w = [] ->
     currentOutputTransRef w = [] ->
     messages
       (run [Message isMuted t1 (InputTranscriptDelta (js "Hello"));
             Message isMuted t2 (OutputTranscriptDelta (js "Hi there"));
             Message isMuted t3 TurnComplete] w)
     = messages w ++ [mkChatMessage user (js "Hello");
                      mkChatMessage model (js "Hi there")]) /\
  (forall isMuted t deltas w,
     currentInputTransRef w = [] ->
     currentOutputTransRef w = [] ->
     let w' := run (map (fun d => Message isMuted t (OutputTranscriptDelta d))
                      deltas
                    ++ [Message isMuted t TurnComplete]) w in
     (trim (List.concat deltas) <> [] ->
      messages w'
      = messages w ++ [mkChatMessage model (trim (List.concat deltas))]) /\
     (trim (List.concat deltas) = [] -> messages w' = messages w)) /\
  (forall isMuted t w,
     currentInputTransRef w = [] ->
     currentOutputTransRef w = [] ->
     messages (dispatch w (Message isMuted t TurnComplete)) = messages w) /\
  (forall isMuted t message w w',
     is_true (turnComplete message) = true ->
     onmessage isMuted t message w = (Normal tt, w') ->
     let input := currentInputTransRef w
                  ++ delta_text (inputTranscription message) in
     let output := currentOutputTransRef w
                   ++ delta_text (outputTranscription message) in
     trim input <> [] ->
     trim output <> [] ->
     messages w'
     = messages w ++ [mkChatMessage user (trim input);
                      mkChatMessage model (trim output)]).
Proof.
  split; [|split; [|split]].
  - intros isMuted t1 t2 t3 w Hi Ho. rewrite !run_cons. cbn [run fold_left].
    destruct (dispatch_message isMuted t1 (InputTranscriptDelta (js "Hello"))
                w eq_refl) as (Hi1 & Ho1 & Hm1).
    set (w1 := dispatch w _) in *.
    destruct (dispatch_message isMuted t2
                (OutputTranscriptDelta (js "Hi there")) w1 eq_refl)
      as (Hi2 & Ho2 & Hm2).
    set (w2 := dispatch w1 _) in *.
    destruct (dispatch_message isMuted t3 TurnComplete w2 eq_refl)
      as (_ & _ & Hm3).
    rewrite Hm3, Hm2, Hm1, Hi2, Ho2, Hi1, Ho1, Hi, Ho.
    cbn [InputTranscriptDelta OutputTranscriptDelta TurnComplete
         inputTranscription outputTranscription turnComplete is_true
         delta_text app].
    rewrite !app_nil_r. reflexivity.
  - intros isMuted t deltas w Hi Ho. cbv zeta. rewrite run_app.
    destruct (run_output_deltas isMuted t deltas w) as (Hi1 & Ho1 & Hm1).
    set (w1 := run (map _ deltas) w) in *.
    cbn [run fold_left].
    destruct (dispatch_message isMuted t TurnComplete w1 eq_refl)
      as (_ & _ & Hm2).
    rewrite Hm2, Hm1, Hi1, Ho1, Hi, Ho.
    cbn [TurnComplete inputTranscription outputTranscription turnComplete
         is_true delta_text app].
    rewrite !app_nil_r. unfold committed.
    change (truthy (trim [])) with false. cbn [app].
    split; intros H.
    + apply truthy_true in H. rewrite H. reflexivity.
    + apply truthy_false in H. rewrite H. apply app_nil_r.
  - intros isMuted t w Hi Ho.
    destruct (dispatch_message isMuted t TurnComplete w eq_refl)
      as (_ & _ & Hm).
    rewrite Hm, Hi, Ho. cbn. apply app_nil_r.
  - intros isMuted t message w w' Htc E input output Hin Hout.
    destruct (onmessage_transcripts _ _ _ _ _ E) as (_ & _ & Hm).
    rewrite Hm, Htc. fold input output. unfold committed.
    apply truthy_true in Hin, Hout. rewrite Hin, Hout. reflexivity.
Qed.

Lemma turnComplete_commit_order_witness :
  messages
    (run [Message false 0 (InputTranscriptDelta (js "Hello"));
          Message false (1 # 2) (OutputTranscriptDelta (js "Hi there"));
          Message false 1 TurnComplete] initial)
  = [mkChatMessage user (js "Hello"); mkChatMessage model (js "Hi there")] /\
  messages
    (run (map (fun d => Message false 0 (OutputTranscriptDelta d))
            [js " Hi"; js " there "]
          ++ [Message false 0 TurnComplete]) initial)
  = [mkChatMessage model (js "Hi there")] /\
  messages (dispatch initial (Message false 0 TurnComplete)) = [] /\
  exists w',
    onmessage false 0
      (mkMessage None (Some (js " you?")) (Some (js "Fine. ")) (Some true))
      (set_currentInputTransRef (js "How are") initial)
    = (Normal tt, w') /\
    messages w' = [mkChatMessage user (js "How are you?");
                   mkChatMessage model (js "Fine.")].
Proof.
  destruct turnComplete_commit_order as (H1 & H2 & H3 & H4).
  split; [|split; [|split]].
  - exact (H1 false 0%Q (1 # 2)%Q 1%Q initial eq_refl eq_refl).
  - apply (proj1 (H2 false 0%Q [js " Hi"; js " there "] initial
                    eq_refl eq_refl)).
    discriminate.
  - exact (H3 false 0%Q initial eq_refl eq_refl).
  - eexists. split; [reflexivity|].
    refine (H4 false 0%Q
              (mkMessage None (Some (js " you?")) (Some (js "Fine. "))
                 (Some true))
              (set_currentInputTransRef (js "How are") initial)
              _ eq_refl eq_refl _ _); discriminate.
Defined.

(** Only the output buffer receives a delta, a single space: the marker
    adds no message at all. *)
Lemma blank_output_commits_nothing :
  let w := run [Message false 0 (OutputTranscriptDelta (js " "));
                Message false 0 TurnComplete] initial in
  currentInputTransRef initial = [] /\
  currentOutputTransRef initial = [] /\
  messages w = messages initial /\
  ~ (exists m, messages w = messages initial ++ [m]).
Proof.
  cbv zeta. split; [reflexivity|]. split; [reflexivity|].
  split; [reflexivity|].
  intros [m H]. discriminate H.
Qed.

(** ** The buffers between turns *)

Lemma handler_transcripts (e : Event) (v : jsstring * jsstring) :
  (forall isMuted t message, e <> Message isMuted t message) ->
  preserves
    (fun w => (currentInputTransRef w, currentOutputTransRef w) = v)
    (handler e).
Proof.
  intros He.
  destruct e; cbn [handler];
    try (exfalso; eapply He; reflexivity);
    unfold_handlers; frame.
Qed.

Lemma handler_keeps_transcripts (e : Event) (w : World) :
  (forall isMuted t message, e <> Message isMuted t message) ->
  currentInputTransRef (snd (handler e w)) = currentInputTransRef w /\
  currentOutputTransRef (snd (handler e w)) = currentOutputTransRef w.
Proof.
  intros He.
  pose proof (handler_transcripts e (_, _) He w eq_refl) as H.
  cbv beta in H. injection H as -> ->. split; reflexivity.
Qed.

Lemma delta_text_falsy (o : option jsstring) :
  truthy_opt o = false -> delta_text o = [].
Proof.
  destruct o as [[ | c s] | ]; cbn; congruence.
Qed.

Lemma dispatch_keeps_blank_input (w : World) (e : Event) :
  trim (currentInputTransRef w) = [] ->
  input_delta e = false ->
  currentInputTransRef (dispatch w e) = currentInputTransRef w.
Proof.
  intros Hb He. unfold dispatch.
  destruct (drain_transcripts (snd (handler e w))) as (-> & _ & _).
  destruct e;
    try (apply (handler_keeps_transcripts _ w); intros; discriminate).
  cbn [handler input_delta] in *.
  destruct (onmessage isMuted currentTime message w) as [[[] | x] w'] eqn:E.
  - destruct (onmessage_transcripts _ _ _ _ _ E) as (Hi & _).
    cbn [snd]. rewrite Hi, (delta_text_falsy _ He), app_nil_r.
    destruct (is_true (turnComplete message)); [|reflexivity].
    apply after_commit_of_blank, Hb.
  - apply onmessage_throws in E. subst w'. reflexivity.
Qed.

Lemma dispatch_keeps_blank_output (w : World) (e : Event) :
  trim (currentOutputTransRef w) = [] ->
  output_delta e = false ->
  currentOutputTransRef (dispatch w e) = currentOutputTransRef w.
Proof.
  intros Hb He. unfold dispatch.
  destruct (drain_transcripts (snd (handler e w))) as (_ & -> & _).
  destruct e;
    try (apply (handler_keeps_transcripts _ w); intros; discriminate).
  cbn [handler output_delta] in *.
  destruct (onmessage isMuted currentTime message w) as [[[] | x] w'] eqn:E.
  - destruct (onmessage_transcripts _ _ _ _ _ E) as (_ & Ho & _).
    cbn [snd]. rewrite Ho, (delta_text_falsy _ He), app_nil_r.
    destruct (is_true (turnComplete message)); [|reflexivity].
    apply after_commit_of_blank, Hb.
  - apply onmessage_throws in E. subst w'. reflexivity.
Qed.

(** C6, as the code has it.  Whatever the two transcript buffers hold,
    a TurnComplete marker that is handled to its end empties each buffer
    whose content trims to a non-empty text and leaves a whitespace-only
    buffer as it is: afterwards both buffers trim to the empty string.
    From then on a buffer stays as it is, hence blank, until an event
    brings its next delta; at mount both buffers are empty. *)
Theorem turnComplete_blanks_buffers :
  (forall isMuted t message w w',
     is_true (turnComplete message) = true ->
     onmessage isMuted t message w = (Normal tt, w') ->
     let input := currentInputTransRef w
                  ++ delta_text (inputTranscription message) in
     let output := currentOutputTransRef w
                   ++ delta_text (outputTranscription message) in
     currentInputTransRef w' = (if truthy (trim input) then [] else input) /\
     currentOutputTransRef w'
     = (if truthy (trim output) then [] else output) /\
     trim (currentInputTransRef w') = [] /\
     trim (currentOutputTransRef w') = []) /\
  (forall events w,
     trim (currentInputTransRef w) = [] ->
     Forall (fun e => input_delta e = false) events ->
     currentInputTransRef (run events w) = currentInputTransRef w) /\
  (forall events w,
     trim (currentOutputTransRef w) = [] ->
     Forall (fun e => output_delta e = false) events ->
     currentOutputTransRef (run events w) = currentOutputTransRef w) /\
  currentInputTransRef initial = [] /\
  currentOutputTransRef initial = [].
Proof.
  split; [|split; [|split; [|split; reflexivity]]].
  - intros isMuted t message w w' Htc E input output.
    destruct (onmessage_transcripts _ _ _ _ _ E) as (Hi & Ho & _).
    rewrite Htc in Hi, Ho. fold input in Hi. fold output in Ho.
    split; [exact Hi|]. split; [exact Ho|].
    rewrite Hi, Ho. split; apply after_commit_blank.
  - intros events. induction events as [ | e events IH]; intros w Hb He.
    + reflexivity.
    + rewrite run_cons. inversion He as [ | ? ? He1 He2]; subst.
      pose proof (dispatch_keeps_blank_input w e Hb He1) as Hk.
      rewrite IH; [exact Hk | rewrite Hk; exact Hb | exact He2].
  - intros events. induction events as [ | e events IH]; intros w Hb He.
    + reflexivity.
    + rewrite run_cons. inversion He as [ | ? ? He1 He2]; subst.
      pose proof (dispatch_keeps_blank_output w e Hb He1) as Hk.
      rewrite IH; [exact Hk | rewrite Hk; exact Hb | exact He2].
Qed.

Lemma turnComplete_blanks_buffers_witness :
  (exists w',
     onmessage false 0 TurnComplete
       (set_currentOutputTransRef (js "  ")
          (set_currentInputTransRef (js " Hello ") initial))
     = (Normal tt, w') /\
     currentInputTransRef w' = [] /\
     currentOutputTransRef w' = js "  " /\
     trim (currentInputTransRef w') = [] /\
     trim (currentOutputTransRef w') = []) /\
  currentInputTransRef
    (run [Message false 0 (OutputTranscriptDelta (js "Hi")); Close;
          Disconnect]
       (set_currentInputTransRef (js " ") initial))
  = js " " /\
  currentOutputTransRef
    (run [Message false 0 (InputTranscriptDelta (js "Hi")); Connect true]
       initial)
  = [].
Proof.
  destruct turnComplete_blanks_buffers as (H1 & H2 & H3 & _).
  split; [|split].
  - eexists. split; [reflexivity|].
    exact (H1 false 0%Q TurnComplete
             (set_currentOutputTransRef (js "  ")
                (set_currentInputTransRef (js " Hello ") initial))
             _ eq_refl eq_refl).
  - refine (H2 [Message false 0%Q (OutputTranscriptDelta (js "Hi")); Close;
                Disconnect]
              (set_currentInputTransRef (js " ") initial) eq_refl _).
    repeat constructor.
  - refine (H3 [Message false 0%Q (InputTranscriptDelta (js "Hi"));
                Connect true] initial eq_refl _).
    repeat constructor.
Defined.

(** An input buffer that holds a single space still holds it after the
    TurnComplete marker. *)
Lemma whitespace_buffer_survives_turnComplete :
  let w := run [Message false 0 (InputTranscriptDelta (js " "))] initial in
  currentInputTransRef w = js " " /\
  (exists w', onmessage false 0 TurnComplete w = (Normal tt, w')) /\
  currentInputTransRef (run [Message false 0 TurnComplete] w) = js " " /\
  currentInputTransRef (run [Message false 0 TurnComplete] w) <> [].
Proof.
  cbv zeta. split; [reflexivity|].
  split; [eexists; reflexivity|].
  split; [reflexivity | discriminate].
Qed.

(** ** The committed messages *)

Lemma onmessage_new_messages (isMuted : bool) (currentTime : Q)
    (message : LiveServerMessage) (w : World) :
  let w' := snd (onmessage isMuted currentTime message w) in
  let input := currentInputTransRef w
               ++ delta_text (inputTranscription message) in
  let output := currentOutputTransRef w
                ++ delta_text (outputTranscription message) in
  exists new,
    messages w' = messages w ++ new /\
    Forall (fun m =>
              well_trimmed (text m) /\
              ((role m = user /\ text m = trim input) \/
               (role m = model /\ text m = trim output))) new.
Proof.
  cbv zeta.
  destruct (onmessage isMuted currentTime message w) as [[[] | e] w'] eqn:E;
    cbn [snd].
  - destruct (onmessage_transcripts _ _ _ _ _ E) as (_ & _ & Hm).
    eexists. split; [exact Hm|].
    destruct (is_true (turnComplete message)); [|constructor].
    apply Forall_app. unfold committed. split.
    + destruct (truthy (trim (currentInputTransRef w ++ _))) eqn:Ht;
        constructor; [|constructor].
      cbn [text role]. split; [apply trim_well_trimmed, Ht|].
      left. split; reflexivity.
    + destruct (truthy (trim (currentOutputTransRef w ++ _))) eqn:Ht;
        constructor; [|constructor].
      cbn [text role]. split; [apply trim_well_trimmed, Ht|].
      right. split; reflexivity.
  - apply onmessage_throws in E. subst w'.
    exists []. split; [symmetry; apply app_nil_r | constructor].
Qed.

Lemma handler_messages_trimmed (e : Event) :
  preserves (fun w => Forall (fun m => well_trimmed (text m)) (messages w))
    (handler e).
Proof.
  destruct e; cbn [handler];
    try (unfold_handlers; frame;
         apply preserves_modify; intros w _; constructor).
  intros w Hw.
  destruct (onmessage_new_messages isMuted currentTime message w)
    as (new & -> & Hnew).
  apply Forall_app. split; [exact Hw|].
  eapply Forall_impl; [|exact Hnew]. cbv beta. intros m [Hm _]. exact Hm.
Qed.

Lemma dispatch_messages_trimmed (w : World) (e : Event) :
  Forall (fun m => well_trimmed (text m)) (messages w) ->
  Forall (fun m => well_trimmed (text m)) (messages (dispatch w e)).
Proof.
  intros Hw. unfold dispatch.
  destruct (drain_transcripts (snd (handler e w))) as (_ & _ & ->).
  apply handler_messages_trimmed, Hw.
Qed.

(** C10.  Every message [onmessage] appends to the history has for text
    the trimmed content of its transcript buffer (the input buffer for a
    user message, the output buffer for a model message), and that text is
    non-empty and has no whitespace at either end, whatever the deltas
    were.  So at every moment every message of the history has a
    non-empty text without leading or trailing whitespace. *)
Theorem committed_messages_trimmed :
  (forall isMuted currentTime message w,
     let w' := snd (onmessage isMuted currentTime message w) in
     let input := currentInputTransRef w
                  ++ delta_text (inputTranscription message) in
     let output := currentOutputTransRef w
                   ++ delta_text (outputTranscription message) in
     exists new,
       messages w' = messages w ++ new /\
       Forall (fun m =>
                 well_trimmed (text m) /\
                 ((role m = user /\ text m = trim input) \/
                  (role m = model /\ text m = trim output))) new) /\
  (forall events m,
     In m (messages (run events initial)) ->
     text m <> [] /\
     (forall c r, text m = c :: r -> isWhiteSpace c = false) /\
     (forall c r, text m = r ++ [c] -> isWhiteSpace c = false)).
Proof.
  split; [exact onmessage_new_messages|].
  intros events.
  assert (H : forall w,
             Forall (fun m => well_trimmed (text m)) (messages w) ->
             Forall (fun m => well_trimmed (text m))
                    (messages (run events w))).
  { induction events as [ | e events IH]; intros w Hw; [exact Hw|].
    rewrite run_cons. apply IH, dispatch_messages_trimmed, Hw. }
  specialize (H initial (Forall_nil _)).
  rewrite Forall_forall in H. exact H.
Qed.

Lemma committed_messages_trimmed_witness :
  let m := mkChatMessage user (js "so, hello") in
  In m (messages
          (run [Connect true;
                Message false 0 (InputTranscriptDelta (js "  so,"));
                Message false 0 (InputTranscriptDelta (js " hello  "));
                Message false 0 TurnComplete] initial)) /\
  text m <> [] /\
  (forall c r, text m = c :: r -> isWhiteSpace c = false) /\
  (forall c r, text m = r ++ [c] -> isWhiteSpace c = false).
Proof.
  cbv zeta.
  assert (Hin : In (mkChatMessage user (js "so, hello"))
                  (messages
                     (run [Connect true;
                           Message false 0 (InputTranscriptDelta (js "  so,"));
                           Message false 0
                             (InputTranscriptDelta (js " hello  "));
                           Message false 0 TurnComplete] initial))).
  { left. reflexivity. }
  split; [exact Hin|].
  exact (proj2 committed_messages_trimmed _ _ Hin).
Defined.

End Transcripts.

(* ================================================================== *)
(** * Teardown *)
(* ================================================================== *)

Section Teardown.

Lemma forEach_stop (l : list AudioBufferSourceNode) (w : World) :
  Forall started l ->
  forEach stop l w
  = (Normal tt, set_trace (trace w ++ map stop_effect l) w).
Proof.
  intros Hl. revert w.
  induction Hl as [ | s l Hs _ IH]; intros w.
  - cbn [forEach map]. rewrite app_nil_r. destruct w. reflexivity.
  - cbn [forEach map]. unfold bind, stop at 1.
    destruct (source_start s) as [t | ] eqn:Es;
      [|exfalso; apply Hs, Es].
    cbn. rewrite IH. cbn [trace set_trace].
    rewrite <- app_assoc. reflexivity.
Qed.

Lemma filter_stops (l : list AudioBufferSourceNode) :
  filter is_playback (map stop_effect l) = map stop_effect l.
Proof.
  induction l as [ | s l IH]; [reflexivity|].
  cbn. rewrite IH. reflexivity.
Qed.

(** ** Rules of the triples *)

Lemma hoare_ret {A} (a : A) (Q : A -> World -> Prop) :
  hoare (Q a) (ret a) Q.
Proof. intros w H. exists a, w. split; [reflexivity | exact H]. Qed.

Lemma hoare_gets {A} (f : World -> A) (Q : A -> World -> Prop) :
  hoare (fun w => Q (f w) w) (gets f) Q.
Proof. intros w H. exists (f w), w. split; [reflexivity | exact H]. Qed.

Lemma hoare_modify (f : World -> World) (Q : unit -> World -> Prop) :
  hoare (fun w => Q tt (f w)) (modify f) Q.
Proof. intros w H. exists tt, (f w). split; [reflexivity | exact H]. Qed.

Lemma hoare_bind {A B} (P : World -> Prop) (R : A -> World -> Prop)
    (Q : B -> World -> Prop) (m : M A) (k : A -> M B) :
  hoare P m R -> (forall a, hoare (R a) (k a) Q) -> hoare P (bind m k) Q.
Proof.
  intros Hm Hk w H. destruct (Hm w H) as (a & w1 & E & HR).
  destruct (Hk a w1 HR) as (b & w2 & E2 & HQ).
  exists b, w2. split; [|exact HQ]. unfold bind. rewrite E. exact E2.
Qed.

Lemma hoare_pre {A} (P P' : World -> Prop) (m : M A)
    (Q : A -> World -> Prop) :
  (forall w, P w -> P' w) -> hoare P' m Q -> hoare P m Q.
Proof. intros HP Hm w H. apply Hm, HP, H. Qed.

Lemma hoare_option {A B} (o : option A) (P1 : A -> World -> Prop)
    (P2 : World -> Prop) (m1 : A -> M B) (m2 : M B)
    (Q : B -> World -> Prop) :
  (forall s, hoare (P1 s) (m1 s) Q) -> hoare P2 m2 Q ->
  hoare (match o with Some s => P1 s | None => P2 end)
        (match o with Some s => m1 s | None => m2 end) Q.
Proof. intros H1 H2. destruct o; [apply H1 | exact H2]. Qed.

Lemma hoare_forEach_stop (l : list AudioBufferSourceNode)
    (Q : unit -> World -> Prop) :
  hoare (fun w => Forall started l /\
                  Q tt (set_trace (trace w ++ map stop_effect l) w))
        (forEach stop l) Q.
Proof.
  intros w [Hl HQ]. exists tt. eexists.
  split; [apply forEach_stop, Hl | exact HQ].
Qed.

(** [promise.then] returns; it changes at most the promise, the microtask
    queue and the effects, to which it adds no call of [start] or
    [stop]. *)
Lemma hoare_promise_then (p : nat) (r : Reaction)
    (Q : unit -> World -> Prop) :
  hoare (fun w => forall ps q t,
           filter is_playback t = filter is_playback (trace w) ->
           Q tt (set_trace t (set_microtasks q (set_promises ps w))))
        (promise_then p r) Q.
Proof.
  intros w H. exists tt. unfold promise_then. rewrite bind_gets.
  destruct (nth_error (promises w) p) as [[rs | | ] | ]; eexists.
  - split; [reflexivity|].
    specialize (H (update_nth p (Pending (rs ++ [r])) (promises w))
                  (microtasks w) (trace w) eq_refl).
    destruct w. exact H.
  - split; [reflexivity|].
    specialize (H (promises w) (microtasks w ++ [(p, r)]) (trace w) eq_refl).
    destruct w. exact H.
  - split; [reflexivity|].
    assert (Ht : filter is_playback (trace w ++ [UnhandledRejection p])
                 = filter is_playback (trace w)).
    { rewrite filter_app. apply app_nil_r. }
    specialize (H (promises w) (microtasks w) _ Ht).
    destruct w. exact H.
  - split; [reflexivity|].
    specialize (H (promises w) (microtasks w) (trace w) eq_refl).
    destruct w. exact H.
Qed.

(** Works a triple backwards, from the postcondition to the weakest
    precondition of the handler. *)
Ltac wp :=
  lazymatch goal with
  | |- hoare _ (bind _ _) _ =>
      eapply hoare_bind; [ | intros ?; wp ]; wp
  | |- hoare ?P (ret ?a) ?Q =>
      let P' := eval cbv beta in (Q a) in
      unify P P'; exact (hoare_ret a Q)
  | |- hoare ?P (gets ?f) ?Q =>
      let P' := eval cbv beta in (fun w => Q (f w) w) in
      unify P P'; exact (hoare_gets f Q)
  | |- hoare ?P (modify ?f) ?Q =>
      let P' := eval cbv beta in (fun w => Q tt (f w)) in
      unify P P'; exact (hoare_modify f Q)
  | |- hoare _ (effect _) _ => unfold effect; wp
  | |- hoare ?P (promise_then ?p ?r) ?Q =>
      let P' := eval cbv beta in
        (fun w => forall ps q t,
           filter is_playback t = filter is_playback (trace w) ->
           Q tt (set_trace t (set_microtasks q (set_promises ps w)))) in
      unify P P'; exact (hoare_promise_then p r Q)
  | |- hoare ?P (forEach stop ?l) ?Q =>
      let P' := eval cbv beta in
        (fun w => Forall started l /\
                  Q tt (set_trace (trace w ++ map stop_effect l) w)) in
      unify P P'; exact (hoare_forEach_stop l Q)
  | |- hoare _ (match ?o with Some _ => _ | None => _ end) _ =>
      eapply (hoare_option o); [ intros ?; wp | wp ]
  end.

(** A guarded release, [if (ref.current) { body; ref.current = null }],
    followed by the rest of the handler. *)
Lemma hoare_release_then {A B} (ref : World -> option A) (body : A -> M unit)
    (rest : M B) (P Q : World -> Prop) (R : B -> World -> Prop) :
  (forall s, hoare P (body s) (fun _ => Q)) ->
  (forall w, P w -> ref w = None -> Q w) ->
  hoare Q rest R ->
  hoare P
    (x <- gets ref;;
     (match x with Some s => body s | None => ret tt end);;
     rest) R.
Proof.
  intros Hbody Hnone Hrest w HP. rewrite bind_gets.
  destruct (ref w) as [s | ] eqn:E.
  - destruct (Hbody s w HP) as ([] & w1 & E1 & HQ).
    destruct (Hrest w1 HQ) as (b & w2 & E2 & HR).
    exists b, w2. split; [|exact HR]. unfold bind. rewrite E1. exact E2.
  - destruct (Hrest w (Hnone w HP E)) as (b & w2 & E2 & HR).
    exists b, w2. split; [|exact HR]. exact E2.
Qed.

Ltac stage_step :=
  unfold teardown_stage; cbn;
  rewrite ?filter_app; cbn [filter is_playback]; rewrite ?app_nil_r;
  intuition (try lia; try congruence);
  try match goal with
      | H : (_ <= _)%nat -> ?G |- ?G => apply H; lia
      end.

(** What [disconnect] does to a world whose live sources were all
    started. *)
Lemma disconnect_spec (w : World) :
  Forall started (sourcesRef w) ->
  exists w',
    disconnect w = (Normal tt, w') /\
    released w' /\
    isConnected w' = false /\
    nextStartTimeRef w' = nextStartTimeRef w /\
    filter is_playback (trace w')
    = filter is_playback (trace w) ++ map stop_effect (sourcesRef w).
Proof.
  intros Hs.
  set (stage := teardown_stage (sourcesRef w) (nextStartTimeRef w)
                  (filter is_playback (trace w))).
  assert (H : hoare (stage 0%nat) disconnect
                (fun _ w' =>
                   released w' /\
                   isConnected w' = false /\
                   nextStartTimeRef w' = nextStartTimeRef w /\
                   filter is_playback (trace w')
                   = filter is_playback (trace w)
                     ++ map stop_effect (sourcesRef w))).
  { unfold disconnect.
    apply (hoare_release_then _ _ _ (stage 0%nat) (stage 1%nat)).
    { intros p. eapply hoare_pre; [ | wp ].
      subst stage. intros w0 H0 ps q t Ht. revert H0. stage_step. }
    { subst stage. intros w0. stage_step. }
    apply (hoare_release_then _ _ _ (stage 1%nat) (stage 2%nat)).
    { intros s. eapply hoare_pre; [ | wp ].
      subst stage. intros w0. stage_step. }
    { subst stage. intros w0. stage_step. }
    apply (hoare_release_then _ _ _ (stage 2%nat) (stage 3%nat)).
    { intros s. eapply hoare_pre; [ | wp ].
      subst stage. intros w0. stage_step. }
    { subst stage. intros w0. stage_step. }
    apply (hoare_release_then _ _ _ (stage 3%nat) (stage 4%nat)).
    { intros s. eapply hoare_pre; [ | wp ].
      subst stage. intros w0. stage_step. }
    { subst stage. intros w0. stage_step. }
    apply (hoare_release_then _ _ _ (stage 4%nat) (stage 5%nat)).
    { intros s. eapply hoare_pre; [ | wp ].
      subst stage. intros w0. stage_step. }
    { subst stage. intros w0. stage_step. }
    eapply hoare_pre; [ | wp ].
    subst stage. intros w0 (HS & HN & HT & H1 & H2 & H3 & H4 & H5).
    unfold released. cbn. rewrite HS, filter_app, filter_stops, HT.
    repeat split; auto;
      match goal with
      | H : (_ <= _)%nat -> ?G |- ?G => apply H; lia
      end. }
  destruct (H w) as ([] & w' & E & HQ).
  { subst stage. unfold teardown_stage.
    repeat split; intros; lia. }
  exists w'. split; [exact E | exact HQ].
Qed.

(** On a world that holds nothing, [disconnect] changes nothing. *)
Lemma disconnect_released (w : World) :
  released w -> isConnected w = false -> disconnect w = (Normal tt, w).
Proof.
  destruct w. unfold released. cbn.
  intros (-> & -> & -> & -> & -> & ->) ->. reflexivity.
Qed.

(** ** The live set holds started sources only *)

Lemma Set_add_started (s : AudioBufferSourceNode)
    (l : list AudioBufferSourceNode) :
  started s -> Forall started l -> Forall started (Set_add s l).
Proof.
  intros Hs Hl. unfold Set_add.
  destruct (existsb (same_source (source_id s)) l); [exact Hl|].
  apply Forall_app. split; [exact Hl|]. constructor; [exact Hs|constructor].
Qed.

Lemma Set_delete_started (id : nat) (l : list AudioBufferSourceNode) :
  Forall started l -> Forall started (Set_delete id l).
Proof.
  intros Hl. unfold Set_delete. rewrite Forall_forall in *.
  intros s Hs. apply filter_In in Hs. apply Hl, Hs.
Qed.

Lemma handler_sources_started (e : Event) :
  preserves (fun w => Forall started (sourcesRef w)) (handler e).
Proof.
  destruct e; cbn [handler]; unfold_handlers.
  5: { intros w Hw. rewrite onmessage_unfold.
       assert (Ht : preserves (fun w => Forall started (sourcesRef w))
                      (handleTranscripts message))
         by (unfold handleTranscripts; frame).
       destruct (handleAudio_cases isMuted currentTime message w)
         as [[e E] | [E | (n & E)]]; rewrite E.
       - exact Hw.
       - apply Ht, Hw.
       - apply Ht. apply Set_add_started; [discriminate | exact Hw]. }
  all: frame; apply preserves_modify; intros w Hw;
    cbn [sourcesRef set_sourcesRef].
  - apply Set_delete_started, Hw.
  - constructor.
  - constructor.
Qed.

Lemma dispatch_sources_started (w : World) (e : Event) :
  Forall started (sourcesRef w) ->
  Forall started (sourcesRef (dispatch w e)).
Proof.
  intros Hw. unfold dispatch.
  apply (drain_preserves (fun w => Forall started (sourcesRef w)));
    [intros w0 t H; exact H | intros w0 q H; exact H | ].
  apply handler_sources_started, Hw.
Qed.

Lemma run_sources_started (events : list Event) :
  forall w, Forall started (sourcesRef w) ->
            Forall started (sourcesRef (run events w)).
Proof.
  induction events as [ | e events IH]; intros w Hw; [exact Hw|].
  rewrite run_cons. apply IH, dispatch_sources_started, Hw.
Qed.

(** C9.  From every world whose live sources were all started, and so
    from every world the component can reach, whichever of the session,
    stream, processor, input source and audio context it holds,
    [disconnect] returns without throwing; after it every one of these
    references is null and the live set is empty; and a second
    [disconnect] right after returns without throwing as well and changes
    nothing, so that two teardowns in a row leave the component where one
    leaves it. *)
Theorem disconnect_idempotent :
  (forall w,
     Forall started (sourcesRef w) ->
     exists w',
       disconnect w = (Normal tt, w') /\
       sessionRef w' = None /\ streamRef w' = None /\
       processorRef w' = None /\ inputSourceRef w' = None /\
       audioContextRef w' = None /\ sourcesRef w' = [] /\
       disconnect w' = (Normal tt, w')) /\
  (forall events, Forall started (sourcesRef (run events initial))) /\
  (forall events,
     exists w',
       disconnect (run events initial) = (Normal tt, w') /\
       released w' /\
       disconnect w' = (Normal tt, w')) /\
  (forall events,
     run (events ++ [Disconnect; Disconnect]) initial
     = run (events ++ [Disconnect]) initial).
Proof.
  assert (H : forall w,
             Forall started (sourcesRef w) ->
             exists w',
               disconnect w = (Normal tt, w') /\
               released w' /\
               disconnect w' = (Normal tt, w')).
  { intros w Hw.
    destruct (disconnect_spec w Hw) as (w' & E & Hr & Hc & _).
    exists w'. split; [exact E|]. split; [exact Hr|].
    apply disconnect_released; assumption. }
  assert (Hreach : forall events,
             Forall started (sourcesRef (run events initial))).
  { intros events. apply run_sources_started. constructor. }
  split; [|split; [|split]].
  - intros w Hw. destruct (H w Hw) as (w' & E & Hr & E2).
    exists w'. unfold released in Hr. tauto.
  - exact Hreach.
  - intros events. apply H, Hreach.
  - intros events. rewrite !run_app.
    pose proof (Hreach events) as Hw.
    set (w := run events initial) in *.
    change (dispatch (dispatch w Disconnect) Disconnect
            = dispatch w Disconnect).
    destruct (disconnect_spec w Hw) as (w' & E & Hr & Hc & _).
    assert (Hd : dispatch w Disconnect = drain w').
    { unfold dispatch. cbn [handler]. rewrite E. reflexivity. }
    rewrite Hd. unfold dispatch at 1. cbn [handler].
    assert (H1 : released (drain w') /\ isConnected (drain w') = false).
    { apply (drain_preserves
               (fun w0 => released w0 /\ isConnected w0 = false));
        [intros w0 t H0; exact H0 | intros w0 q H0; exact H0 | ].
      split; assumption. }
    rewrite (disconnect_released (drain w') (proj1 H1) (proj2 H1)).
    cbn [snd]. apply drain_nothing, drain_microtasks.
Qed.

Lemma disconnect_idempotent_witness :
  let w := snd (schedulePlayback 0 (1 # 2) (snd (connect false initial))) in
  Forall started (sourcesRef w) /\
  exists w',
    disconnect w = (Normal tt, w') /\
    sessionRef w' = None /\ streamRef w' = None /\
    processorRef w' = None /\ inputSourceRef w' = None /\
    audioContextRef w' = None /\ sourcesRef w' = [] /\
    disconnect w' = (Normal tt, w').
Proof.
  cbv zeta.
  assert (Hw : Forall started
                 (sourcesRef
                    (snd (schedulePlayback 0 (1 # 2)
                            (snd (connect false initial)))))).
  { vm_compute. repeat constructor. discriminate. }
  split; [exact Hw|].
  exact (proj1 disconnect_idempotent _ Hw).
Defined.

(** ** The cursor across a teardown *)

Lemma connect_resets_cursor (mic : bool) (w : World) :
  nextStartTimeRef (snd (connect mic w)) = 0%Q.
Proof. destruct mic; reflexivity. Qed.

(** C5, as the code has it.  [disconnect] calls [stop] on every source of
    the live set, in the order of the set, and clears the set; it returns
    normally and leaves the cursor [nextStartTimeRef] as it was.  The
    cursor is set to zero by [initAudio], at the start of the next
    [connect]. *)
Theorem disconnect_stops_all_sources :
  (forall w,
     Forall started (sourcesRef w) ->
     exists w',
       disconnect w = (Normal tt, w') /\
       sourcesRef w' = [] /\
       filter is_playback (trace w')
       = filter is_playback (trace w) ++ map stop_effect (sourcesRef w) /\
       nextStartTimeRef w' = nextStartTimeRef w) /\
  (forall w,
     fst (initAudio w) = Normal tt /\
     nextStartTimeRef (snd (initAudio w)) = 0%Q /\
     sourcesRef (snd (initAudio w)) = sourcesRef w) /\
  (forall mic w, nextStartTimeRef (snd (connect mic w)) = 0%Q).
Proof.
  split; [|split].
  - intros w Hw.
    destruct (disconnect_spec w Hw) as (w' & E & Hr & _ & Hn & Ht).
    exists w'. unfold released in Hr. tauto.
  - intros w. repeat split.
  - exact connect_resets_cursor.
Qed.

Lemma disconnect_stops_all_sources_witness :
  let w := run [Connect true; Open 0;
                Message false 0 (AudioChunk (js "AAAAAA=="));
                Message false 0 (AudioChunk (js "AAAA"))] initial in
  Forall started (sourcesRef w) /\
  exists w',
    disconnect w = (Normal tt, w') /\
    sourcesRef w' = [] /\
    filter is_playback (trace w')
    = filter is_playback (trace w) ++ map stop_effect (sourcesRef w) /\
    nextStartTimeRef w' = nextStartTimeRef w.
Proof.
  cbv zeta.
  pose proof (run_sources_started
                [Connect true; Open 0%nat;
                 Message false 0%Q (AudioChunk (js "AAAAAA=="));
                 Message false 0%Q (AudioChunk (js "AAAA"))]
                initial (Forall_nil _)) as Hw.
  split; [exact Hw|].
  exact (proj1 disconnect_stops_all_sources _ Hw).
Defined.

(** After one chunk of two samples was scheduled, [disconnect] empties
    the live set and the cursor still stands at the double nearest to
    2/24000. *)
Lemma disconnect_keeps_cursor :
  let w := run [Connect true; Open 0;
                Message false 0 (AudioChunk (js "AAAAAA=="))] initial in
  let w' := run [Disconnect] w in
  sourcesRef w = [mkSource 5 (duration (mkBuffer 2 24000)) (Some 0%Q)] /\
  sourcesRef w' = [] /\
  nextStartTimeRef w' = nextStartTimeRef w /\
  (nextStartTimeRef w' == binary64 (2 # 24000))%Q /\
  ~ (nextStartTimeRef w' == 0)%Q.
Proof.
  cbv zeta. split; [vm_compute; reflexivity|].
  split; [vm_compute; reflexivity|]. split; [vm_compute; reflexivity|].
  split; [vm_compute; reflexivity|]. vm_compute. discriminate.
Qed.

End Teardown.

(* ================================================================== *)
(** * The schedule of a run *)
(* ================================================================== *)

Section Schedule.

Local Open Scope Q_scope.

(** The cursor is written by [initAudio] and by the scheduling step
    only, with zero and with a rounded sum. *)
Lemma handler_cursor_double (e : Event) :
  preserves (fun w => is_binary64 (nextStartTimeRef w)) (handler e).
Proof.
  assert (H0 : is_binary64 0) by reflexivity.
  destruct e; cbn [handler]; unfold_handlers.
  5: { intros w Hw. rewrite onmessage_unfold.
       assert (Ht : preserves (fun w => is_binary64 (nextStartTimeRef w))
                      (handleTranscripts message))
         by (unfold handleTranscripts; frame).
       destruct (handleAudio_cases isMuted currentTime message w)
         as [[e E] | [E | (n & E)]]; rewrite E.
       - exact Hw.
       - apply Ht, Hw.
       - apply Ht, schedulePlayback_double. }
  all: frame; apply preserves_modify; intros w Hw; exact H0.
Qed.

Lemma run_cursor_double (events : list Event) :
  is_binary64 (nextStartTimeRef (run events initial)).
Proof.
  assert (H : forall w, is_binary64 (nextStartTimeRef w) ->
                        is_binary64 (nextStartTimeRef (run events w))).
  { induction events as [ | e events IH]; intros w Hw; [exact Hw|].
    rewrite run_cons. apply IH. unfold dispatch.
    apply (drain_preserves (fun w => is_binary64 (nextStartTimeRef w)));
      [intros w0 t H; exact H | intros w0 q H; exact H | ].
    apply handler_cursor_double, Hw. }
  apply H. reflexivity.
Qed.

(** The sum that moves the cursor is rounded: at the double nearest to
    0.1 a chunk of 4800 samples moves the cursor to 0.30000000000000004,
    not to the exact sum. *)
Lemma schedulePlayback_rounds :
  let now := binary64 (1 # 10) in
  let d := duration (mkBuffer 4800 24000) in
  let w := snd (schedulePlayback now d initial) in
  nextStartTimeRef w == 1351079888211149 # 4503599627370496 /\
  ~ nextStartTimeRef w == now + d /\
  filter is_start (trace w) = [SourceStart 0 now].
Proof.
  cbv zeta. split; [vm_compute; reflexivity|].
  split; [vm_compute; discriminate | vm_compute; reflexivity].
Qed.

(** C1.  For every sequence of playback enqueue operations on doubles,
    each with a non-negative chunk duration and any clock time at the
    call: the operations all return; the chunk of each operation is
    started, by a call of [start], at the maximum of the cursor
    [nextStartTimeRef] at that moment and the clock time, and the cursor
    moves to the double sum of that start and the duration; the calls of
    [start] are those of the sources, in order; the intervals from the
    start to the end the code computes are pairwise non-overlapping and
    non-decreasing in start time, each computed end being within one part
    in [2^53] of the exact sum; and the cursor never decreases along the
    sequence.  A message is handled by at most one such operation, of a
    chunk of positive length, or it is lost as a whole.  A chunk of zero
    length never reaches the scheduler: an empty payload is skipped, and a
    payload that is not empty but carries no byte makes the handler throw
    a NotSupportedError before anything is scheduled or any transcript is
    read.  The cursor of every world the component can reach is a
    double. *)
Theorem playback_schedule_monotone :
  (forall (ops : list (Q * Q)) (w : World),
     is_binary64 (nextStartTimeRef w) ->
     Forall (fun op => is_binary64 (fst op) /\ 0 <= snd op) ops ->
     exists sources w',
       enqueueAll ops w = (Normal sources, w') /\
       List.length sources = List.length ops /\
       (forall pre currentTime d post,
          ops = (pre ++ (currentTime, d) :: post)%list ->
          let cursor := nextStartTimeRef (snd (enqueueAll pre w)) in
          exists s,
            nth_error sources (List.length pre) = Some s /\
            source_start s = Some (Qmax cursor currentTime) /\
            source_duration s = d /\
            nextStartTimeRef
              (snd (enqueueAll (pre ++ [(currentTime, d)]) w))
            = binary64 (Qmax cursor currentTime + d)) /\
       trace w' = (trace w ++ map start_call sources)%list /\
       ForallOrdPairs (fun a b => endTime a <= startTime b) sources /\
       ForallOrdPairs (fun a b => startTime a <= startTime b) sources /\
       Forall (fun s =>
                 Qabs (endTime s - (startTime s + source_duration s))
                 <= Qmax (Qabs (startTime s + source_duration s)
                          * 2 ^ (-53))
                         (2 ^ (-1075))) sources /\
       (forall pre mid post,
          ops = (pre ++ mid ++ post)%list ->
          nextStartTimeRef (snd (enqueueAll pre w))
          <= nextStartTimeRef (snd (enqueueAll (pre ++ mid) w)))) /\
  (forall isMuted currentTime message w,
     (exists e, onmessage isMuted currentTime message w = (Throw e, w)) \/
     onmessage isMuted currentTime message w = handleTranscripts message w \/
     exists n,
       0 < duration (mkBuffer (S n) 24000) /\
       onmessage isMuted currentTime message w
       = handleTranscripts message
           (snd (schedulePlayback currentTime
                   (duration (mkBuffer (S n) 24000)) w))) /\
  (forall currentTime message w data,
     audioData message = Some data ->
     base64ToUint8Array data = Normal []%list ->
     (data = []%list ->
      forall isMuted,
        onmessage isMuted currentTime message w
        = handleTranscripts message w) /\
     (data <> []%list ->
      audioContextRef w <> None ->
      onmessage false currentTime message w
      = (Throw NotSupportedError, w))) /\
  (forall events, is_binary64 (nextStartTimeRef (run events initial))).
Proof.
  split; [|split; [|split; [|exact run_cursor_double]]].
  - intros ops w Hw Hops.
    destruct (enqueueAll_returns ops w) as (sources & w' & E & Hlen).
    exists sources, w'. split; [exact E|]. split; [exact Hlen|].
    destruct (enqueueAll_ordered ops Hops w sources w' Hw E)
      as (_ & Hno & Hst & _).
    split; [|split; [exact (enqueueAll_trace ops w sources w' E)|
             split; [exact Hno|split; [exact Hst|split]]]].
    + intros pre currentTime d post Hsplit cursor.
      destruct (enqueueAll_returns pre w) as (s1 & w1 & E1 & Hl1).
      destruct (enqueueAll_returns post
                  (snd (schedulePlayback currentTime d w1)))
        as (s2 & w2 & E2 & _).
      assert (Eop : enqueueAll ((currentTime, d) :: post) w1
                    = (Normal (mkSource (fresh w1) d
                         (Some (Qmax (nextStartTimeRef w1) currentTime))
                         :: s2), w2)).
      { rewrite enqueueAll_cons. cbv zeta. rewrite E2. reflexivity. }
      pose proof (enqueueAll_app _ _ _ _ _ _ _ E1 Eop) as Eall.
      rewrite <- Hsplit, E in Eall. injection Eall as -> ->.
      assert (Eone : enqueueAll [(currentTime, d)] w1
                     = (Normal [mkSource (fresh w1) d
                          (Some (Qmax (nextStartTimeRef w1) currentTime))],
                        snd (schedulePlayback currentTime d w1))).
      { rewrite enqueueAll_cons. reflexivity. }
      pose proof (enqueueAll_app _ _ _ _ _ _ _ E1 Eone) as Epre.
      subst cursor. rewrite E1, Epre. cbn [snd].
      eexists. split; [|split; [|split]].
      * rewrite <- Hl1, nth_error_app2, Nat.sub_diag by apply Nat.le_refl.
        reflexivity.
      * reflexivity.
      * reflexivity.
      * apply schedulePlayback_cursor.
    + apply Forall_forall. intros s _. unfold endTime.
      apply binary64_error_any.
    + intros pre mid post Hsplit.
      destruct (enqueueAll_returns pre w) as (s1 & w1 & E1 & _).
      destruct (enqueueAll_returns mid w1) as (s2 & w2 & E2 & _).
      rewrite (enqueueAll_app _ _ _ _ _ _ _ E1 E2), E1. cbn [snd].
      assert (Hpre : Forall (fun op => is_binary64 (fst op) /\ 0 <= snd op)
                       pre).
      { rewrite Hsplit in Hops. apply Forall_app in Hops. apply Hops. }
      assert (Hmid : Forall (fun op => is_binary64 (fst op) /\ 0 <= snd op)
                       mid).
      { rewrite Hsplit in Hops.
        apply Forall_app in Hops. destruct Hops as [_ Hops].
        apply Forall_app in Hops. apply Hops. }
      assert (Hw1 : is_binary64 (nextStartTimeRef w1)).
      { clear - Hw Hpre E1. revert w s1 w1 Hw E1.
        induction Hpre as [ | [currentTime d] rest _ _ IH];
          intros w s1 w1 Hw E1.
        - cbn in E1. injection E1 as _ <-. exact Hw.
        - rewrite enqueueAll_cons in E1. cbv zeta in E1.
          destruct (enqueueAll rest
                      (snd (schedulePlayback currentTime d w)))
            as [[srcs | e] w2] eqn:E2; [|discriminate E1].
          injection E1 as _ <-.
          exact (IH _ _ _ (schedulePlayback_double currentTime d w) E2). }
      apply (enqueueAll_ordered mid Hmid w1 s2 w2 Hw1 E2).
  - intros isMuted currentTime message w. rewrite onmessage_unfold.
    destruct (handleAudio_cases isMuted currentTime message w)
      as [[e E] | [E | (n & E)]]; rewrite E.
    + left. exists e. reflexivity.
    + right. left. reflexivity.
    + right. right. exists n. split; [apply duration_positive|].
      reflexivity.
  - intros currentTime message w data Hdata Hbytes. split.
    + intros -> isMuted. rewrite onmessage_unfold.
      rewrite (handleAudio_empty_payload _ _ _ _ Hdata). reflexivity.
    + intros Hne Hctx. rewrite onmessage_unfold.
      rewrite (handleAudio_no_bytes _ _ _ _ Hdata Hne Hctx Hbytes).
      reflexivity.
Qed.

Lemma playback_schedule_monotone_witness :
  let ops := [(0, 1 # 2); (1 # 4, 0); (3, 1 # 3); (2, 1)] in
  let w := run [Connect true] initial in
  is_binary64 (nextStartTimeRef w) /\
  Forall (fun op => is_binary64 (fst op) /\ 0 <= snd op) ops /\
  (exists sources w',
     enqueueAll ops w = (Normal sources, w') /\
     List.length sources = 4%nat /\
     trace w' = (trace w ++ map start_call sources)%list /\
     ForallOrdPairs (fun a b => endTime a <= startTime b) sources /\
     ForallOrdPairs (fun a b => startTime a <= startTime b) sources /\
     nextStartTimeRef (snd (enqueueAll [(0, 1 # 2)] w))
     <= nextStartTimeRef (snd (enqueueAll [(0, 1 # 2); (1 # 4, 0)] w))) /\
  audioData (AudioChunk (js " ")) = Some (js " ") /\
  base64ToUint8Array (js " ") = Normal []%list /\
  onmessage false 5 (AudioChunk (js " ")) w = (Throw NotSupportedError, w).
Proof.
  cbv zeta.
  destruct playback_schedule_monotone as (H1 & _ & H3 & _).
  assert (Hw : is_binary64 (nextStartTimeRef (run [Connect true] initial))).
  { vm_compute. reflexivity. }
  assert (Hops : Forall (fun op => is_binary64 (fst op) /\ 0 <= snd op)
                   [(0, 1 # 2); (1 # 4, 0); (3, 1 # 3); (2, 1)]).
  { repeat constructor; vm_compute; (reflexivity || discriminate). }
  split; [exact Hw|]. split; [exact Hops|].
  split; [|split; [reflexivity|split; [reflexivity|]]].
  - destruct (H1 _ (run [Connect true] initial) Hw Hops)
      as (sources & w' & E & Hlen & _ & Ht & Hno & Hst & _ & Hcur).
    exists sources, w'.
    split; [exact E|]. split; [exact Hlen|]. split; [exact Ht|].
    split; [exact Hno|]. split; [exact Hst|].
    exact (Hcur [(0, 1 # 2)] [(1 # 4, 0)] [(3, 1 # 3); (2, 1)] eq_refl).
  - refine (proj2 (H3 5 (AudioChunk (js " "))
                     (run [Connect true] initial) (js " ")
                     eq_refl eq_refl) _ _);
      vm_compute; discriminate.
Defined.

(** The code does not tolerate a chunk of zero length as a no-op.  The
    payload [" "] is not empty and decodes to no byte: the handler throws
    at [createBuffer], and the turn the same message completes is lost,
    where the message without the payload commits it.  The scheduling
    step itself, were it given a zero duration, would start a source and
    move the cursor to the clock time. *)
Lemma zero_length_chunk_not_tolerated :
  let w := run [Connect true; Open 0] initial in
  let turn := mkMessage None (Some (js "Hi")) None (Some true) in
  let chunk := mkMessage (Some (js " ")) (Some (js "Hi")) None (Some true) in
  base64ToUint8Array (js " ") = Normal []%list /\
  onmessage false 5 chunk w = (Throw NotSupportedError, w) /\
  messages (dispatch w (Message false 5 chunk)) = []%list /\
  currentInputTransRef (dispatch w (Message false 5 chunk)) = []%list /\
  messages (dispatch w (Message false 5 turn))
  = [mkChatMessage user (js "Hi")] /\
  schedule w = (0, []%list, []%list) /\
  nextStartTimeRef (snd (schedulePlayback 5 0 w)) == 5 /\
  sourcesRef (snd (schedulePlayback 5 0 w)) = [mkSource 5 0 (Some 5)] /\
  filter is_playback (trace (snd (schedulePlayback 5 0 w)))
  = [SourceStart 5 5] /\
  ~ schedule (snd (schedulePlayback 5 0 w)) = schedule w.
Proof.
  cbv zeta.
  split; [vm_compute; reflexivity|]. split; [vm_compute; reflexivity|].
  split; [vm_compute; reflexivity|]. split; [vm_compute; reflexivity|].
  split; [vm_compute; reflexivity|]. split; [vm_compute; reflexivity|].
  split; [vm_compute; reflexivity|]. split; [vm_compute; reflexivity|].
  split; [vm_compute; reflexivity|].
  vm_compute. discriminate.
Qed.

End Schedule.

(* ================================================================== *)
(** * Capture frames and the session *)
(* ================================================================== *)

Section Capture.

Lemma nth_error_update_nth {A} (l : list A) (n : nat) (v x : A) :
  nth_error l n = Some x -> nth_error (update_nth n v l) n = Some v.
Proof.
  revert n. induction l as [ | a l IH]; intros [ | n]; cbn; try discriminate.
  - reflexivity.
  - apply IH.
Qed.

(** Without a session handle the handler returns at once. *)
Lemma onaudioprocess_no_session (inputData : list float) (w : World) :
  sessionRef w = None -> onaudioprocess inputData w = (Normal tt, w).
Proof.
  intros H. unfold onaudioprocess. rewrite bind_gets, H. reflexivity.
Qed.

(** On a pending promise the frame joins the queued reactions. *)
Lemma onaudioprocess_pending (inputData : list float) (w : World) (p : nat)
    (rs : list Reaction) :
  sessionRef w = Some p ->
  nth_error (promises w) p = Some (Pending rs) ->
  onaudioprocess inputData w
  = (Normal tt,
     set_promises
       (update_nth p (Pending (rs ++ [frame_reaction inputData]))
          (promises w)) w).
Proof.
  intros Hs Hp. unfold onaudioprocess. rewrite bind_gets, Hs.
  unfold promise_then. rewrite bind_gets, Hp. reflexivity.
Qed.

Lemma run_microtasks (events : list Event) :
  forall w, microtasks w = [] -> microtasks (run events w) = [].
Proof.
  induction events as [ | e events IH]; intros w Hw; [exact Hw|].
  rewrite run_cons. apply IH. unfold dispatch. apply drain_microtasks.
Qed.

Lemma session_opens_pending (w : World) (p : nat) (rs : list Reaction) :
  nth_error (promises w) p = Some (Pending rs) ->
  let w' := snd (session_opens p w) in
  trace w' = trace w /\
  microtasks w' = microtasks w ++ map (pair p) rs /\
  isConnected w' = true.
Proof.
  intros Hp. cbv zeta. unfold session_opens. rewrite bind_gets, Hp.
  repeat split.
Qed.

(** C7, as the code has it.  A capture frame emitted while the component
    holds no session handle (before [connect] has created the session, or
    after [disconnect]) is dropped in silence: the handler returns
    normally and leaves the world as it was, so that nothing is sent,
    queued or reported, and the run goes on exactly as if the frame had
    never been emitted.  A frame emitted during the handshake, while the
    session promise is pending, is queued on the promise and sent to the
    session when it opens, after the reactions queued before it. *)
Theorem frames_without_session_dropped :
  (forall inputData w,
     sessionRef w = None ->
     onaudioprocess inputData w = (Normal tt, w)) /\
  (forall pre inputData post,
     sessionRef (run pre initial) = None ->
     run (pre ++ AudioProcess inputData :: post) initial
     = run (pre ++ post) initial) /\
  (forall inputData w p rs,
     sessionRef w = Some p ->
     nth_error (promises w) p = Some (Pending rs) ->
     microtasks w = [] ->
     let w1 := dispatch w (AudioProcess inputData) in
     trace w1 = trace w /\
     nth_error (promises w1) p
     = Some (Pending (rs ++ [frame_reaction inputData])) /\
     trace (dispatch w1 (Open p))
     = trace w
       ++ map reaction_effect
            (map (pair p) (rs ++ [frame_reaction inputData]))).
Proof.
  split; [exact onaudioprocess_no_session|]. split.
  - intros pre inputData post Hs.
    rewrite !run_app, run_cons. f_equal.
    unfold dispatch. cbn [handler].
    rewrite (onaudioprocess_no_session inputData _ Hs). cbn [snd].
    apply drain_nothing, run_microtasks. reflexivity.
  - intros inputData w p rs Hs Hp Hq. cbv zeta.
    set (w0 := set_promises
                 (update_nth p (Pending (rs ++ [frame_reaction inputData]))
                    (promises w)) w).
    assert (Hq0 : microtasks w0 = []) by exact Hq.
    assert (Hd : dispatch w (AudioProcess inputData) = w0).
    { unfold dispatch. cbn [handler].
      rewrite (onaudioprocess_pending inputData w p rs Hs Hp). cbn [snd].
      apply drain_nothing, Hq0. }
    rewrite Hd.
    assert (Hp0 : nth_error (promises w0) p
                  = Some (Pending (rs ++ [frame_reaction inputData]))).
    { subst w0. cbn [promises set_promises].
      apply (nth_error_update_nth _ _ _ _ Hp). }
    split; [reflexivity|]. split; [exact Hp0|].
    unfold dispatch. cbn [handler]. rewrite drain_trace.
    destruct (session_opens_pending w0 p _ Hp0) as (-> & -> & _).
    rewrite Hq0. reflexivity.
Qed.

Lemma frames_without_session_dropped_witness :
  onaudioprocess [Fin (1 # 2)] initial = (Normal tt, initial) /\
  run ([Connect true; Disconnect]
       ++ AudioProcess [Fin (1 # 2)] :: [Connect true; Open 1]) initial
  = run ([Connect true; Disconnect] ++ [Connect true; Open 1]) initial /\
  let w := run [Connect true] initial in
  let w1 := dispatch w (AudioProcess [Fin (1 # 2)]) in
  trace w1 = trace w /\
  nth_error (promises w1) 0
  = Some (Pending ([] ++ [frame_reaction [Fin (1 # 2)]])) /\
  trace (dispatch w1 (Open 0))
  = trace w
    ++ map reaction_effect
         (map (pair 0%nat) ([] ++ [frame_reaction [Fin (1 # 2)]])).
Proof.
  destruct frames_without_session_dropped as (H1 & H2 & H3).
  split; [|split].
  - apply H1. reflexivity.
  - apply (H2 [Connect true; Disconnect]). vm_compute. reflexivity.
  - apply (H3 [Fin (1 # 2)] (run [Connect true] initial) 0%nat []);
      vm_compute; reflexivity.
Defined.

(** A frame emitted during the handshake, when the session is not open
    yet, is sent once the session opens. *)
Lemma handshake_frame_is_sent :
  let w := run [Connect true] initial in
  let w' := run [AudioProcess [Fin (1 # 2)]; Open 0] w in
  isConnected w = false /\
  nth_error (promises w) 0 = Some (Pending []) /\
  trace w = [] /\
  trace w' = [SessionSend 0 (js "audio/pcm;rate=16000") (js "/z8=")] /\
  In (SessionSend 0 (js "audio/pcm;rate=16000")
        (arrayBufferToBase64
           (Int16Array_buffer (floatTo16BitPCM [Fin (1 # 2)]))))
     (trace w').
Proof.
  vm_compute. repeat split. left. reflexivity.
Qed.

End Capture.

(* ================================================================== *)
(** * The text-safe encoding, there and back *)
(* ================================================================== *)

Section Base64.

(** Induction on a list, three elements at a time. *)
Lemma list_ind3 {A} (P : list A -> Prop) :
  P [] -> (forall a, P [a]) -> (forall a b, P [a; b]) ->
  (forall a b c rest, P rest -> P (a :: b :: c :: rest)) ->
  forall l, P l.
Proof.
  intros H0 H1 H2 H3.
  assert (H : forall n (l : list A), (List.length l <= n)%nat -> P l).
  { induction n as [ | n IH]; intros l Hl.
    - destruct l; [exact H0 | cbn in Hl; lia].
    - destruct l as [ | a [ | b [ | c rest]]]; auto.
      apply H3, IH. cbn in Hl. lia. }
  intros l. apply (H (List.length l)). lia.
Qed.

Lemma below_64 (P : Z -> Prop) :
  (forall n : nat, (n < 64)%nat -> P (Z.of_nat n)) ->
  forall i, 0 <= i < 64 -> P i.
Proof.
  intros H i Hi. rewrite <- (Z2Nat.id i) by lia. apply H. lia.
Qed.

Lemma base64_char_facts (i : Z) :
  0 <= i < 64 ->
  base64_index (base64_char i) = Some i /\
  isAsciiWhitespace (base64_char i) = false /\
  base64_char i <> 61.
Proof.
  revert i. apply below_64. intros n Hn.
  do 64 (destruct n as [ | n];
         [repeat split; try reflexivity; discriminate | ]).
  lia.
Qed.

Lemma btoa_sextets_range (binary : jsstring) :
  Forall is_byte binary ->
  Forall (fun s => 0 <= s < 64) (btoa_sextets binary).
Proof.
  unfold is_byte.
  induction binary as [ | a | a b | a b c rest IH] using list_ind3;
    intros H; cbn [btoa_sextets].
  - constructor.
  - inversion H as [ | ? ? Ha _]; subst.
    repeat constructor; Z.div_mod_to_equations; lia.
  - inversion H as [ | ? ? Ha H1]; subst.
    inversion H1 as [ | ? ? Hb _]; subst.
    repeat constructor; Z.div_mod_to_equations; lia.
  - inversion H as [ | ? ? Ha H1]; subst.
    inversion H1 as [ | ? ? Hb H2]; subst.
    inversion H2 as [ | ? ? Hc H3]; subst.
    repeat (constructor; [Z.div_mod_to_equations; lia | ]).
    apply IH, H3.
Qed.

Lemma btoa_split (binary : jsstring) :
  btoa binary = map base64_char (btoa_sextets binary) ++ btoa_padding binary.
Proof.
  induction binary as [ | a | a b | a b c rest IH] using list_ind3;
    try reflexivity.
  cbn [btoa btoa_sextets btoa_padding map app]. rewrite IH. reflexivity.
Qed.

Lemma sextets_to_bytes_btoa (binary : jsstring) :
  Forall is_byte binary ->
  sextets_to_bytes (btoa_sextets binary) = binary.
Proof.
  unfold is_byte.
  induction binary as [ | a | a b | a b c rest IH] using list_ind3;
    intros H; cbn [btoa_sextets sextets_to_bytes].
  - reflexivity.
  - inversion H as [ | ? ? Ha _]; subst.
    f_equal. Z.div_mod_to_equations; lia.
  - inversion H as [ | ? ? Ha H1]; subst.
    inversion H1 as [ | ? ? Hb _]; subst.
    f_equal; [ | f_equal]; Z.div_mod_to_equations; lia.
  - inversion H as [ | ? ? Ha H1]; subst.
    inversion H1 as [ | ? ? Hb H2]; subst.
    inversion H2 as [ | ? ? Hc H3]; subst.
    rewrite (IH H3).
    f_equal; [ | f_equal; [ | f_equal]]; Z.div_mod_to_equations; lia.
Qed.

Lemma base64_indices_chars (sextets : list Z) :
  Forall (fun s => 0 <= s < 64) sextets ->
  base64_indices (map base64_char sextets) = Some sextets.
Proof.
  induction 1 as [ | s l Hs _ IH]; [reflexivity|].
  cbn [map base64_indices].
  rewrite (proj1 (base64_char_facts s Hs)), IH. reflexivity.
Qed.

Lemma filter_all {A} (f : A -> bool) (l : list A) :
  Forall (fun a => f a = true) l -> filter f l = l.
Proof.
  induction 1 as [ | a l Ha _ IH]; [reflexivity|].
  cbn [filter]. rewrite Ha, IH. reflexivity.
Qed.

Lemma unpad_nil (s : jsstring) : unpad [] s = s.
Proof. reflexivity. Qed.

Lemma unpad_other (h : Z) (t s : jsstring) :
  h <> 61 -> unpad (h :: t) s = s.
Proof.
  intros H. destruct h as [ | p | p]; try reflexivity.
  repeat (destruct p as [p | p | ]; try reflexivity).
  exfalso. apply H. reflexivity.
Qed.

Lemma unpad_one (t s : jsstring) :
  (forall h r, t = h :: r -> h <> 61) -> unpad (61 :: t) s = rev t.
Proof.
  intros H. destruct t as [ | h r]; [reflexivity|].
  specialize (H h r eq_refl).
  destruct h as [ | p | p]; try reflexivity.
  repeat (destruct p as [p | p | ]; try reflexivity).
  exfalso. apply H. reflexivity.
Qed.

Lemma unpad_two (t s : jsstring) : unpad (61 :: 61 :: t) s = rev t.
Proof. reflexivity. Qed.

(** The head of the reversed characters is a character of the alphabet. *)
Lemma rev_chars_head (sextets : list Z) (h : Z) (r : jsstring) :
  Forall (fun s => 0 <= s < 64) sextets ->
  rev (map base64_char sextets) = h :: r -> h <> 61.
Proof.
  intros Hs E.
  assert (Hin : In h (map base64_char sextets)).
  { apply in_rev. rewrite E. left. reflexivity. }
  apply in_map_iff in Hin. destruct Hin as (s & <- & Hin).
  rewrite Forall_forall in Hs.
  apply (base64_char_facts s (Hs s Hin)).
Qed.

(** The three shapes of an encoding. *)
Lemma btoa_shape (binary : jsstring) :
  exists k : nat,
    (btoa_padding binary = [] /\
     List.length (btoa_sextets binary) = (4 * k)%nat) \/
    (btoa_padding binary = [61] /\
     List.length (btoa_sextets binary) = (4 * k + 3)%nat) \/
    (btoa_padding binary = [61; 61] /\
     List.length (btoa_sextets binary) = (4 * k + 2)%nat).
Proof.
  induction binary as [ | a | a b | a b c rest IH] using list_ind3.
  - exists 0%nat. left. split; reflexivity.
  - exists 0%nat. right. right. split; reflexivity.
  - exists 0%nat. right. left. split; reflexivity.
  - destruct IH as [k IH]. exists (S k).
    cbn [btoa_padding btoa_sextets List.length].
    destruct IH as [[-> ->] | [[-> ->] | [-> ->]]];
      [left | right; left | right; right]; split; try reflexivity; lia.
Qed.

Lemma atob_btoa (binary : jsstring) :
  Forall is_byte binary -> atob (btoa binary) = Normal binary.
Proof.
  intros Hb.
  pose proof (btoa_sextets_range binary Hb) as Hs.
  set (sextets := btoa_sextets binary) in *.
  set (chars := map base64_char sextets).
  assert (Hfilter : filter (fun c => negb (isAsciiWhitespace c))
                      (btoa binary) = btoa binary).
  { apply filter_all. rewrite btoa_split. apply Forall_app. split.
    - apply Forall_map. eapply Forall_impl; [|exact Hs]. cbv beta.
      intros s H. rewrite (proj1 (proj2 (base64_char_facts s H))).
      reflexivity.
    - destruct (btoa_shape binary) as [k [[-> _] | [[-> _] | [-> _]]]];
        repeat constructor. }
  assert (Hstrip : strip_padding (btoa binary) = chars).
  { unfold strip_padding. fold (unpad (rev (btoa binary)) (btoa binary)).
    rewrite btoa_split. fold sextets. fold chars.
    assert (Hlen : List.length chars = List.length sextets)
      by apply length_map.
    destruct (btoa_shape binary) as [k [[-> E] | [[-> E] | [-> E]]]];
      fold sextets in E; rewrite length_app, Hlen, E; cbn [List.length].
    - rewrite app_nil_r.
      replace (Z.of_nat (4 * k + 0) mod 4 =? 0) with true
        by (symmetry; apply Z.eqb_eq; Z.div_mod_to_equations; lia).
      destruct (rev chars) as [ | h r] eqn:Er; [apply unpad_nil|].
      apply unpad_other. exact (rev_chars_head sextets h r Hs Er).
    - replace (Z.of_nat (4 * k + 3 + 1) mod 4 =? 0) with true
        by (symmetry; apply Z.eqb_eq; Z.div_mod_to_equations; lia).
      rewrite rev_app_distr. cbn [rev app].
      rewrite unpad_one; [apply rev_involutive|].
      intros h r Er. exact (rev_chars_head sextets h r Hs Er).
    - replace (Z.of_nat (4 * k + 2 + 2) mod 4 =? 0) with true
        by (symmetry; apply Z.eqb_eq; Z.div_mod_to_equations; lia).
      rewrite rev_app_distr. cbn [rev app].
      rewrite unpad_two. apply rev_involutive. }
  unfold atob. rewrite Hfilter, Hstrip.
  assert (Hmod : (Z.of_nat (List.length chars) mod 4 =? 1) = false).
  { unfold chars. rewrite length_map.
    apply Z.eqb_neq.
    destruct (btoa_shape binary) as [k [[_ E] | [[_ E] | [_ E]]]];
      fold sextets in E; rewrite E; Z.div_mod_to_equations; lia. }
  rewrite Hmod. unfold chars.
  rewrite (base64_indices_chars sextets Hs).
  unfold sextets. rewrite (sextets_to_bytes_btoa binary Hb). reflexivity.
Qed.

(** Reducing a byte modulo a power of two above 255 changes nothing. *)
Lemma bytes_mod_fixed (m : Z) (buffer : list Z) :
  256 <= m ->
  Forall is_byte buffer ->
  map (fun b => b mod m) buffer = buffer.
Proof.
  intros Hm Hb. rewrite <- (map_id buffer) at 2. apply map_ext_Forall.
  eapply Forall_impl; [|exact Hb]. unfold is_byte. cbv beta.
  intros b H. apply Z.mod_small. lia.
Qed.

(** X1.  The text-safe encoding is lossless: for every buffer of bytes,
    the empty one included, [base64ToUint8Array] applied to the string
    that [arrayBufferToBase64] makes of the buffer returns normally, with
    the very bytes of the buffer. *)
Theorem base64_roundtrip (buffer : list Z) :
  Forall is_byte buffer ->
  base64ToUint8Array (arrayBufferToBase64 buffer) = Normal buffer.
Proof.
  intros Hb.
  unfold base64ToUint8Array, arrayBufferToBase64.
  rewrite (bytes_mod_fixed 65536 buffer) by (lia || exact Hb).
  rewrite (atob_btoa buffer Hb).
  rewrite (bytes_mod_fixed 256 buffer) by (lia || exact Hb).
  reflexivity.
Qed.

Lemma base64_roundtrip_witness :
  Forall is_byte [0; 255; 16; 128; 7] /\
  arrayBufferToBase64 [0; 255; 16; 128; 7] = js "AP8QgAc=" /\
  base64ToUint8Array (arrayBufferToBase64 [0; 255; 16; 128; 7])
  = Normal [0; 255; 16; 128; 7] /\
  base64ToUint8Array (arrayBufferToBase64 []) = Normal [].
Proof.
  assert (H : Forall is_byte [0; 255; 16; 128; 7])
    by (repeat constructor; discriminate).
  split; [exact H|]. split; [reflexivity|].
  split; [exact (base64_roundtrip _ H)|].
  exact (base64_roundtrip [] (Forall_nil _)).
Defined.

End Base64.

(* ================================================================== *)
(** * More on the codec *)
(* ================================================================== *)

Section CodecMore.

Local Open Scope Q_scope.

Lemma Int16Array_buffer_bytes (a : list Z) :
  Forall is_byte (Int16Array_buffer a).
Proof.
  unfold is_byte.
  induction a as [ | v a IH]; [constructor|].
  cbn [Int16Array_buffer flat_map app]. fold (Int16Array_buffer a).
  constructor; [apply Z.mod_pos_bound; reflexivity|].
  constructor; [apply Z.mod_pos_bound; reflexivity|].
  exact IH.
Qed.

(** The clamp and the quantizer keep the order of the samples. *)
Lemma clamp_monotone (x y : Q) : x <= y -> clamp x <= clamp y.
Proof.
  intros H. unfold clamp.
  apply Q.max_le_compat_l, Q.min_le_compat_l, H.
Qed.

Lemma quantize_sign (s : Q) :
  (0 <= s -> (0 <= quantize s)%Z) /\ (s <= 0 -> (quantize s <= 0)%Z).
Proof.
  unfold quantize. destruct (Qle_bool 0 s) eqn:Hs.
  - apply Qle_bool_iff in Hs. split; intros H.
    + change 0%Z with (Qfloor 0). apply Qfloor_resp_le. lra.
    + assert (E : s * 32767 == 0) by lra.
      rewrite (Qfloor_comp _ _ E). discriminate.
  - apply Qle_bool_false in Hs. split; intros H; [lra|].
    change 0%Z with (Qceiling 0). apply Qceiling_resp_le. lra.
Qed.

Lemma quantize_monotone (s t : Q) : s <= t -> (quantize s <= quantize t)%Z.
Proof.
  intros H.
  destruct (Qlt_le_dec s 0) as [Hs | Hs], (Qlt_le_dec t 0) as [Ht | Ht].
  - unfold quantize.
    replace (Qle_bool 0 s) with false
      by (symmetry; apply not_true_is_false; intros E;
          apply Qle_bool_iff in E; lra).
    replace (Qle_bool 0 t) with false
      by (symmetry; apply not_true_is_false; intros E;
          apply Qle_bool_iff in E; lra).
    apply Qceiling_resp_le. lra.
  - pose proof (proj2 (quantize_sign s)) as H1.
    pose proof (proj1 (quantize_sign t) Ht) as H2.
    assert (s <= 0) by lra. specialize (H1 H0). lia.
  - lra.
  - unfold quantize.
    replace (Qle_bool 0 s) with true
      by (symmetry; apply Qle_bool_iff; exact Hs).
    replace (Qle_bool 0 t) with true
      by (symmetry; apply Qle_bool_iff; exact Ht).
    apply Qfloor_resp_le. lra.
Qed.

(** X3.  [floatTo16BitPCM] keeps order and sign: a larger sample never
    gets a smaller 16-bit value, a non-negative sample gets a
    non-negative value and a non-positive sample a non-positive one.
    Silence stays silence: zero is stored as 0, and so is every sample
    smaller than 1/32768 in magnitude, and not-a-number. *)
Theorem floatTo16BitPCM_keeps_order :
  (forall x y : Q,
     x <= y ->
     (floatTo16BitPCM_sample (Fin x) <= floatTo16BitPCM_sample (Fin y))%Z) /\
  (forall x : Q, 0 <= x -> (0 <= floatTo16BitPCM_sample (Fin x))%Z) /\
  (forall x : Q, x <= 0 -> (floatTo16BitPCM_sample (Fin x) <= 0)%Z) /\
  (forall x : Q,
     -(1 # 32768) < x < 1 # 32768 -> floatTo16BitPCM_sample (Fin x) = 0%Z) /\
  floatTo16BitPCM_sample NaN = 0%Z.
Proof.
  split; [|split; [|split; [|split; [|reflexivity]]]].
  - intros x y H. rewrite !floatTo16BitPCM_sample_Fin.
    apply quantize_monotone, clamp_monotone, H.
  - intros x H. rewrite floatTo16BitPCM_sample_Fin.
    apply quantize_sign.
    change 0 with (clamp 0). apply clamp_monotone, H.
  - intros x H. rewrite floatTo16BitPCM_sample_Fin.
    apply quantize_sign.
    change 0 with (clamp 0). apply clamp_monotone, H.
  - intros x [Hlo Hhi]. rewrite floatTo16BitPCM_sample_Fin.
    assert (Hin : -1 <= x <= 1) by lra.
    rewrite (quantize_comp _ x (clamp_inside x Hin)).
    unfold quantize. destruct (Qle_bool 0 x) eqn:Hs.
    + apply Qle_bool_iff in Hs.
      pose proof (Qfloor_le (x * 32767)) as H1.
      assert (H2 : (Qfloor 0 <= Qfloor (x * 32767))%Z)
        by (apply Qfloor_resp_le; lra).
      change (Qfloor 0) with 0%Z in H2.
      assert (H3 : (Qfloor (x * 32767) < 1)%Z).
      { apply Z.lt_nge. intros H4.
        assert (H5 : inject_Z 1 <= inject_Z (Qfloor (x * 32767)))
          by (rewrite <- Zle_Qle; exact H4).
        change (inject_Z 1) with 1 in H5. lra. }
      lia.
    + apply Qle_bool_false in Hs.
      pose proof (Qle_ceiling (x * 32768)) as H1.
      assert (H2 : (Qceiling (x * 32768) <= Qceiling 0)%Z)
        by (apply Qceiling_resp_le; lra).
      change (Qceiling 0) with 0%Z in H2.
      assert (H3 : (-1 < Qceiling (x * 32768))%Z).
      { apply Z.lt_nge. intros H4.
        assert (H5 : inject_Z (Qceiling (x * 32768)) <= inject_Z (-1))
          by (rewrite <- Zle_Qle; exact H4).
        change (inject_Z (-1)) with (-1) in H5. lra. }
      lia.
Qed.

Lemma floatTo16BitPCM_keeps_order_witness :
  -(1 # 3) <= 1 # 4 /\
  (floatTo16BitPCM_sample (Fin (-(1 # 3)))
   <= floatTo16BitPCM_sample (Fin (1 # 4)))%Z /\
  (0 <= floatTo16BitPCM_sample (Fin (1 # 4)))%Z /\
  (floatTo16BitPCM_sample (Fin (-(1 # 3))) <= 0)%Z /\
  floatTo16BitPCM_sample (Fin (1 # 40000)) = 0%Z.
Proof.
  destruct floatTo16BitPCM_keeps_order as (H1 & H2 & H3 & H4 & _).
  assert (Hle : -(1 # 3) <= 1 # 4) by discriminate.
  split; [exact Hle|]. split; [exact (H1 _ _ Hle)|].
  split; [apply H2; discriminate|].
  split; [apply H3; discriminate|].
  apply H4. split; reflexivity.
Defined.

(** X4.  Whatever bytes arrive, the samples handed to the audio buffer
    are sound: when the decoding of a byte sequence succeeds, every
    sample is a finite number of the form n/32768 with n a signed 16-bit
    integer, so it lies in [-1, 1), and there is one sample for every two
    bytes. *)
Theorem decodePCM16_samples_in_range (audioBytes : list Z)
    (samples : list float) :
  decodePCM16 audioBytes = Normal samples ->
  (2 * List.length samples = List.length audioBytes)%nat /\
  Forall (fun x =>
            exists n : Z,
              (-32768 <= n <= 32767)%Z /\
              x = Fin (n # 32768) /\
              -1 <= n # 32768 /\ n # 32768 < 1) samples.
Proof.
  unfold decodePCM16, Int16Array_of_buffer.
  destruct (Nat.even (List.length audioBytes)) eqn:He; [|discriminate].
  intros E. injection E as <-. split.
  - unfold pcm16_to_float32. rewrite length_map, int16_elements_length.
    apply Nat.even_spec in He. destruct He as [k Hk]. rewrite Hk.
    rewrite Nat.div2_double. reflexivity.
  - unfold pcm16_to_float32. apply Forall_map.
    assert (H : forall l, Forall (fun v => (-32768 <= v < 32768)%Z)
                            (int16_elements l)).
    { assert (Hn : forall n (l : list Z), (List.length l <= n)%nat ->
                Forall (fun v => (-32768 <= v < 32768)%Z)
                       (int16_elements l)).
      { induction n as [ | n IH]; intros l Hl.
        - destruct l; [constructor | cbn in Hl; lia].
        - destruct l as [ | b0 [ | b1 rest]]; try constructor.
          + apply wrap16_range.
          + apply IH. cbn in Hl. lia. }
      intros l. apply (Hn (List.length l)). lia. }
    eapply Forall_impl; [|apply H]. cbv beta. intros v Hv.
    exists v. split; [lia|]. split; [reflexivity|].
    unfold Qle, Qlt. cbn. lia.
Qed.

Lemma decodePCM16_samples_in_range_witness :
  decodePCM16 [0; 128; 255; 127; 1; 0]%Z
  = Normal [Fin (-32768 # 32768); Fin (32767 # 32768); Fin (1 # 32768)] /\
  Forall (fun x =>
            exists n : Z,
              (-32768 <= n <= 32767)%Z /\
              x = Fin (n # 32768) /\
              -1 <= n # 32768 /\ n # 32768 < 1)
         [Fin (-32768 # 32768); Fin (32767 # 32768); Fin (1 # 32768)].
Proof.
  split; [reflexivity|].
  exact (proj2 (decodePCM16_samples_in_range
                  [0; 128; 255; 127; 1; 0]%Z _ eq_refl)).
Defined.

End CodecMore.

(* ================================================================== *)
(** * More on playback *)
(* ================================================================== *)

Section PlaybackMore.

Local Open Scope Q_scope.

Lemma Qmax_cursor (cursor currentTime : Q) :
  currentTime <= cursor -> Qmax cursor currentTime = cursor.
Proof.
  intros H. unfold Qmax, GenericMinMax.gmax.
  destruct (cursor ?= currentTime) eqn:E; try reflexivity.
  apply Qlt_alt in E. lra.
Qed.

(** X5.  In a steady stream, where each chunk is enqueued no later than
    the end computed for the chunk before it, playback has no gap beyond
    the rounding of the sums: the operations all return, the calls of
    [start] are those of the sources in order, the first source starts at
    the cursor, every other source starts at the end the component
    computed for the source before it, the cursor ends at the durations
    added to it one by one in doubles, and each computed end is within one
    part in [2^53] of the exact end of its source (within [2^-1075]
    below the normal range). *)
Theorem steady_stream_has_no_gap (ops : list (Q * Q)) :
  forall w,
    steady (nextStartTimeRef w) ops ->
    exists sources w',
      enqueueAll ops w = (Normal sources, w') /\
      trace w' = (trace w ++ map start_call sources)%list /\
      back_to_back (nextStartTimeRef w) sources /\
      nextStartTimeRef w' = advance (nextStartTimeRef w) ops /\
      Forall (fun s =>
                Qabs (gap_after s (endTime s))
                <= Qmax (Qabs (startTime s + source_duration s) * 2 ^ (-53))
                        (2 ^ (-1075))) sources.
Proof.
  intros w Hs.
  assert (H : exists sources w',
             enqueueAll ops w = (Normal sources, w') /\
             back_to_back (nextStartTimeRef w) sources /\
             nextStartTimeRef w' = advance (nextStartTimeRef w) ops).
  { revert w Hs.
    induction ops as [ | [currentTime d] rest IH]; intros w Hs.
    - exists [], w. split; [reflexivity|]. split; [exact I | reflexivity].
    - destruct Hs as [Hnow Hrest].
      rewrite enqueueAll_cons. cbv zeta.
      rewrite (Qmax_cursor _ _ Hnow).
      destruct (IH (snd (schedulePlayback currentTime d w)))
        as (sources & w' & E & Hb & Hc).
      { rewrite schedulePlayback_cursor, (Qmax_cursor _ _ Hnow).
        exact Hrest. }
      rewrite schedulePlayback_cursor, (Qmax_cursor _ _ Hnow) in Hb, Hc.
      rewrite E. eexists _, w'. split; [reflexivity|]. split.
      + cbn [back_to_back]. split; [reflexivity|]. exact Hb.
      + cbn [advance]. exact Hc. }
  destruct H as (sources & w' & E & Hb & Hc).
  exists sources, w'. split; [exact E|].
  split; [exact (enqueueAll_trace ops w sources w' E)|].
  split; [exact Hb|]. split; [exact Hc|].
  apply Forall_forall. intros s _. unfold gap_after, endTime.
  apply binary64_error_any.
Qed.

Lemma steady_stream_has_no_gap_witness :
  let w := set_nextStartTimeRef 1 initial in
  let ops := [(0, 1 # 2); (1, 1 # 3); (7 # 4, 1)] in
  steady (nextStartTimeRef w) ops /\
  exists sources w',
    enqueueAll ops w = (Normal sources, w') /\
    trace w' = (trace w ++ map start_call sources)%list /\
    back_to_back (nextStartTimeRef w) sources /\
    nextStartTimeRef w' = advance (nextStartTimeRef w) ops /\
    Forall (fun s =>
              Qabs (gap_after s (endTime s))
              <= Qmax (Qabs (startTime s + source_duration s) * 2 ^ (-53))
                      (2 ^ (-1075))) sources.
Proof.
  cbv zeta.
  assert (H : steady (nextStartTimeRef (set_nextStartTimeRef 1 initial))
                [(0, 1 # 2); (1, 1 # 3); (7 # 4, 1)]).
  { vm_compute. repeat split; discriminate. }
  split; [exact H|].
  exact (steady_stream_has_no_gap _ _ H).
Defined.

(** The audio part on a payload that passes the guard. *)
Lemma handleAudio_guarded (currentTime : Q) (message : LiveServerMessage)
    (w : World) (data : jsstring) :
  audioContextRef w <> None ->
  audioData message = Some data ->
  truthy data = true ->
  handleAudio false currentTime message w
  = (audioBytes <- lift (base64ToUint8Array data);;
     float32 <- lift (decodePCM16 audioBytes);;
     buffer <- lift (createBuffer (List.length float32) 24000);;
     _ <- schedulePlayback currentTime (duration buffer);;
     ret tt)%m w.
Proof.
  intros Hctx Hd Ht. unfold handleAudio. rewrite bind_gets, Hd.
  destruct (audioContextRef w) as [ctx | ]; [|congruence].
  rewrite Ht. reflexivity.
Qed.

(** X6.  With sound on and an output context, a message that carries an
    audio payload is either played or lost as a whole.  If the payload is
    valid base64 for a positive, even number of bytes, the handler
    returns normally and has enqueued exactly one chunk, of one sample
    for every two bytes at 24000 samples a second.  If the payload is not
    valid base64, or gives no byte, or an odd number of bytes, the handler
    throws and leaves everything as it was: the transcript deltas and the
    turn-completion marker of that same message are lost with it. *)
Theorem audio_chunk_played_or_message_lost (currentTime : Q)
    (message : LiveServerMessage) (w : World) (data : jsstring) :
  audioContextRef w <> None ->
  audioData message = Some data ->
  truthy data = true ->
  (forall bytes,
     base64ToUint8Array data = Normal bytes ->
     bytes <> [] ->
     Nat.even (List.length bytes) = true ->
     fst (onmessage false currentTime message w) = Normal tt /\
     schedule (snd (onmessage false currentTime message w))
     = schedule
         (snd (schedulePlayback currentTime
                 (duration (mkBuffer (Nat.div2 (List.length bytes)) 24000))
                 w))) /\
  ((exists e, base64ToUint8Array data = Throw e) \/
   (exists bytes,
      base64ToUint8Array data = Normal bytes /\
      (bytes = [] \/ Nat.even (List.length bytes) = false)) ->
   exists e, onmessage false currentTime message w = (Throw e, w)).
Proof.
  intros Hctx Hd Ht.
  pose proof (handleAudio_guarded currentTime message w data Hctx Hd Ht)
    as Ha.
  split.
  - intros bytes Hb Hne He.
    assert (E : handleAudio false currentTime message w
                = (Normal tt,
                   snd (schedulePlayback currentTime
                          (duration
                             (mkBuffer (Nat.div2 (List.length bytes)) 24000))
                          w))).
    { rewrite Ha, bind_lift, Hb, bind_lift.
      unfold decodePCM16, Int16Array_of_buffer. rewrite He.
      rewrite bind_lift. unfold createBuffer, pcm16_to_float32.
      rewrite length_map, int16_elements_length.
      destruct (Nat.div2 (List.length bytes)) as [ | n] eqn:En.
      - exfalso. destruct bytes as [ | b0 [ | b1 rest]];
          [congruence | discriminate He | discriminate En].
      - reflexivity. }
    rewrite onmessage_unfold, E.
    destruct (handleTranscripts_spec message
                (snd (schedulePlayback currentTime
                        (duration
                           (mkBuffer (Nat.div2 (List.length bytes)) 24000))
                        w))) as (w2 & E2 & _).
    split; [rewrite E2; reflexivity|].
    apply handleTranscripts_schedule.
  - intros H.
    assert (E : exists e, handleAudio false currentTime message w
                          = (Throw e, w)).
    { rewrite Ha, bind_lift.
      destruct H as [[e Hb] | (bytes & Hb & [-> | Ho])]; rewrite Hb.
      - exists e. reflexivity.
      - eexists. reflexivity.
      - rewrite bind_lift. unfold decodePCM16, Int16Array_of_buffer.
        rewrite Ho. eexists. reflexivity. }
    destruct E as [e E]. exists e. rewrite onmessage_unfold, E. reflexivity.
Qed.

Lemma audio_chunk_played_or_message_lost_witness :
  let w := run [Connect true] initial in
  let good := mkMessage (Some (js "AAAAAA==")) (Some (js "Hi")) None
                (Some true) in
  let bad := mkMessage (Some (js "AQID")) (Some (js "Hi")) None
               (Some true) in
  (fst (onmessage false 3 good w) = Normal tt /\
   schedule (snd (onmessage false 3 good w))
   = schedule (snd (schedulePlayback 3 (duration (mkBuffer 2 24000)) w))) /\
  exists e, onmessage false 3 bad w = (Throw e, w).
Proof.
  cbv zeta. split.
  - refine (proj1 (audio_chunk_played_or_message_lost 3
                     (mkMessage (Some (js "AAAAAA==")) (Some (js "Hi")) None
                        (Some true))
                     (run [Connect true] initial) (js "AAAAAA==") _
                     eq_refl eq_refl)
                  [0; 0; 0; 0]%Z eq_refl _ eq_refl);
      vm_compute; discriminate.
  - refine (proj2 (audio_chunk_played_or_message_lost 3
                     (mkMessage (Some (js "AQID")) (Some (js "Hi")) None
                        (Some true))
                     (run [Connect true] initial) (js "AQID") _
                     eq_refl eq_refl) _).
    + vm_compute. discriminate.
    + right. exists [1; 2; 3]%Z. split; [reflexivity|].
      right. reflexivity.
Defined.

(** X7.  The audio of a message is skipped, not even decoded, when the
    component holds no output context (before [connect], after
    [disconnect]) or when the payload is absent or empty, whatever the
    mute flag the handler captured: the handler then returns normally,
    however malformed the payload, leaves the cursor, the live set and
    the started sources as they were, and treats the transcriptions of
    the message as usual. *)
Theorem skipped_audio_keeps_transcripts (isMuted : bool) (currentTime : Q)
    (message : LiveServerMessage) (w : World) :
  audioContextRef w = None \/ truthy_opt (audioData message) = false ->
  onmessage isMuted currentTime message w = handleTranscripts message w /\
  fst (onmessage isMuted currentTime message w) = Normal tt /\
  schedule (snd (onmessage isMuted currentTime message w)) = schedule w.
Proof.
  intros H.
  assert (Ha : handleAudio isMuted currentTime message w = (Normal tt, w)).
  { unfold handleAudio. rewrite bind_gets.
    destruct (audioData message) as [data | ]; [|reflexivity].
    destruct (audioContextRef w) as [ctx | ]; [|reflexivity].
    destruct H as [H | H].
    - discriminate H.
    - cbn [truthy_opt] in H. rewrite H. reflexivity. }
  assert (E : onmessage isMuted currentTime message w
              = handleTranscripts message w).
  { rewrite onmessage_unfold, Ha. reflexivity. }
  split; [exact E|]. rewrite E.
  destruct (handleTranscripts_spec message w) as (w2 & E2 & _).
  split; [rewrite E2; reflexivity|].
  apply handleTranscripts_schedule.
Qed.

Lemma skipped_audio_keeps_transcripts_witness :
  let w := run [Connect true; Open 0; Disconnect] initial in
  let message := mkMessage (Some (js "AQID")) (Some (js "Hi")) None
                   (Some true) in
  onmessage false 0 message w = handleTranscripts message w /\
  fst (onmessage false 0 message w) = Normal tt /\
  schedule (snd (onmessage false 0 message w)) = schedule w.
Proof.
  cbv zeta.
  apply skipped_audio_keeps_transcripts. left. vm_compute. reflexivity.
Defined.

End PlaybackMore.

(* ================================================================== *)
(** * More on the transcripts *)
(* ================================================================== *)

Section TranscriptsMore.

Lemma run_delta_messages (isMuted : bool) (currentTime : Q)
    (ms : list LiveServerMessage) :
  Forall is_delta_message ms ->
  forall w,
    let w' := run (map (Message isMuted currentTime) ms) w in
    currentInputTransRef w' = currentInputTransRef w ++ input_text ms /\
    currentOutputTransRef w' = currentOutputTransRef w ++ output_text ms /\
    messages w' = messages w.
Proof.
  unfold input_text, output_text.
  induction 1 as [ | m ms [Ha Htc] _ IH]; intros w; cbv zeta.
  - cbn. rewrite !app_nil_r. repeat split.
  - cbn [map]. rewrite run_cons.
    destruct (dispatch_message isMuted currentTime m w Ha)
      as (Hi & Ho & Hm).
    rewrite Htc in Hi, Ho, Hm. rewrite app_nil_r in Hm.
    destruct (IH (dispatch w (Message isMuted currentTime m)))
      as (Hi' & Ho' & Hm').
    rewrite Hi', Ho', Hm', Hi, Ho, Hm. cbn [List.concat].
    rewrite <- !app_assoc. repeat split.
Qed.

(** X8.  The deltas of the two transcriptions may arrive interleaved in
    any way: when the turn completes, the user message is the trimmed
    concatenation of the input deltas in arrival order and the model
    message the trimmed concatenation of the output deltas in arrival
    order, each one committed only if it is not empty, the user message
    first. *)
Theorem interleaved_deltas_commit_in_order (isMuted : bool)
    (currentTime : Q) (ms : list LiveServerMessage) (w : World) :
  Forall is_delta_message ms ->
  let w' := run (map (Message isMuted currentTime) ms
                 ++ [Message isMuted currentTime TurnComplete]) w in
  messages w'
  = messages w
    ++ committed user (currentInputTransRef w ++ input_text ms)
    ++ committed model (currentOutputTransRef w ++ output_text ms) /\
  trim (currentInputTransRef w') = [] /\
  trim (currentOutputTransRef w') = [].
Proof.
  intros Hms. cbv zeta. rewrite run_app.
  destruct (run_delta_messages isMuted currentTime ms Hms w)
    as (Hi & Ho & Hm).
  set (w1 := run (map _ ms) w) in *.
  cbn [run fold_left].
  destruct (dispatch_message isMuted currentTime TurnComplete w1 eq_refl)
    as (Hi2 & Ho2 & Hm2).
  cbn [TurnComplete inputTranscription outputTranscription turnComplete
       is_true delta_text] in Hi2, Ho2, Hm2.
  rewrite !app_nil_r in Hi2, Ho2, Hm2.
  rewrite Hm2, Hi2, Ho2, Hm, Hi, Ho, ?app_nil_r.
  split; [reflexivity|]. split; apply after_commit_blank.
Qed.

Lemma interleaved_deltas_commit_in_order_witness :
  let ms := [mkMessage None (Some (js " How")) None None;
             mkMessage None None (Some (js "Fine")) None;
             mkMessage None (Some (js " are you? ")) (Some (js ", thanks."))
               None] in
  Forall is_delta_message ms /\
  messages (run (map (Message false 0) ms ++ [Message false 0 TurnComplete])
              initial)
  = [mkChatMessage user (js "How are you?");
     mkChatMessage model (js "Fine, thanks.")].
Proof.
  cbv zeta.
  assert (H : Forall is_delta_message
                [mkMessage None (Some (js " How")) None None;
                 mkMessage None None (Some (js "Fine")) None;
                 mkMessage None (Some (js " are you? "))
                   (Some (js ", thanks.")) None]).
  { repeat constructor. }
  split; [exact H|].
  exact (proj1 (interleaved_deltas_commit_in_order false 0 _ initial H)).
Defined.

(** ** The count of user messages *)









End TranscriptsMore.

(* ================================================================== *)
(** * More on the session *)
(* ================================================================== *)

Section SessionMore.

Lemma drain_keeps_session (w : World) :
  sessionRef (drain w) = sessionRef w /\ promises (drain w) = promises w.
Proof.
  apply (drain_preserves
           (fun w' => sessionRef w' = sessionRef w /\
                      promises w' = promises w));
    [intros w0 t H; exact H | intros w0 q H; exact H | ].
  split; reflexivity.
Qed.

(** A frame on an open session: one send, and nothing else changes. *)
Lemma dispatch_frame_open (inputData : list float) (w : World) (p : nat) :
  sessionRef w = Some p ->
  nth_error (promises w) p = Some Fulfilled ->
  microtasks w = [] ->
  let w' := dispatch w (AudioProcess inputData) in
  sessionRef w' = Some p /\
  nth_error (promises w') p = Some Fulfilled /\
  microtasks w' = [] /\
  trace w' = trace w ++ [frame_sent p inputData].
Proof.
  intros Hs Hp Hq. cbv zeta. unfold dispatch. cbn [handler].
  assert (E : onaudioprocess inputData w
              = (Normal tt,
                 set_microtasks
                   (microtasks w ++ [(p, frame_reaction inputData)]) w)).
  { unfold onaudioprocess. rewrite bind_gets, Hs.
    unfold promise_then. rewrite bind_gets, Hp. reflexivity. }
  rewrite E. cbn [snd].
  set (w0 := set_microtasks _ w).
  destruct (drain_keeps_session w0) as (-> & ->).
  rewrite drain_microtasks, drain_trace.
  subst w0. cbn [sessionRef promises trace microtasks set_microtasks].
  rewrite Hq. repeat split; assumption.
Qed.

(** X2.  What goes on the wire for a capture frame is exactly its
    samples: on an open session, whatever the frame holds (not-a-number
    and infinities included), the turn of [onaudioprocess] adds one call
    of [sendRealtimeInput] to the effects, with the MIME type
    [audio/pcm;rate=16000] and a base64 string that decodes, without
    error, to two bytes per sample; these bytes read as 16-bit integers
    are the values of [floatTo16BitPCM], in order. *)
Theorem frame_payload_carries_samples (inputData : list float) (w : World)
    (p : nat) :
  sessionRef w = Some p ->
  nth_error (promises w) p = Some Fulfilled ->
  microtasks w = [] ->
  exists data bytes,
    trace (dispatch w (AudioProcess inputData))
    = trace w ++ [SessionSend p (js "audio/pcm;rate=16000") data] /\
    base64ToUint8Array data = Normal bytes /\
    List.length bytes = (2 * List.length inputData)%nat /\
    Int16Array_of_buffer bytes = Normal (floatTo16BitPCM inputData).
Proof.
  intros Hs Hp Hq.
  exists (arrayBufferToBase64
            (Int16Array_buffer (floatTo16BitPCM inputData))),
         (Int16Array_buffer (floatTo16BitPCM inputData)).
  split; [|split; [|split]].
  - destruct (dispatch_frame_open inputData w p Hs Hp Hq)
      as (_ & _ & _ & Ht).
    rewrite Ht. reflexivity.
  - pose proof (Int16Array_buffer_bytes (floatTo16BitPCM inputData)) as Hb.
    unfold base64ToUint8Array, arrayBufferToBase64.
    rewrite (bytes_mod_fixed 65536) by (lia || exact Hb).
    rewrite (atob_btoa _ Hb).
    rewrite (bytes_mod_fixed 256) by (lia || exact Hb).
    reflexivity.
  - rewrite Int16Array_buffer_length. unfold floatTo16BitPCM.
    rewrite length_map. reflexivity.
  - apply Int16Array_roundtrip, floatTo16BitPCM_in_range.
Qed.

Lemma frame_payload_carries_samples_witness :
  let w := run [Connect true; Open 0] initial in
  let inputData := [Fin (1 # 2); NaN; PInf; Fin (-2)] in
  exists data bytes,
    trace (dispatch w (AudioProcess inputData))
    = trace w ++ [SessionSend 0 (js "audio/pcm;rate=16000") data] /\
    base64ToUint8Array data = Normal bytes /\
    List.length bytes = 8%nat /\
    Int16Array_of_buffer bytes = Normal (floatTo16BitPCM inputData).
Proof.
  cbv zeta.
  apply (frame_payload_carries_samples [Fin (1 # 2); NaN; PInf; Fin (-2)]
           (run [Connect true; Open 0%nat] initial) 0%nat);
    vm_compute; reflexivity.
Defined.

(** A frame during the handshake: one more reaction on the promise. *)
Lemma dispatch_frame_pending (inputData : list float) (w : World) (p : nat)
    (rs : list Reaction) :
  sessionRef w = Some p ->
  nth_error (promises w) p = Some (Pending rs) ->
  microtasks w = [] ->
  let w' := dispatch w (AudioProcess inputData) in
  sessionRef w' = Some p /\
  nth_error (promises w') p
  = Some (Pending (rs ++ [frame_reaction inputData])) /\
  microtasks w' = [] /\
  trace w' = trace w.
Proof.
  intros Hs Hp Hq. cbv zeta. unfold dispatch. cbn [handler].
  rewrite (onaudioprocess_pending inputData w p rs Hs Hp). cbn [snd].
  set (w0 := set_promises _ w).
  assert (Hq0 : microtasks w0 = []) by exact Hq.
  rewrite (drain_nothing w0 Hq0). subst w0.
  cbn [sessionRef promises trace microtasks set_promises].
  repeat split; try assumption.
  apply (nth_error_update_nth _ _ _ _ Hp).
Qed.

Lemma dispatch_open_pending (w : World) (p : nat) (rs : list Reaction) :
  nth_error (promises w) p = Some (Pending rs) ->
  microtasks w = [] ->
  trace (dispatch w (Open p))
  = trace w ++ map reaction_effect (map (pair p) rs).
Proof.
  intros Hp Hq. unfold dispatch. cbn [handler]. rewrite drain_trace.
  destruct (session_opens_pending w p rs Hp) as (-> & -> & _).
  rewrite Hq. reflexivity.
Qed.

(** Frames of the handshake pile up on the promise, in capture order. *)
Lemma run_frames_pending (frames : list (list float)) :
  forall w p rs,
    sessionRef w = Some p ->
    nth_error (promises w) p = Some (Pending rs) ->
    microtasks w = [] ->
    let w' := run (map AudioProcess frames) w in
    sessionRef w' = Some p /\
    nth_error (promises w') p
    = Some (Pending (rs ++ map frame_reaction frames)) /\
    microtasks w' = [] /\
    trace w' = trace w.
Proof.
  induction frames as [ | f frames IH]; intros w p rs Hs Hp Hq; cbv zeta.
  - cbn. rewrite app_nil_r. repeat split; assumption.
  - cbn [map]. rewrite run_cons.
    destruct (dispatch_frame_pending f w p rs Hs Hp Hq)
      as (Hs' & Hp' & Hq' & Ht).
    destruct (IH _ p _ Hs' Hp' Hq') as (Hs2 & Hp2 & Hq2 & Ht2).
    rewrite Hs2, Hp2, Hq2, Ht2, Ht, <- app_assoc. repeat split.
Qed.

(** X10.  Capture frames reach the session one by one and in capture
    order.  On an open session every frame is sent in the turn of the
    event loop that captured it, so a run of frames adds exactly their
    sends, in order, to the effects.  During the handshake nothing is
    sent; when the session opens, the reactions queued before the frames
    run first and then the frames are sent, in capture order. *)
Theorem frames_sent_in_capture_order :
  (forall frames w p,
     sessionRef w = Some p ->
     nth_error (promises w) p = Some Fulfilled ->
     microtasks w = [] ->
     trace (run (map AudioProcess frames) w)
     = trace w ++ map (frame_sent p) frames) /\
  (forall frames w p rs,
     sessionRef w = Some p ->
     nth_error (promises w) p = Some (Pending rs) ->
     microtasks w = [] ->
     trace (run (map AudioProcess frames) w) = trace w /\
     trace (run (map AudioProcess frames ++ [Open p]) w)
     = trace w ++ map reaction_effect (map (pair p) rs)
       ++ map (frame_sent p) frames).
Proof.
  split.
  - induction frames as [ | f frames IH]; intros w p Hs Hp Hq.
    + cbn. symmetry. apply app_nil_r.
    + cbn [map]. rewrite run_cons.
      destruct (dispatch_frame_open f w p Hs Hp Hq) as (Hs' & Hp' & Hq' & Ht).
      rewrite (IH _ p Hs' Hp' Hq'), Ht, <- app_assoc. reflexivity.
  - intros frames w p rs Hs Hp Hq.
    destruct (run_frames_pending frames w p rs Hs Hp Hq)
      as (_ & Hp' & Hq' & Ht).
    split; [exact Ht|].
    rewrite run_app. cbn [run fold_left].
    rewrite (dispatch_open_pending _ p _ Hp' Hq'), Ht.
    rewrite !map_app, !map_map. reflexivity.
Qed.

Lemma frames_sent_in_capture_order_witness :
  let frames := [[Fin (1 # 2)]; [Fin (-1)]; []] in
  let opened := run [Connect true; Open 0] initial in
  let pending := run [Connect true] initial in
  trace (run (map AudioProcess frames) opened)
  = trace opened ++ map (frame_sent 0) frames /\
  trace (run (map AudioProcess frames) pending) = trace pending /\
  trace (run (map AudioProcess frames ++ [Open 0]) pending)
  = trace pending ++ map reaction_effect (map (pair 0%nat) [])
    ++ map (frame_sent 0) frames.
Proof.
  cbv zeta.
  destruct frames_sent_in_capture_order as (H1 & H2).
  split.
  - apply H1; vm_compute; reflexivity.
  - apply H2; vm_compute; reflexivity.
Defined.

(** ** No playback without an output context *)








(** ** The output context of a refused connection *)

Lemma reactions_close_no_context (q : list (nat * Reaction)) :
  filter is_context_close (map reaction_effect q) = [].
Proof.
  induction q as [ | [p []] q IH]; [reflexivity | | ]; exact IH.
Qed.

Lemma dispatch_connect_refused (w : World) :
  idle w ->
  let w' := dispatch w (Connect false) in
  idle w' /\
  fresh w' = S (fresh w) /\
  audioContextRef w' = Some (fresh w) /\
  filter is_context_close (trace w') = filter is_context_close (trace w) /\
  isProcessing w' = false /\ messages w' = [] /\
  isConnected w' = isConnected w.
Proof.
  intros Hi. cbv zeta. unfold dispatch. cbn [handler].
  set (w1 := snd (connect false w)).
  assert (H : idle (drain w1) /\
              fresh (drain w1) = S (fresh w) /\
              audioContextRef (drain w1) = Some (fresh w) /\
              isProcessing (drain w1) = false /\
              messages (drain w1) = [] /\
              isConnected (drain w1) = isConnected w).
  { apply (drain_preserves
             (fun w' => idle w' /\
                        fresh w' = S (fresh w) /\
                        audioContextRef w' = Some (fresh w) /\
                        isProcessing w' = false /\
                        messages w' = [] /\
                        isConnected w' = isConnected w));
      [intros w0 t H; exact H | intros w0 q H; exact H | ].
    subst w1. destruct Hi as (H1 & H2 & H3 & H4 & H5).
    unfold idle. repeat split; assumption || reflexivity. }
  destruct H as (Ha & Hb & Hc & Hd & He & Hf).
  split; [exact Ha|]. split; [exact Hb|]. split; [exact Hc|].
  split; [|repeat split; assumption].
  rewrite drain_trace, filter_app, reactions_close_no_context, app_nil_r.
  subst w1.
  change (trace (snd (connect false w)))
    with ((trace w ++ [ConsoleError]) ++ [Alert]).
  rewrite !filter_app. cbn [filter is_context_close].
  rewrite !app_nil_r. reflexivity.
Qed.

Lemma dispatch_disconnect_context (w : World) (c : nat) :
  idle w ->
  audioContextRef w = Some c ->
  filter is_context_close (trace (dispatch w Disconnect))
  = filter is_context_close (trace w) ++ [ContextClose c].
Proof.
  intros Hi Hc. unfold dispatch. cbn [handler].
  rewrite drain_trace, filter_app, reactions_close_no_context, app_nil_r.
  assert (E : trace (snd (disconnect w)) = trace w ++ [ContextClose c]).
  { revert Hi Hc. unfold idle. destruct w. cbn.
    intros (-> & -> & -> & -> & ->) ->. reflexivity. }
  rewrite E, filter_app. reflexivity.
Qed.

Lemma run_connect_refused (n : nat) :
  forall w,
    idle w ->
    let w' := run (repeat (Connect false) (S n)) w in
    idle w' /\
    fresh w' = (fresh w + S n)%nat /\
    audioContextRef w' = Some (fresh w + n)%nat /\
    filter is_context_close (trace w') = filter is_context_close (trace w) /\
    isProcessing w' = false /\ messages w' = [] /\
    isConnected w' = isConnected w.
Proof.
  induction n as [ | n IH]; intros w Hi; cbv zeta.
  - change (run (repeat (Connect false) 1) w)
      with (dispatch w (Connect false)).
    destruct (dispatch_connect_refused w Hi)
      as (H1 & H2 & H3 & H4 & H5 & H6 & H7).
    rewrite H2, H3, H4, H5, H6, H7, Nat.add_0_r, Nat.add_1_r.
    split; [exact H1|]. repeat split.
  - change (repeat (Connect false) (S (S n)))
      with (Connect false :: repeat (Connect false) (S n)).
    rewrite run_cons.
    destruct (dispatch_connect_refused w Hi)
      as (H1 & H2 & H3 & H4 & H5 & H6 & H7).
    destruct (IH _ H1) as (I1 & I2 & I3 & I4 & I5 & I6 & I7).
    rewrite I2, I3, I4, I5, I6, I7, H2, H4, H7.
    split; [exact I1|]. split; [lia|]. split; [f_equal; lia|].
    repeat split.
Qed.

(** X12.  Every attempt to connect creates a new output context before it
    asks for the microphone, and nothing closes the context of an attempt
    whose microphone is refused: the join screen is shown again, and the
    next attempt replaces the reference.  After [S n] refused attempts in
    a row the component has created [S n] contexts and closed none; the
    teardown then closes the last one only. *)
Theorem refused_microphone_leaves_context_open (n : nat) (w : World) :
  idle w ->
  let w' := run (repeat (Connect false) (S n)) w in
  fresh w' = (fresh w + S n)%nat /\
  audioContextRef w' = Some (fresh w + n)%nat /\
  filter is_context_close (trace w') = filter is_context_close (trace w) /\
  (isConnected w' = isConnected w /\ messages w' = [] /\
   isProcessing w' = false) /\
  filter is_context_close (trace (dispatch w' Disconnect))
  = filter is_context_close (trace w) ++ [ContextClose (fresh w + n)].
Proof.
  intros Hi. cbv zeta.
  destruct (run_connect_refused n w Hi)
    as (H1 & H2 & H3 & H4 & H5 & H6 & H7).
  split; [exact H2|]. split; [exact H3|]. split; [exact H4|].
  split; [repeat split; assumption|].
  rewrite (dispatch_disconnect_context _ _ H1 H3), H4. reflexivity.
Qed.

Lemma refused_microphone_leaves_context_open_witness :
  let w' := run (repeat (Connect false) 3) initial in
  fresh w' = 3%nat /\
  audioContextRef w' = Some 2%nat /\
  filter is_context_close (trace w') = [] /\
  (isConnected w' = false /\ messages w' = [] /\ isProcessing w' = false) /\
  filter is_context_close (trace (dispatch w' Disconnect))
  = [ContextClose 2].
Proof.
  cbv zeta.
  apply (refused_microphone_leaves_context_open 2 initial).
  repeat split.
Defined.

(** ** A teardown during the handshake *)

Lemma bind_normal {A B} (m : M A) (k : A -> M B) (w w1 : World) (a : A) :
  m w = (Normal a, w1) -> bind m k w = k a w1.
Proof. intros E. unfold bind. rewrite E. reflexivity. Qed.

Lemma preserves_apply {A} (P : World -> Prop) (m : M A) (w : World) :
  preserves P m -> P w -> P (snd (m w)).
Proof. intros H. apply H. Qed.

Lemma reactions_are_session_effects (q : list (nat * Reaction)) :
  filter is_session_effect (map reaction_effect q) = map reaction_effect q.
Proof.
  induction q as [ | [p []] q IH]; [reflexivity | | ];
    cbn [map filter reaction_effect snd is_session_effect]; f_equal; exact IH.
Qed.

(** [disconnect] on a session that is still opening: the call of [close]
    joins the reactions of the promise, and nothing is asked of the
    session yet. *)
Lemma disconnect_pending_session (w : World) (p : nat) (rs : list Reaction) :
  sessionRef w = Some p ->
  nth_error (promises w) p = Some (Pending rs) ->
  microtasks w = [] ->
  let w' := snd (disconnect w) in
  sessionRef w' = None /\
  nth_error (promises w') p = Some (Pending (rs ++ [CloseSession])) /\
  microtasks w' = [] /\
  filter is_session_effect (trace w')
  = filter is_session_effect (trace w).
Proof.
  intros Hs Hp Hq. cbv zeta.
  set (P := fun w' : World =>
              sessionRef w' = None /\
              nth_error (promises w') p
              = Some (Pending (rs ++ [CloseSession])) /\
              microtasks w' = [] /\
              filter is_session_effect (trace w')
              = filter is_session_effect (trace w)).
  change (P (snd (disconnect w))).
  unfold disconnect. rewrite bind_gets, Hs.
  assert (E : (promise_then p CloseSession;; modify (set_sessionRef None))%m w
              = (Normal tt,
                 set_sessionRef None
                   (set_promises
                      (update_nth p (Pending (rs ++ [CloseSession]))
                         (promises w)) w))).
  { unfold promise_then. rewrite bind_assoc, bind_gets, Hp. reflexivity. }
  rewrite (bind_normal _ _ _ _ _ E).
  apply preserves_apply.
  - unfold_handlers; frame;
      apply preserves_modify; intros w0 (H1 & H2 & H3 & H4);
      subst P; cbv beta;
      cbn [sessionRef promises microtasks trace set_trace];
      rewrite ?filter_app; cbn [filter is_session_effect];
      rewrite ?app_nil_r; repeat split; assumption.
  - subst P. cbv beta.
    cbn [sessionRef promises microtasks trace set_sessionRef set_promises].
    repeat split; try assumption.
    apply (nth_error_update_nth _ _ _ _ Hp).
Qed.

Lemma run_frames_no_session (frames : list (list float)) (w : World) :
  sessionRef w = None -> microtasks w = [] ->
  run (map AudioProcess frames) w = w.
Proof.
  intros Hs Hq. induction frames as [ | f frames IH]; [reflexivity|].
  cbn [map]. rewrite run_cons. unfold dispatch. cbn [handler].
  rewrite (onaudioprocess_no_session f w Hs). cbn [snd].
  rewrite (drain_nothing w Hq). exact IH.
Qed.

(** X13.  A teardown during the handshake does not abandon the session:
    the call of [close] waits on the promise behind the frames captured
    so far.  Until the session opens nothing is asked of it; when it
    opens, the reactions queued before run first, then the frames of the
    handshake are sent in capture order, and the session is closed last.
    The frames captured after the teardown are never sent. *)
Theorem teardown_during_handshake (frames later : list (list float))
    (w : World) (p : nat) (rs : list Reaction) :
  sessionRef w = Some p ->
  nth_error (promises w) p = Some (Pending rs) ->
  microtasks w = [] ->
  let w' :=
    run (map AudioProcess frames ++ [Disconnect] ++ map AudioProcess later)
      w in
  sessionRef w' = None /\
  filter is_session_effect (trace w')
  = filter is_session_effect (trace w) /\
  filter is_session_effect (trace (dispatch w' (Open p)))
  = filter is_session_effect (trace w)
    ++ map reaction_effect (map (pair p) rs)
    ++ map (frame_sent p) frames ++ [SessionClosed p].
Proof.
  intros Hs Hp Hq. cbv zeta. rewrite !run_app.
  destruct (run_frames_pending frames w p rs Hs Hp Hq)
    as (Hs1 & Hp1 & Hq1 & Ht1).
  revert Hs1 Hp1 Hq1 Ht1.
  generalize (run (map AudioProcess frames) w). intros w1 Hs1 Hp1 Hq1 Ht1.
  change (run [Disconnect] w1) with (dispatch w1 Disconnect).
  destruct (disconnect_pending_session w1 p _ Hs1 Hp1 Hq1)
    as (Hs2 & Hp2 & Hq2 & Ht2).
  assert (E : dispatch w1 Disconnect = snd (disconnect w1)).
  { unfold dispatch. cbn [handler]. apply drain_nothing, Hq2. }
  rewrite E. revert Hs2 Hp2 Hq2 Ht2.
  generalize (snd (disconnect w1)). intros w2 Hs2 Hp2 Hq2 Ht2.
  rewrite (run_frames_no_session later w2 Hs2 Hq2).
  split; [exact Hs2|]. split; [rewrite Ht2, Ht1; reflexivity|].
  rewrite (dispatch_open_pending w2 p _ Hp2 Hq2), filter_app.
  rewrite reactions_are_session_effects, Ht2, Ht1.
  rewrite !map_app, !map_map. cbn [map]. rewrite <- app_assoc.
  reflexivity.
Qed.

Lemma teardown_during_handshake_witness :
  let frames := [[Fin (1 # 2)]; [Fin (-1)]] in
  let later := [[Fin 0]] in
  let w := run [Connect true] initial in
  let w' :=
    run (map AudioProcess frames ++ [Disconnect] ++ map AudioProcess later)
      w in
  sessionRef w' = None /\
  filter is_session_effect (trace w')
  = filter is_session_effect (trace w) /\
  filter is_session_effect (trace (dispatch w' (Open 0)))
  = filter is_session_effect (trace w)
    ++ map reaction_effect (map (pair 0%nat) [])
    ++ map (frame_sent 0) frames ++ [SessionClosed 0].
Proof.
  cbv zeta.
  apply teardown_during_handshake; vm_compute; reflexivity.
Defined.

End SessionMore.

(* ================================================================== *)
(** * The text of the analysis response *)
(* ================================================================== *)

Section ResponseText.

Lemma startsWith_app (p q s : jsstring) :
  startsWith (p ++ q) s = true -> startsWith p s = true.
Proof.
  revert s. induction p as [ | a p IH]; intros s; [reflexivity|].
  destruct s as [ | c s]; cbn [app startsWith]; [discriminate|].
  intros H. apply andb_prop in H. destruct H as (-> & H).
  cbn [andb]. apply IH, H.
Qed.

Lemma startsWith_app_false (p q s : jsstring) :
  startsWith p s = false -> startsWith (p ++ q) s = false.
Proof.
  intros H. destruct (startsWith (p ++ q) s) eqn:E; [|reflexivity].
  rewrite (startsWith_app _ _ _ E) in H. discriminate H.
Qed.

(** A position where no fence starts is copied. *)
Lemma replace_fences_copy (c : Z) (r : jsstring) :
  startsWith fence (c :: r) = false ->
  replace_fences_from 0 (c :: r) = c :: replace_fences_from 0 r.
Proof.
  intros H.
  assert (H1 : startsWith fence_json (c :: r) = false)
    by (unfold fence_json; apply startsWith_app_false, H).
  assert (H2 : startsWith (fence_json ++ [line_feed]) (c :: r) = false)
    by apply startsWith_app_false, H1.
  cbn [replace_fences_from]. rewrite H2, H1, H. reflexivity.
Qed.

Lemma startsWith_other (p : jsstring) (c : Z) (r : jsstring) :
  c <> backtick -> startsWith (backtick :: p) (c :: r) = false.
Proof.
  intros H. cbn [startsWith].
  destruct (Z.eqb_spec backtick c) as [E | _]; [|reflexivity].
  destruct H. symmetry. exact E.
Qed.

Lemma replace_fences_two (r : jsstring) :
  startsWith [backtick; backtick] r = false ->
  startsWith [backtick; backtick] (replace_fences_from 0 r) = false.
Proof.
  intros H. destruct r as [ | x r]; [reflexivity|].
  assert (Hx : startsWith fence (x :: r) = false).
  { change fence with ([backtick; backtick] ++ [backtick]).
    apply startsWith_app_false, H. }
  rewrite (replace_fences_copy _ _ Hx).
  cbn [startsWith] in *.
  destruct (backtick =? x) eqn:Ex; [|reflexivity].
  cbn [andb] in *.
  destruct r as [ | y r]; [reflexivity|].
  destruct (backtick =? y) eqn:Ey; [discriminate H|].
  assert (Hy : startsWith fence (y :: r) = false).
  { cbn [fence startsWith]. rewrite Ey. reflexivity. }
  rewrite (replace_fences_copy _ _ Hy). cbn [startsWith].
  rewrite Ey. reflexivity.
Qed.

Lemma replace_fences_head (c : Z) (r : jsstring) :
  startsWith fence (c :: r) = false ->
  startsWith fence (c :: replace_fences_from 0 r) = false.
Proof.
  cbn [fence startsWith].
  destruct (backtick =? c); [|reflexivity].
  cbn [andb]. apply replace_fences_two.
Qed.

Lemma replace_fences_from_clean (s : jsstring) :
  forall skip, includes fence (replace_fences_from skip s) = false.
Proof.
  induction s as [ | c r IH]; intros skip; [reflexivity|].
  destruct skip as [ | k]; [|apply IH].
  cbn [replace_fences_from].
  destruct (startsWith (fence_json ++ [line_feed]) (c :: r)); [apply IH|].
  destruct (startsWith fence_json (c :: r)); [apply IH|].
  destruct (startsWith fence (c :: r)) eqn:E; [apply IH|].
  cbn [includes]. rewrite (IH 0%nat), (replace_fences_head _ _ E).
  reflexivity.
Qed.

Lemma replace_fences_fixed (s : jsstring) :
  includes fence s = false -> replace_fences_from 0 s = s.
Proof.
  induction s as [ | c r IH]; [reflexivity|].
  cbn [includes]. intros H. apply orb_false_elim in H.
  destruct H as (H1 & H2).
  rewrite (replace_fences_copy _ _ H1), (IH H2). reflexivity.
Qed.

Lemma startsWith_extend (p s b : jsstring) :
  startsWith p s = true -> startsWith p (s ++ b) = true.
Proof.
  revert s. induction p as [ | y p IH]; intros s E; [reflexivity|].
  destruct s as [ | z s]; [discriminate E|].
  cbn [app startsWith] in *. apply andb_prop in E.
  destruct E as (-> & E). cbn [andb]. apply IH, E.
Qed.

Lemma includes_prefix_false (p s b : jsstring) :
  includes p (s ++ b) = false -> includes p s = false.
Proof.
  induction s as [ | c s IH]; cbn [app].
  - destruct p as [ | y p]; [|reflexivity].
    destruct b; cbn; discriminate.
  - cbn [includes]. intros H. apply orb_false_elim in H.
    destruct H as (H1 & H2). rewrite (IH H2), orb_false_r.
    destruct (startsWith p (c :: s)) eqn:E; [|reflexivity].
    rewrite <- H1. symmetry. apply (startsWith_extend _ (c :: s)), E.
Qed.

Lemma includes_app_false (p a s b : jsstring) :
  includes p (a ++ s ++ b) = false -> includes p s = false.
Proof.
  induction a as [ | x a IH]; cbn [app].
  - apply includes_prefix_false.
  - cbn [includes]. intros H. apply orb_false_elim in H. apply IH, H.
Qed.

Lemma trim_infix (s : jsstring) : exists a b, s = a ++ trim s ++ b.
Proof.
  destruct (trimStart_suffix s) as [a Ha].
  destruct (trimEnd_prefix (trimStart s)) as [b Hb].
  exists a, b. unfold trim. rewrite <- Hb. exact Ha.
Qed.

(** X14.  The text handed to [JSON.parse] never holds a code fence,
    wherever the fences stood in the response, inside the values of the
    JSON text included: removing the matches from left to right does not
    bring the backticks that are left together into a new fence.  The
    removal is idempotent. *)
Theorem cleaned_text_has_no_fence (jsonText : jsstring) :
  includes fence (replace_fences jsonText) = false /\
  includes fence (cleanJsonText jsonText) = false /\
  replace_fences (replace_fences jsonText) = replace_fences jsonText.
Proof.
  assert (H : includes fence (replace_fences jsonText) = false)
    by apply replace_fences_from_clean.
  split; [exact H|]. split.
  - unfold cleanJsonText.
    destruct (trim_infix (replace_fences jsonText)) as (a & b & E).
    rewrite E in H. exact (includes_app_false _ _ _ _ H).
  - apply replace_fences_fixed, H.
Qed.

Lemma replace_fences_plain (body rest : jsstring) :
  Forall (fun c => c <> backtick) body ->
  replace_fences_from 0 (body ++ rest)
  = body ++ replace_fences_from 0 rest.
Proof.
  induction 1 as [ | c body Hc _ IH]; [reflexivity|].
  cbn [app]. rewrite replace_fences_copy, IH; [reflexivity|].
  apply (startsWith_other _ _ _ Hc).
Qed.

Lemma trimStart_app_space (s : jsstring) (c : Z) :
  isWhiteSpace c = true ->
  trimStart (s ++ [c])
  = match trimStart s with [] => [] | _ :: _ => trimStart s ++ [c] end.
Proof.
  intros Hc. induction s as [ | a s IH]; cbn [app trimStart].
  - rewrite Hc. reflexivity.
  - destruct (isWhiteSpace a); [exact IH | reflexivity].
Qed.

Lemma trim_app_space (s : jsstring) (c : Z) :
  isWhiteSpace c = true -> trim (s ++ [c]) = trim s.
Proof.
  intros Hc. unfold trim. rewrite (trimStart_app_space _ _ Hc).
  destruct (trimStart s) as [ | a t]; [reflexivity|].
  unfold trimEnd. rewrite rev_app_distr. cbn [rev app trimStart].
  rewrite Hc. reflexivity.
Qed.

(** X15.  A response without backticks is only trimmed, and a response
    whose JSON text stands in one fenced block, with or without the
    [json] tag and the line feeds, gives the trimmed text of the block:
    in both cases [JSON.parse] receives the text the service wrote,
    without its surrounding white space. *)
Theorem fenced_block_is_unwrapped (body : jsstring) :
  Forall (fun c => c <> backtick) body ->
  cleanJsonText body = trim body /\
  cleanJsonText (fence_json ++ [line_feed] ++ body ++ [line_feed] ++ fence)
  = trim body /\
  cleanJsonText (fence_json ++ body ++ fence) = trim body /\
  cleanJsonText (fence ++ [line_feed] ++ body ++ [line_feed] ++ fence)
  = trim body.
Proof.
  intros Hb. unfold cleanJsonText, replace_fences.
  assert (Hf : replace_fences_from 0 fence = []) by reflexivity.
  assert (Hl : isWhiteSpace line_feed = true) by reflexivity.
  assert (H1 : forall rest,
             replace_fences_from 0 (body ++ rest)
             = body ++ replace_fences_from 0 rest)
    by (intros rest; apply replace_fences_plain, Hb).
  repeat split.
  - rewrite <- (app_nil_r body) at 1. rewrite H1, app_nil_r. reflexivity.
  - change (replace_fences_from 0
              (fence_json ++ [line_feed] ++ body ++ [line_feed] ++ fence))
      with (replace_fences_from 0 (body ++ [line_feed] ++ fence)).
    rewrite H1. change ([line_feed] ++ fence) with (line_feed :: fence).
    rewrite replace_fences_copy, Hf by reflexivity.
    apply trim_app_space, Hl.
  - destruct Hb as [ | c body' Hc Hb'].
    + reflexivity.
    + destruct (Z.eqb_spec line_feed c) as [E | Hn].
      * subst c.
        change (replace_fences_from 0
                  (fence_json ++ (line_feed :: body') ++ fence))
          with (replace_fences_from 0 (body' ++ fence)).
        rewrite (replace_fences_plain _ _ Hb'), Hf, app_nil_r.
        unfold trim. cbn [trimStart]. rewrite Hl. reflexivity.
      * change (replace_fences_from 0 (fence_json ++ (c :: body') ++ fence))
          with (if (line_feed =? c) && true
                then replace_fences_from 0 (body' ++ fence)
                else replace_fences_from 0 ((c :: body') ++ fence)).
        destruct (Z.eqb_spec line_feed c) as [E | _]; [contradiction|].
        cbn [andb].
        rewrite replace_fences_plain, Hf, app_nil_r
          by (constructor; assumption).
        reflexivity.
  - change (replace_fences_from 0
              (fence ++ [line_feed] ++ body ++ [line_feed] ++ fence))
      with (if startsWith (fence_json ++ [line_feed])
                 (fence ++ [line_feed] ++ body ++ [line_feed] ++ fence)
            then replace_fences_from 0
                   (skipn 4 (body ++ [line_feed] ++ fence))
            else if startsWith fence_json
                      (fence ++ [line_feed] ++ body ++ [line_feed] ++ fence)
            then replace_fences_from 0
                   (skipn 3 (body ++ [line_feed] ++ fence))
            else replace_fences_from 0
                   ([line_feed] ++ body ++ [line_feed] ++ fence)).
    change (startsWith (fence_json ++ [line_feed])
              (fence ++ [line_feed] ++ body ++ [line_feed] ++ fence))
      with false.
    change (startsWith fence_json
              (fence ++ [line_feed] ++ body ++ [line_feed] ++ fence))
      with false.
    cbv iota.
    change ([line_feed] ++ body ++ [line_feed] ++ fence)
      with ((line_feed :: body) ++ [line_feed] ++ fence).
    rewrite replace_fences_plain
      by (constructor; [discriminate | exact Hb]).
    change ([line_feed] ++ fence) with (line_feed :: fence).
    rewrite replace_fences_copy, Hf by reflexivity.
    rewrite (trim_app_space _ _ Hl).
    unfold trim. cbn [app trimStart]. rewrite Hl. reflexivity.
Qed.

Lemma fenced_block_is_unwrapped_witness :
  let body := js "{ }" in
  Forall (fun c => c <> backtick) body /\
  cleanJsonText body = trim body /\
  cleanJsonText (fence_json ++ [line_feed] ++ body ++ [line_feed] ++ fence)
  = trim body /\
  cleanJsonText (fence_json ++ body ++ fence) = trim body /\
  cleanJsonText (fence ++ [line_feed] ++ body ++ [line_feed] ++ fence)
  = trim body.
Proof.
  cbv zeta.
  assert (H : Forall (fun c => c <> backtick) (js "{ }")).
  { repeat constructor; discriminate. }
  split; [exact H|].
  exact (fenced_block_is_unwrapped _ H).
Defined.

End ResponseText.

